(** * IPTV playlist updater: the ingestion-and-merge pipeline of [main.py]

    A shallow embedding of [IPTVManager] (src/main.py) and the properties of
    its registry merge, probe classification, markup extraction, list parser
    and renderer.

    Conventions of the embedding.
    - A Python [str] is a [string]; a character is the code point below 256
      that [ascii] carries (Latin-1), which fixes [str.lower], [str.strip]
      and the comparison of strings by code point.
    - A Python [float] that is not NaN is a [latency]: the finite values are
      ordered like integers on the grid of the float format, and the code
      only ever compares them.
    - [self.channels_db] is a [dict]; it keeps insertion order, and
      [generate_playlist] sorts [list(self.channels_db.values())] with a
      stable sort, so the registry is an association list with unique keys.
    - The network, the clock and [playlists.txt] are inputs, gathered in
      [env]; [self.config] is the record [config] of resolved options.
    - Files are opened in text mode on a system whose line separator is the
      line feed: writing keeps the text, reading applies universal
      newlines. File operations succeed; logging, the timeouts passed to
      the network, the backups and [stats.json] have no part in what is
      proved and are left out. *)

From Stdlib Require Import Bool Arith ZArith Lia List Ascii String.
From Stdlib Require Import DecimalString DecimalNat Permutation.
Import ListNotations.

Local Open Scope string_scope.
Local Open Scope list_scope.
Local Open Scope nat_scope.

Infix "+++" := String.append (right associativity, at level 60).

(* ================================================================== *)
(** * Characters and strings, as Python sees them                      *)
(* ================================================================== *)

Definition LF : ascii := ascii_of_nat 10.
Definition CR : ascii := ascii_of_nat 13.
Definition dquote : ascii := ascii_of_nat 34.
Definition squote : ascii := ascii_of_nat 39.

(** [str.isspace] on one code point below 256. *)
Definition isspace (c : ascii) : bool :=
  let n := nat_of_ascii c in
  ((9 <=? n) && (n <=? 13)) || ((28 <=? n) && (n <=? 32))
  || (n =? 133) || (n =? 160).

(** [str.lower] on one code point below 256: A-Z and the Latin-1 capitals
    (U+00C0..U+00DE without the multiplication sign) move up by 32. *)
Definition lower_char (c : ascii) : ascii :=
  let n := nat_of_ascii c in
  if ((65 <=? n) && (n <=? 90))
     || ((192 <=? n) && (n <=? 222) && negb (n =? 215))
  then ascii_of_nat (n + 32) else c.

Fixpoint lower (s : string) : string :=
  match s with
  | EmptyString => EmptyString
  | String c s' => String (lower_char c) (lower s')
  end.

Definition is_empty (s : string) : bool :=
  match s with EmptyString => true | _ => false end.

Fixpoint lstrip (s : string) : string :=
  match s with
  | EmptyString => EmptyString
  | String c s' => if isspace c then lstrip s' else s
  end.

Fixpoint rstrip (s : string) : string :=
  match s with
  | EmptyString => EmptyString
  | String c s' =>
      let r := rstrip s' in
      if isspace c && is_empty r then EmptyString else String c r
  end.

(** [s.strip()] *)
Definition strip (s : string) : string := rstrip (lstrip s).

(** [s.startswith(p)] *)
Fixpoint startswith (p s : string) : bool :=
  match p with
  | EmptyString => true
  | String a p' =>
      match s with
      | EmptyString => false
      | String b s' => Ascii.eqb a b && startswith p' s'
      end
  end.

(** [s.endswith(suf)] *)
Fixpoint endswith (suf s : string) : bool :=
  String.eqb suf s ||
  match s with
  | EmptyString => false
  | String _ s' => endswith suf s'
  end.

(** [p in s] for strings. *)
Fixpoint contains (p s : string) : bool :=
  startswith p s ||
  match s with
  | EmptyString => false
  | String _ s' => contains p s'
  end.

(** [c in s] for one character. *)
Fixpoint has_char (c : ascii) (s : string) : bool :=
  match s with
  | EmptyString => false
  | String d s' => Ascii.eqb c d || has_char c s'
  end.

(** [s.split('\n')]: never empty, the last piece is what follows the last
    line feed. *)
Fixpoint split_lines (s : string) : list string :=
  match s with
  | EmptyString => [EmptyString]
  | String c s' =>
      if Ascii.eqb c LF then EmptyString :: split_lines s'
      else match split_lines s' with
           | [] => [String c EmptyString]
           | l :: ls => String c l :: ls
           end
  end.

(** ['\n'.join(ls)] *)
Fixpoint join_lines (ls : list string) : string :=
  match ls with
  | [] => EmptyString
  | [l] => l
  | l :: ls' => l +++ String LF (join_lines ls')
  end.

(** [s[n:]] *)
Fixpoint drop (n : nat) (s : string) : string :=
  match n, s with
  | O, _ => s
  | S n', String _ s' => drop n' s'
  | S _, EmptyString => EmptyString
  end.

(** [s[:n]] *)
Fixpoint take (n : nat) (s : string) : string :=
  match n, s with
  | S n', String c s' => String c (take n' s')
  | _, _ => EmptyString
  end.

(** [str(n)] for a non-negative integer. *)
Definition decimal (n : nat) : string :=
  NilEmpty.string_of_uint (Nat.to_uint n).

(** [[line.strip() for line in content.split('\n') if line.strip()]] *)
Definition stripped_lines (content : string) : list string :=
  filter (fun l => negb (is_empty l)) (map strip (split_lines content)).

(* ================================================================== *)
(** * Latencies                                                        *)
(* ================================================================== *)

(** A ping in milliseconds: [float('inf')] or a finite reading. *)
Inductive latency : Type :=
| Finite (t : Z)
| Infinity.

(** [a < b] on floats. *)
Definition lat_ltb (a b : latency) : bool :=
  match a, b with
  | Finite x, Finite y => (x <? y)%Z
  | Finite _, Infinity => true
  | Infinity, _ => false
  end.

Definition lat_lt (a b : latency) : Prop := lat_ltb a b = true.

(* ================================================================== *)
(** * Configuration, candidates, registry entries                      *)
(* ================================================================== *)

(** The options of [self.config] that the pipeline reads, each already
    resolved against its default ([self.config.get(key, default)]). *)
Record config : Type := {
  quiet_mode : bool;
  clean_html_files : bool;
  enable_availability_check : bool;
  remove_duplicates : bool;
  min_channel_name_length : Z;
  sorting : string
}.

(** The dict built by [parse_playlist]; [source_file] is read back with
    [channel.get('source_file', 'unknown')]. *)
Record channel : Type := {
  ch_name : string;
  ch_url : string;
  ch_group : string;
  ch_logo : string;
  ch_source_file : option string
}.

(** The dict stored in [self.channels_db]. *)
Record entry : Type := {
  name : string;
  url : string;
  group : string;
  logo : string;
  ping : latency;
  source : string
}.

(** [self.channels_db]: keys in insertion order, no key twice. *)
Definition registry : Type := list (string * entry).

(** [self.channels_db.get(key)] *)
Fixpoint db_get (key : string) (db : registry) : option entry :=
  match db with
  | [] => None
  | (k, e) :: db' => if String.eqb key k then Some e else db_get key db'
  end.

(** [key in self.channels_db] *)
Definition db_mem (key : string) (db : registry) : bool :=
  match db_get key db with Some _ => true | None => false end.

(** [self.channels_db[key] = e]: a present key keeps its place, a new key
    goes last. *)
Fixpoint db_set (key : string) (e : entry) (db : registry) : registry :=
  match db with
  | [] => [(key, e)]
  | (k, e0) :: db' =>
      if String.eqb key k then (k, e) :: db' else (k, e0) :: db_set key e db'
  end.

(** [list(self.channels_db.values())] *)
Definition db_values (db : registry) : list entry := map snd db.

Definition db_keys (db : registry) : list string := map fst db.

(* ================================================================== *)
(** * ChannelRegistry: [update_channel_db]                             *)
(* ================================================================== *)

(** [channel['name'].lower().strip()] *)
Definition normalize (n : string) : string := strip (lower n).

(** The dict literal that [update_channel_db] stores. *)
Definition registry_entry (c : channel) (p : latency) : entry :=
  {| name := ch_name c;
     url := ch_url c;
     group := ch_group c;
     logo := ch_logo c;
     ping := p;
     source := match ch_source_file c with
               | Some f => f
               | None => "unknown"
               end |}.

Definition update_channel_db (cfg : config) (db : registry)
    (c : channel) (p : latency) : registry :=
  let channel_key := normalize (ch_name c) in
  if remove_duplicates cfg then
    match db_get channel_key db with
    | Some old =>
        if lat_ltb p (ping old)
        then db_set channel_key (registry_entry c p) db
        else db
    | None => db_set channel_key (registry_entry c p) db
    end
  else db.

(** What [check_channel_availability] returns: [(channel, ping, available)]. *)
Definition probe_result : Type := (channel * latency * bool)%type.

(** The body of the [as_completed] loop of [process_playlists]:
    [if available: self.update_channel_db(channel, ping)]. *)
Definition merge (cfg : config) (db : registry) (r : probe_result) : registry :=
  let '(c, p, available) := r in
  if available then update_channel_db cfg db c p else db.

(** The whole loop, over the results in completion order. *)
Definition merge_all (cfg : config) (db : registry)
    (rs : list probe_result) : registry :=
  fold_left (merge cfg) rs db.

(* ================================================================== *)
(** * AvailabilityProbe: [check_channel_availability]                  *)
(* ================================================================== *)

(** What [self.session.head(url, ...)] does: it returns a response, whose
    status code is read and after which the clock is read again
    ([elapsed_ms] is [(time.time() - start_time) * 1000]), or it raises. *)
Inductive head_result : Type :=
| HeadResponse (status_code : Z) (elapsed_ms : Z)
| HeadError.

(** [response.status_code in [200, 302, 301, 307]] *)
Definition alive_status (status_code : Z) : bool :=
  existsb (Z.eqb status_code) [200; 302; 301; 307]%Z.

Definition check_channel_availability (cfg : config) (c : channel)
    (head : head_result) : probe_result :=
  if negb (enable_availability_check cfg) then (c, Finite 0, true)
  else
    match head with
    | HeadResponse status_code elapsed_ms =>
        (* available = ...; response_time = (time.time() - start_time) * 1000 *)
        (c, Finite elapsed_ms, alive_status status_code)
    | HeadError =>
        (* except Exception: available = False; response_time stays inf *)
        (c, Infinity, false)
    end.

(* ================================================================== *)
(** * The regular expressions of [main.py]                             *)
(* ================================================================== *)

(** The fragment of [re] that the program uses, with the backtracking
    order of [re]: greedy and lazy repetition of a character class,
    concatenation, alternation (left first), one capture group, [^] and
    [$]. *)
Inductive regex : Type :=
| Lit (s : string)
| Class (p : ascii -> bool)
| Star (p : ascii -> bool)
| LazyStar (p : ascii -> bool)
| Cat (r1 r2 : regex)
| Alt (r1 r2 : regex)
| Group (r : regex)
| Bol
| Eol.

(** [[..]+] *)
Definition Plus (p : ascii -> bool) : regex := Cat (Class p) (Star p).

(** [rmatch r i s cap k]: match [r] against [s], which starts at offset [i]
    of the subject; [k] continues with the offset and text that remain and
    with the capture. [None] makes the caller backtrack. *)
Fixpoint rmatch {R : Type} (r : regex) (i : nat) (s : string)
    (cap : option string)
    (k : nat -> string -> option string -> option R) {struct r} : option R :=
  match r with
  | Lit l =>
      if startswith l s
      then k (i + String.length l) (drop (String.length l) s) cap
      else None
  | Class p =>
      match s with
      | String c s' => if p c then k (S i) s' cap else None
      | EmptyString => None
      end
  | Star p =>
      (fix loop (i : nat) (s : string) {struct s} : option R :=
         match s with
         | String c s' =>
             if p c then
               match loop (S i) s' with
               | Some x => Some x
               | None => k i s cap
               end
             else k i s cap
         | EmptyString => k i s cap
         end) i s
  | LazyStar p =>
      (fix loop (i : nat) (s : string) {struct s} : option R :=
         match k i s cap with
         | Some x => Some x
         | None =>
             match s with
             | String c s' => if p c then loop (S i) s' else None
             | EmptyString => None
             end
         end) i s
  | Cat r1 r2 =>
      rmatch r1 i s cap (fun i' s' cap' => rmatch r2 i' s' cap' k)
  | Alt r1 r2 =>
      match rmatch r1 i s cap k with
      | Some x => Some x
      | None => rmatch r2 i s cap k
      end
  | Group r1 =>
      rmatch r1 i s cap (fun i' s' _ => k i' s' (Some (take (i' - i) s)))
  | Bol => if i =? 0 then k i s cap else None
  | Eol =>
      (* end of the subject, or just before a final line feed *)
      if is_empty s || String.eqb s (String LF EmptyString)
      then k i s cap else None
  end.

(** A match of [r] that starts at offset [i]: the offset where it ends and
    group 1. *)
Definition match_at (r : regex) (i : nat) (s : string)
    : option (nat * option string) :=
  rmatch r i s None (fun j _ cap => Some (j, cap)).

(** [re.search(r, s)]: the leftmost match. *)
Fixpoint search_from (r : regex) (i : nat) (s : string)
    : option (nat * option string) :=
  match match_at r i s with
  | Some m => Some m
  | None =>
      match s with
      | String _ s' => search_from r (S i) s'
      | EmptyString => None
      end
  end.

Definition re_search (r : regex) (s : string) : option (nat * option string) :=
  search_from r 0 s.

(** [re.sub(r, '', s)]: the non-overlapping matches, leftmost first, are
    removed; [skip] counts the characters of the current match that are
    still to be dropped. *)
Fixpoint sub_from (r : regex) (skip i : nat) (s : string) : string :=
  match s with
  | EmptyString => EmptyString
  | String c s' =>
      match skip with
      | S n => sub_from r n (S i) s'
      | O =>
          match match_at r i s with
          | Some (j, _) =>
              if i <? j then sub_from r (j - i - 1) (S i) s'
              else String c (sub_from r 0 (S i) s')
          | None => String c (sub_from r 0 (S i) s')
          end
      end
  end.

Definition re_sub_empty (r : regex) (s : string) : string := sub_from r 0 0 s.

Definition any_char (c : ascii) : bool := true.
Definition not_gt (c : ascii) : bool := negb (Ascii.eqb c ">"%char).
Definition not_dquote (c : ascii) : bool := negb (Ascii.eqb c dquote).
Definition is_quote (c : ascii) : bool := Ascii.eqb c dquote || Ascii.eqb c squote.

(** [r'<tag[^>]*>.*?</tag>'] with [re.DOTALL] *)
Definition block_pattern (tag : string) : regex :=
  Cat (Lit ("<" +++ tag))
      (Cat (Star not_gt)
           (Cat (Lit ">")
                (Cat (LazyStar any_char) (Lit ("</" +++ tag +++ ">"))))).

(** [r'<[^>]+>'] *)
Definition tag_pattern : regex := Cat (Lit "<") (Cat (Plus not_gt) (Lit ">")).

(** The pattern of [extract_field]: the field name, an equals sign, a
    double quote, group 1 of characters other than a double quote
    (greedy), and a double quote. The code puts the field name into the
    pattern as it is; this is the pattern for a name without regular
    expression metacharacters, as are the three names that
    [parse_playlist] passes: [tvg-name], [group-title], [tvg-logo]. *)
Definition field_pattern (field : string) : regex :=
  Cat (Lit (field +++ "=" +++ String dquote EmptyString))
      (Cat (Group (Star not_dquote)) (Lit (String dquote EmptyString))).

(** The pattern of [extract_name]: a quote character (double or single)
    at the start, or one at the end. *)
Definition outer_quote_pattern : regex :=
  Alt (Cat Bol (Class is_quote)) (Cat (Class is_quote) Eol).

(* ================================================================== *)
(** * SourceFetcher: [clean_html_content]                              *)
(* ================================================================== *)

(** One turn of the [for line in lines] loop; the state is
    [(in_m3u_section, m3u_lines)]. *)
Definition clean_step (st : bool * list string) (line : string)
    : bool * list string :=
  let '(in_m3u_section, m3u_lines) := st in
  if startswith "#EXTM3U" line then (true, m3u_lines ++ [line])
  else if startswith "#EXTINF:" line then (true, m3u_lines ++ [line])
  else if in_m3u_section && startswith "http" line
       then (in_m3u_section, m3u_lines ++ [line])
  else if in_m3u_section && is_empty (strip line) then
    if negb (match m3u_lines with [] => true | _ => false end)
       && negb (startswith "http" (last m3u_lines EmptyString))
    then (in_m3u_section, m3u_lines ++ [line])
    else st
  else if in_m3u_section && negb (startswith "#" line) then
    if negb (startswith "http" line) then (false, m3u_lines) else st
  else st.

Definition clean_html_content (content : string) : string :=
  if startswith "#EXTM3U" (strip content) || startswith "#EXTINF:" (strip content)
  then content
  else
    let content := re_sub_empty (block_pattern "script") content in
    let content := re_sub_empty (block_pattern "style") content in
    let content := re_sub_empty tag_pattern content in
    let content := join_lines (stripped_lines content) in
    let lines := split_lines content in
    let '(_, m3u_lines) := fold_left clean_step lines (false, []) in
    match m3u_lines with
    | [] => EmptyString
    | _ => join_lines m3u_lines
    end.

(* ================================================================== *)
(** * ListParser: [extract_field], [extract_name], [parse_playlist]    *)
(* ================================================================== *)

Definition nl : string := String LF EmptyString.

(** [match.group(1)] of the leftmost match, or the empty string. *)
Definition extract_field (extinf field : string) : string :=
  match re_search (field_pattern field) extinf with
  | Some (_, Some g) => g
  | _ => EmptyString
  end.

(** [extinf[extinf.rfind(',') + 1:]], when there is a comma. *)
Fixpoint after_last_comma (s : string) : option string :=
  match s with
  | EmptyString => None
  | String c s' =>
      match after_last_comma s' with
      | Some r => Some r
      | None => if Ascii.eqb c ","%char then Some s' else None
      end
  end.

Definition extract_name (extinf : string) : string :=
  match after_last_comma extinf with
  | Some tail => re_sub_empty outer_quote_pattern (strip tail)
  | None => EmptyString
  end.

(** [a or b] on strings. *)
Definition str_or (a b : string) : string := if is_empty a then b else a.

(** [lines[i].startswith(('http://', 'https://', 'rtmp://', 'rtsp://'))] *)
Definition has_stream_scheme (l : string) : bool :=
  startswith "http://" l || startswith "https://" l
  || startswith "rtmp://" l || startswith "rtsp://" l.

(** The body of [if url_line:]. *)
Definition make_channel (cfg : config) (source_file : string)
    (channel_count : nat) (extinf_line url_line : string) : channel :=
  let name0 := str_or (extract_field extinf_line "tvg-name")
                      (extract_name extinf_line) in
  let group0 := str_or (extract_field extinf_line "group-title") "Other" in
  let logo0 := extract_field extinf_line "tvg-logo" in
  let min_length := min_channel_name_length cfg in
  let name1 :=
    if is_empty name0
       || (Z.of_nat (String.length (strip name0)) <? min_length)%Z
    then "Channel_" +++ decimal channel_count
    else name0 in
  {| ch_name := strip name1;
     ch_url := strip url_line;
     ch_group := strip group0;
     ch_logo := strip logo0;
     ch_source_file := Some source_file |}.

(** The two nested [while] loops of [parse_playlist] as one walk over the
    lines from index [i] on. [pending = None] is the outer loop at
    [lines[i]]; [pending = Some extinf_line] is the inner loop, which skips
    empty lines and lines that start with a hash sign, and then looks at
    the first other line: a stream URL makes a channel, anything else is
    passed over by the final [i += 1]. *)
Fixpoint parse_lines (cfg : config) (source_file : string)
    (pending : option string) (channel_count : nat) (lines : list string)
    : list channel :=
  match lines with
  | [] => []
  | line :: rest =>
      match pending with
      | None =>
          if startswith "#EXTINF:" line
          then parse_lines cfg source_file (Some line) channel_count rest
          else parse_lines cfg source_file None channel_count rest
      | Some extinf_line =>
          if is_empty line || startswith "#" line
          then parse_lines cfg source_file pending channel_count rest
          else if has_stream_scheme line
          then make_channel cfg source_file channel_count extinf_line line
               :: parse_lines cfg source_file None (S channel_count) rest
          else parse_lines cfg source_file None channel_count rest
      end
  end.

(** [parse_playlist] from the text that [f.read()] returned. *)
Definition parse_content (cfg : config) (source_file content : string)
    : list channel :=
  parse_lines cfg source_file None 0 (stripped_lines content).

(** Reading a file opened in text mode: universal newlines turn a carriage
    return, alone or before a line feed, into a line feed. *)
Fixpoint universal_newlines (s : string) : string :=
  match s with
  | EmptyString => EmptyString
  | String c s' =>
      if Ascii.eqb c CR then
        match s' with
        | String d s'' =>
            if Ascii.eqb d LF then String LF (universal_newlines s'')
            else String LF (universal_newlines s')
        | EmptyString => nl
        end
      else String c (universal_newlines s')
  end.

(** [parse_playlist(filepath)]: [file] is what the path holds ([None]: it
    cannot be read, the exception handler returns the empty list);
    [source_file] is [os.path.basename(filepath)]. *)
Definition parse_playlist (cfg : config) (source_file : string)
    (file : option string) : list channel :=
  match file with
  | Some written => parse_content cfg source_file (universal_newlines written)
  | None => []
  end.

(* ================================================================== *)
(** * ListRenderer: [sort_channels], [generate_playlist]               *)
(* ================================================================== *)

(** [sorted(channels, key=key)]: the stable sort; [insert_by] puts an
    element before the first later one whose key is not smaller. *)
Fixpoint insert_by {K : Type} (ltb : K -> K -> bool) (key : entry -> K)
    (x : entry) (l : list entry) : list entry :=
  match l with
  | [] => [x]
  | y :: l' =>
      if ltb (key y) (key x) then y :: insert_by ltb key x l' else x :: l
  end.

Definition sorted_by {K : Type} (ltb : K -> K -> bool) (key : entry -> K)
    (l : list entry) : list entry :=
  fold_right (insert_by ltb key) [] l.

(** [<] on the tuples [(group, name.lower())]. *)
Definition pair_ltb (a b : string * string) : bool :=
  String.ltb (fst a) (fst b)
  || (String.eqb (fst a) (fst b) && String.ltb (snd a) (snd b)).

Definition sort_by_method (method : string) (channels : list entry)
    : list entry :=
  if String.eqb method "ping" then sorted_by lat_ltb ping channels
  else if String.eqb method "name"
  then sorted_by String.ltb (fun x => lower (name x)) channels
  else if String.eqb method "group"
  then sorted_by pair_ltb (fun x => (group x, lower (name x))) channels
  else sorted_by lat_ltb ping channels.

Definition sort_channels (cfg : config) (channels : list entry) : list entry :=
  sort_by_method (sorting cfg) channels.

Definition quoted (s : string) : string :=
  String dquote s +++ String dquote EmptyString.

(** The four [f.write] calls of one [#EXTINF] line, without the line feed
    that ends it. *)
Definition extinf_line (c : entry) : string :=
  "#EXTINF:-1 tvg-id=" +++ quoted (name c) +++ " "
  +++ "tvg-name=" +++ quoted (name c) +++ " "
  +++ "tvg-logo=" +++ quoted (logo c) +++ " "
  +++ "group-title=" +++ quoted (group c) +++ "," +++ name c.

Definition extinf_text (c : entry) : string := extinf_line c +++ nl.

(** The [for channel in sorted_channels] loop; [current_group] is the
    loop's variable of that name. *)
Fixpoint render_channels (current_group : string) (cs : list entry) : string :=
  match cs with
  | [] => EmptyString
  | c :: cs' =>
      (if negb (String.eqb (group c) current_group)
       then (if negb (String.eqb current_group EmptyString)
             then nl else EmptyString)
            +++ "#GROUP: " +++ group c +++ nl
       else EmptyString)
      +++ extinf_text c
      +++ url c +++ nl
      +++ render_channels (group c) cs'
  end.

(** Everything written to the output file; [generated] is
    [datetime.now().strftime(...)] and [average] is the average ping
    printed with two decimals. *)
Definition playlist_text (generated average : string) (cs : list entry)
    : string :=
  "#EXTM3U" +++ nl
  +++ "# Generated: " +++ generated +++ nl
  +++ "# Total channels: " +++ decimal (List.length cs) +++ nl
  +++ "# Average ping: " +++ average +++ "ms" +++ nl +++ nl
  +++ render_channels EmptyString cs.

(* ================================================================== *)
(** * The cycle: [download_playlist], [process_playlists], [run]       *)
(* ================================================================== *)

(** What [self.session.get(url, ...)] does: a response with its status code
    and text, or an exception. *)
Inductive get_result : Type :=
| GetResponse (status_code : Z) (text : string)
| GetError.

(** The inputs of one cycle.
    - [playlists_txt]: the text of [playlists.txt], [None] when it is
      missing;
    - [http_get n attempt url]: the GET of the [n]-th source URL at the
      given attempt;
    - [http_head n url]: the HEAD of the [n]-th candidate;
    - [completion n]: the order in which the [n] futures complete, as
      indices into the list of submissions;
    - [md5_hexdigest]: [hashlib.md5(url.encode()).hexdigest()];
    - [generated]: the timestamp of [datetime.now()];
    - [average_text]: the average ping of the channels, printed with two
      decimals (float arithmetic is not modelled). *)
Record env : Type := {
  playlists_txt : option string;
  http_get : nat -> nat -> string -> get_result;
  http_head : nat -> string -> head_result;
  completion : nat -> list nat;
  md5_hexdigest : string -> string;
  generated : string;
  average_text : list entry -> string
}.

(** The instance state that outlives a cycle, and the output file:
    [output_file] is what the output path holds, [output_writes] counts how
    often it was opened for writing. The cache under [temp/], the backups
    and [stats.json] are other paths and are not part of the state. *)
Record state : Type := {
  channels_db : registry;
  output_file : option string;
  output_writes : nat
}.

(** [load_playlist_urls] *)
Definition load_playlist_urls (e : env) : list string :=
  match playlists_txt e with
  | Some text =>
      filter (fun line => negb (is_empty line) && negb (startswith "#" line))
             (map strip (split_lines (universal_newlines text)))
  | None => []
  end.

(** One turn of the [for attempt in range(max_retries)] loop: the content
    that is written to the cache, or [None] when the attempt fails. *)
Definition download_attempt (cfg : config) (r : get_result) : option string :=
  match r with
  | GetResponse status_code content =>
      if (status_code =? 200)%Z then
        let cleaned :=
          if clean_html_files cfg
             && (contains "<!DOCTYPE html>" content || contains "<html" content)
          then
            let clean_content := clean_html_content content in
            if negb (is_empty clean_content) && contains "#EXTINF:" clean_content
            then Some clean_content
            else None
          else Some content in
        match cleaned with
        | Some content' =>
            if contains "#EXTINF:" content' then Some content' else None
        | None => None
        end
      else None
  | GetError => None
  end.

Fixpoint download_loop (cfg : config) (get : nat -> get_result)
    (attempt remaining : nat) : option string :=
  match remaining with
  | O => None
  | S remaining' =>
      match download_attempt cfg (get attempt) with
      | Some content => Some content
      | None => download_loop cfg get (S attempt) remaining'
      end
  end.

(** [download_playlist(url)] for the [n]-th source: the name of the cache
    file under [temp/] and the content written to it. *)
Definition download_playlist (cfg : config) (e : env) (n : nat) (url : string)
    : option (string * string) :=
  let max_retries := if quiet_mode cfg then 1 else 2 in
  match download_loop cfg (fun attempt => http_get e n attempt url) 0 max_retries with
  | Some content => Some (md5_hexdigest e url +++ ".m3u", content)
  | None => None
  end.

(** The first loop of [process_playlists]: the cache files written, in
    order. *)
Fixpoint download_all (cfg : config) (e : env) (n : nat) (urls : list string)
    : list (string * string) :=
  match urls with
  | [] => []
  | url :: urls' =>
      match download_playlist cfg e n url with
      | Some f => f :: download_all cfg e (S n) urls'
      | None => download_all cfg e (S n) urls'
      end
  end.

(** What a cache file holds once all downloads are done: the last content
    written under that name. *)
Fixpoint cache_lookup (file : string) (written : list (string * string))
    : option string :=
  match written with
  | [] => None
  | (f, content) :: written' =>
      match cache_lookup file written' with
      | Some later => Some later
      | None => if String.eqb file f then Some content else None
      end
  end.

(** [all_channels] *)
Definition parse_all (cfg : config) (written : list (string * string))
    : list channel :=
  flat_map (fun f => parse_playlist cfg (fst f) (cache_lookup (fst f) written))
           written.

Fixpoint probe_all (cfg : config) (e : env) (n : nat) (cs : list channel)
    : list probe_result :=
  match cs with
  | [] => []
  | c :: cs' =>
      check_channel_availability cfg c (http_head e n (ch_url c))
      :: probe_all cfg e (S n) cs'
  end.

(** [as_completed(futures)]: the results in completion order. *)
Definition as_completed (e : env) (results : list probe_result)
    : list probe_result :=
  flat_map (fun i => match nth_error results i with
                     | Some r => [r]
                     | None => []
                     end)
           (completion e (List.length results)).

Definition process_playlists (cfg : config) (e : env) (st : state) : state :=
  match load_playlist_urls e with
  | [] => st
  | playlist_urls =>
      let downloaded_files := download_all cfg e 0 playlist_urls in
      match parse_all cfg downloaded_files with
      | [] => st
      | all_channels =>
          {| channels_db :=
               merge_all cfg (channels_db st)
                         (as_completed e (probe_all cfg e 0 all_channels));
             output_file := output_file st;
             output_writes := output_writes st |}
      end
  end.

Definition generate_playlist (cfg : config) (e : env) (st : state) : state :=
  match channels_db st with
  | [] => st
  | _ =>
      let channels := db_values (channels_db st) in
      let sorted_channels := sort_channels cfg channels in
      {| channels_db := channels_db st;
         output_file :=
           Some (playlist_text (generated e) (average_text e sorted_channels)
                               sorted_channels);
         output_writes := S (output_writes st) |}
  end.

(** One turn of the [while True] loop of [run]. *)
Definition run_cycle (cfg : config) (e : env) (st : state) : state :=
  generate_playlist cfg e (process_playlists cfg e st).

(** Several turns, one [env] each. *)
Definition run_cycles (cfg : config) (es : list env) (st : state) : state :=
  fold_left (fun st e => run_cycle cfg e st) es st.

(** [IPTVManager.__init__]: [self.channels_db = {}]; the output file is
    whatever is on disk. *)
Definition initial_state (on_disk : option string) : state :=
  {| channels_db := []; output_file := on_disk; output_writes := 0 |}.

(* ================================================================== *)
(** * Statements about the registry                                    *)
(* ================================================================== *)

(** [e'] is what the registry holds under a key that held [e] before: the
    same entry, or one with a strictly lower ping. *)
Definition improves (e e' : entry) : Prop :=
  e' = e \/ lat_lt (ping e') (ping e).

(** Every key of [db] is still a key of [db'], and its entry is the old one
    or a strictly faster one. *)
Definition registry_le (db db' : registry) : Prop :=
  forall k e, db_get k db = Some e ->
    exists e', db_get k db' = Some e' /\ improves e e'.

(* ================================================================== *)
(** * Statements about rendering and parsing again                     *)
(* ================================================================== *)

Definition triple_of_entry (c : entry) : string * string * string :=
  (name c, url c, group c).

Definition triple_of_channel (c : channel) : string * string * string :=
  (ch_name c, ch_url c, ch_group c).

(** A field that occupies one line and one attribute value: no line feed,
    no carriage return, no double quote. *)
Definition plain_value (s : string) : bool :=
  negb (has_char LF s) && negb (has_char CR s) && negb (has_char dquote s).

(** [s.strip() == s] *)
Definition trimmed (s : string) : bool := String.eqb (strip s) s.

(** The entries that the renderer writes so that the parser reads them
    back: the renderer escapes nothing, so name, logo and group are plain
    values that do not end in the text that opens a later attribute; name
    and group are non-empty and stripped, the name has the minimum length;
    the URL is one stripped line with a stream scheme. *)
Definition reads_back (cfg : config) (c : entry) : bool :=
  plain_value (name c) && trimmed (name c) && negb (is_empty (name c))
  && (min_channel_name_length cfg <=? Z.of_nat (String.length (name c)))%Z
  && negb (endswith "tvg-name=" (name c))
  && negb (endswith "group-title=" (name c))
  && plain_value (logo c) && negb (endswith "group-title=" (logo c))
  && plain_value (group c) && trimmed (group c) && negb (is_empty (group c))
  && negb (has_char LF (url c)) && negb (has_char CR (url c))
  && trimmed (url c) && has_stream_scheme (url c).

(** [''.join(l + '\n' for l in ls)] *)
Fixpoint unlines (ls : list string) : string :=
  match ls with
  | [] => EmptyString
  | l :: ls' => l +++ nl +++ unlines ls'
  end.

(** The lines that the loop of [generate_playlist] writes. *)
Fixpoint channel_lines (current_group : string) (cs : list entry)
    : list string :=
  match cs with
  | [] => []
  | c :: cs' =>
      (if negb (String.eqb (group c) current_group)
       then (if negb (String.eqb current_group EmptyString)
             then [EmptyString] else [])
            ++ ["#GROUP: " +++ group c]
       else [])
      ++ [extinf_line c; url c]
      ++ channel_lines (group c) cs'
  end.

(** The lines written before the loop. *)
Definition header_lines (generated average : string) (n : nat) : list string :=
  ["#EXTM3U";
   "# Generated: " +++ generated;
   "# Total channels: " +++ decimal n;
   "# Average ping: " +++ average +++ "ms";
   EmptyString].

(** Group 1 of a search result, as [extract_field] reads it. *)
Definition capture_of (m : option (nat * option string)) : string :=
  match m with
  | Some (_, Some g) => g
  | _ => EmptyString
  end.

(** The layout of the channel lines in the words of the specification: a
    [#GROUP:] marker wherever the group changes from the previous channel
    (the first channel has none before it), and a blank line before every
    marker except the very first. [prev] is the group of the previous
    channel, [first_marker] tells that no marker was written yet. *)
Fixpoint render_channels_spec (prev : option string) (first_marker : bool)
    (cs : list entry) : string :=
  match cs with
  | [] => EmptyString
  | c :: cs' =>
      let changed :=
        match prev with
        | None => true
        | Some g => negb (String.eqb (group c) g)
        end in
      (if changed
       then (if first_marker then EmptyString else nl)
            +++ "#GROUP: " +++ group c +++ nl
       else EmptyString)
      +++ extinf_text c
      +++ url c +++ nl
      +++ render_channels_spec (Some (group c)) (first_marker && negb changed) cs'
  end.

(** No channel of the list has a strictly lower ping than one before
    it. *)
Fixpoint ping_ascending (cs : list entry) : Prop :=
  match cs with
  | [] => True
  | c :: cs' =>
      (forall d, In d cs' -> lat_ltb (ping d) (ping c) = false)
      /\ ping_ascending cs'
  end.

(* ================================================================== *)
(** * Sample data                                                      *)
(* ================================================================== *)

(** The defaults that [load_config] writes out. *)
Definition default_config : config :=
  {| quiet_mode := true;
     clean_html_files := true;
     enable_availability_check := true;
     remove_duplicates := true;
     min_channel_name_length := 3;
     sorting := "ping" |}.

Definition keep_duplicates_config : config :=
  {| quiet_mode := true;
     clean_html_files := true;
     enable_availability_check := true;
     remove_duplicates := false;
     min_channel_name_length := 3;
     sorting := "ping" |}.

Definition candidate (n u : string) : channel :=
  {| ch_name := n; ch_url := u; ch_group := "Other"; ch_logo := EmptyString;
     ch_source_file := Some "a.m3u" |}.

Definition unsorted_config : config :=
  {| quiet_mode := true;
     clean_html_files := true;
     enable_availability_check := true;
     remove_duplicates := true;
     min_channel_name_length := 3;
     sorting := "latency" |}.

(** The document of the markup-extraction example, around a script body
    [js]. *)
Definition wrapped_document (js : string) : string :=
  "<html><body><script>" +++ js +++ "</script>"
  +++ "#EXTM3U" +++ nl +++ "#EXTINF:-1,Test" +++ nl +++ "http://x/y"
  +++ "</body></html>".

(** A source with three entries; the second one has a group title that is
    a single space. *)
Definition three_groups_source : string :=
  "#EXTM3U" +++ nl
  +++ "#EXTINF:-1 group-title=" +++ quoted "News" +++ ",One" +++ nl
  +++ "http://a/1" +++ nl
  +++ "#EXTINF:-1 group-title=" +++ quoted " " +++ ",Two" +++ nl
  +++ "http://b/2" +++ nl
  +++ "#EXTINF:-1 group-title=" +++ quoted "Sport" +++ ",Three" +++ nl
  +++ "http://c/3" +++ nl.

Definition channel_in (n u g : string) (p : Z) : entry :=
  {| name := n; url := u; group := g; logo := EmptyString;
     ping := Finite p; source := "d41d.m3u" |}.

Definition three_groups : list entry :=
  [channel_in "One" "http://a/1" "News" 10;
   channel_in "Two" "http://b/2" EmptyString 20;
   channel_in "Three" "http://c/3" "Sport" 30].

(** A cycle in which the source list names one source, which serves
    [three_groups_source], and every stream answers 200; the [n]-th after
    [10 * (n + 1)] ms. *)
Definition serving_env : env :=
  {| playlists_txt := Some ("# sources" +++ nl +++ "http://src/list.m3u" +++ nl);
     http_get := fun _ _ _ => GetResponse 200 three_groups_source;
     http_head := fun n _ => HeadResponse 200 (Z.of_nat (10 * (n + 1)));
     completion := fun n => seq 0 n;
     md5_hexdigest := fun _ => "d41d";
     generated := "2024-01-01 00:00:00";
     average_text := fun _ => "20.00" |}.

(** A later cycle in which the source list holds only a comment. *)
Definition no_sources_env : env :=
  {| playlists_txt := Some ("# sources" +++ nl);
     http_get := fun _ _ _ => GetError;
     http_head := fun _ _ => HeadError;
     completion := fun n => seq 0 n;
     md5_hexdigest := fun _ => "d41d";
     generated := "2024-01-01 06:00:00";
     average_text := fun _ => "20.00" |}.

(** A source whose entry takes its name from the text after the comma;
    the name holds a double quote. *)
Definition quoted_name_source : string :=
  "#EXTM3U" +++ nl
  +++ "#EXTINF:-1 group-title=" +++ quoted "News"
  +++ ",Fox" +++ String dquote "News" +++ nl
  +++ "http://x/y" +++ nl.

Definition quoted_name_env : env :=
  {| playlists_txt := Some ("http://src/list.m3u" +++ nl);
     http_get := fun _ _ _ => GetResponse 200 quoted_name_source;
     http_head := fun _ _ => HeadResponse 200 40;
     completion := fun n => seq 0 n;
     md5_hexdigest := fun _ => "d41d";
     generated := "2024-01-01 00:00:00";
     average_text := fun _ => "40.00" |}.

Definition quoted_name_state : state :=
  run_cycle default_config quoted_name_env (initial_state None).

Definition alpha1 : channel := candidate "Alpha" "http://one/a".
Definition alpha2 : channel := candidate "alpha " "http://two/a".

(* ================================================================== *)
(** * Further statements about the registry                            *)
(* ================================================================== *)

(** Every entry is stored under the normalized form of its own name, and
    no key occurs twice. *)
Definition well_keyed (db : registry) : Prop :=
  NoDup (db_keys db)
  /\ Forall (fun ke => normalize (name (snd ke)) = fst ke) db.

(** Every entry of [db] was built from an alive result of [rs] under the
    key of that result. *)
Definition from_results (rs : list probe_result) (db : registry) : Prop :=
  forall k e, db_get k db = Some e ->
    exists c p, In (c, p, true) rs
                /\ normalize (ch_name c) = k /\ e = registry_entry c p.

(** No two alive results of [rs] for the same key carry the same ping,
    unless they build the same entry. *)
Definition distinct_pings (rs : list probe_result) : Prop :=
  forall c1 p1 c2 p2,
    In (c1, p1, true) rs -> In (c2, p2, true) rs ->
    normalize (ch_name c1) = normalize (ch_name c2) -> p1 = p2 ->
    registry_entry c1 p1 = registry_entry c2 p2.

(* ================================================================== *)
(** * Further statements about extraction and parsing                  *)
(* ================================================================== *)

(** A line that [clean_html_content] keeps. *)
Definition list_line (l : string) : bool :=
  startswith "#EXTM3U" l || startswith "#EXTINF:" l || startswith "http" l.

(** A line that opens a list section. *)
Definition section_line (l : string) : bool :=
  startswith "#EXTM3U" l || startswith "#EXTINF:" l.

(** The text is handed to the tag removal of [clean_html_content], not
    returned as it is. *)
Definition is_markup (content : string) : bool :=
  negb (section_line (strip content)).

(** No character of the string is white space. *)
Fixpoint no_space (s : string) : bool :=
  match s with
  | EmptyString => true
  | String c s' => negb (isspace c) && no_space s'
  end.

(** [max_retries] of [download_playlist]. *)
Definition max_retries (cfg : config) : nat :=
  if quiet_mode cfg then 1 else 2.

(** A cycle in which no source can be fetched. *)
Definition offline_env : env :=
  {| playlists_txt := Some ("http://src/list.m3u" +++ nl);
     http_get := fun _ attempt _ =>
                   if attempt =? 0 then GetError
                   else GetResponse 404 "not found";
     http_head := fun _ _ => HeadError;
     completion := fun n => seq 0 n;
     md5_hexdigest := fun _ => "d41d";
     generated := "2024-01-01 12:00:00";
     average_text := fun _ => "0.00" |}.

(* ================================================================== *)
(** * Further statements about sorting                                 *)
(* ================================================================== *)

(** No element of the list has a strictly smaller key than one before
    it. *)
Fixpoint ascending_by {K : Type} (ltb : K -> K -> bool) (key : entry -> K)
    (cs : list entry) : Prop :=
  match cs with
  | [] => True
  | c :: cs' =>
      (forall d, In d cs' -> ltb (key d) (key c) = false)
      /\ ascending_by ltb key cs'
  end.

(** The order that the configured method asks for. *)
Definition method_ascending (method : string) (cs : list entry) : Prop :=
  if String.eqb method "name"
  then ascending_by String.ltb (fun x => lower (name x)) cs
  else if String.eqb method "group"
  then ascending_by pair_ltb (fun x => (group x, lower (name x))) cs
  else ascending_by lat_ltb ping cs.

Definition by_name_config : config :=
  {| quiet_mode := true;
     clean_html_files := true;
     enable_availability_check := true;
     remove_duplicates := true;
     min_channel_name_length := 3;
     sorting := "name" |}.

(* ================================================================== *)
(** * [get_request_timeout]                                            *)
(* ================================================================== *)

(** The options that [get_request_timeout] reads, resolved against their
    defaults. *)
Record timeout_options : Type := {
  connection_timeout : Z;
  read_timeout : Z;
  problematic_domains_timeout : Z;
  problematic_domains : list string
}.

(** The [for domain in problematic_domains] loop: the first domain that
    occurs in the URL ends it. *)
Fixpoint timeout_for (o : timeout_options) (domains : list string)
    (url : string) : Z * Z :=
  match domains with
  | [] => (connection_timeout o, read_timeout o)
  | domain :: domains' =>
      if contains domain url
      then (problematic_domains_timeout o, problematic_domains_timeout o)
      else timeout_for o domains' url
  end.

Definition get_request_timeout (o : timeout_options) (url : string) : Z * Z :=
  timeout_for o (problematic_domains o) url.

(** The defaults of [load_config]. *)
Definition default_timeouts : timeout_options :=
  {| connection_timeout := 3;
     read_timeout := 5;
     problematic_domains_timeout := 8;
     problematic_domains :=
       ["rutube.ru"; "youtube.com"; "vk.com"; "mail.ru"; "rambler.ru"; "ok.ru"] |}.

(* ================================================================== *)
(** * [cleanup_old_backups]                                            *)
(* ================================================================== *)

(** A file of the backup directory: its name and its modification time
    (a float that is only compared, kept on an integer grid). *)
Definition dir_entry : Type := (string * Z)%type.

(** [f.startswith('playlist_backup_') and f.endswith('.m3u')] *)
Definition is_backup_name (f : string) : bool :=
  startswith "playlist_backup_" f && endswith ".m3u" f.

(** [files.sort(key=os.path.getmtime)]: the stable sort of a list. *)
Fixpoint insert_on {A K : Type} (ltb : K -> K -> bool) (key : A -> K)
    (x : A) (l : list A) : list A :=
  match l with
  | [] => [x]
  | y :: l' =>
      if ltb (key y) (key x) then y :: insert_on ltb key x l' else x :: l
  end.

Definition sorted_on {A K : Type} (ltb : K -> K -> bool) (key : A -> K)
    (l : list A) : list A :=
  fold_right (insert_on ltb key) [] l.

(** The loop [while len(files) > max_backups: os.remove(files.pop(0))]:
    the files removed and the files left in [files]. With a negative
    maximum the loop empties the list, and the [pop] from the empty list
    raises into the handler of [cleanup_old_backups]. *)
Fixpoint cleanup_loop (max_backups : Z) (files : list dir_entry)
    : list dir_entry * list dir_entry :=
  match files with
  | [] => ([], [])
  | old_file :: files' =>
      if (Z.of_nat (List.length files) >? max_backups)%Z
      then let '(removed, kept) := cleanup_loop max_backups files' in
           (old_file :: removed, kept)
      else ([], files)
  end.

(** [cleanup_old_backups] on the listing of the backup directory: the
    backups removed and the backups kept. Other files are not touched. *)
Definition cleanup_old_backups (max_backup_files : Z) (listing : list dir_entry)
    : list dir_entry * list dir_entry :=
  let files := filter (fun f => is_backup_name (fst f)) listing in
  cleanup_loop max_backup_files (sorted_on Z.ltb snd files).

Definition seven_backups : list dir_entry :=
  [("playlist_backup_20240105_000000.m3u", 50%Z);
   ("playlist_backup_20240101_000000.m3u", 10%Z);
   ("notes.txt", 5%Z);
   ("playlist_backup_20240107_000000.m3u", 70%Z);
   ("playlist_backup_20240103_000000.m3u", 30%Z);
   ("playlist_backup_20240102_000000.m3u", 20%Z);
   ("playlist_backup_20240106_000000.m3u", 60%Z);
   ("playlist_backup_20240104_000000.m3u", 40%Z)].

(* ================================================================== *)
(** * [generate_stats]                                                 *)
(* ================================================================== *)

(** [d[k] = d.get(k, 0) + 1] on a dict of counters. *)
Fixpoint count_up (k : string) (d : list (string * nat)) : list (string * nat) :=
  match d with
  | [] => [(k, 1)]
  | (k0, n) :: d' =>
      if String.eqb k k0 then (k0, S n) :: d' else (k0, n) :: count_up k d'
  end.

(** [d.get(k, 0)] *)
Fixpoint count_get (k : string) (d : list (string * nat)) : nat :=
  match d with
  | [] => 0
  | (k0, n) :: d' => if String.eqb k k0 then n else count_get k d'
  end.

(** [min(channel['ping'] for channel in channels) if channels else 0] *)
Definition min_ping_of (channels : list entry) : latency :=
  match channels with
  | [] => Finite 0
  | c :: cs =>
      fold_left (fun m x => if lat_ltb (ping x) m then ping x else m) cs (ping c)
  end.

(** [max(channel['ping'] for channel in channels) if channels else 0] *)
Definition max_ping_of (channels : list entry) : latency :=
  match channels with
  | [] => Finite 0
  | c :: cs =>
      fold_left (fun m x => if lat_ltb m (ping x) then ping x else m) cs (ping c)
  end.

(** The dict that [generate_stats] dumps, without [average_ping] (float
    arithmetic) and [generated] (the clock). *)
Record stats : Type := {
  total_channels : nat;
  groups : list (string * nat);
  min_ping : latency;
  max_ping : latency;
  sources : list (string * nat)
}.

Definition generate_stats (channels : list entry) : stats :=
  {| total_channels := List.length channels;
     groups := fold_left (fun d c => count_up (group c) d) channels [];
     min_ping := min_ping_of channels;
     max_ping := max_ping_of channels;
     sources := fold_left (fun d c => count_up (source c) d) channels [] |}.

(** The sum of the counters of a dict. *)
Definition count_total (d : list (string * nat)) : nat :=
  fold_right (fun kn acc => snd kn + acc) 0 d.

(** How many channels satisfy a test. *)
Definition count_channels (f : entry -> bool) (cs : list entry) : nat :=
  List.length (filter f cs).

(* ================================================================== *)
(** * Further statements about one merge and one probe                 *)
(* ================================================================== *)

(** [e] is the dict literal of [update_channel_db] for the candidate [c]
    and the latency [p], field by field. *)
Definition built_from (e : entry) (c : channel) (p : latency) : Prop :=
  name e = ch_name c /\ url e = ch_url c /\ group e = ch_group c
  /\ logo e = ch_logo c /\ ping e = p
  /\ source e = match ch_source_file c with
                | Some f => f
                | None => "unknown"
                end.

(** A capital letter below 256: A-Z, or U+00C0..U+00DE without the
    multiplication sign. *)
Definition is_capital (c : ascii) : bool :=
  let n := nat_of_ascii c in
  ((65 <=? n) && (n <=? 90))
  || ((192 <=? n) && (n <=? 222) && negb (n =? 215)).

(** [status_forcelist] of the [Retry] that [setup_session] mounts on the
    session, with [HEAD] among its [allowed_methods]. *)
Definition status_forcelist : list Z := [429; 500; 502; 503; 504]%Z.

(** [self.session.head(url, ...)] through that adapter. [answer] is the
    answer to the last attempt that the retry policy allows: an answer
    with a status of [status_forcelist] is retried while attempts are left
    and makes the call raise when none is left ([raise_on_status] is at
    its default), so such a response is never returned; any other response
    is returned, a transport error raises. *)
Definition session_head (answer : head_result) : head_result :=
  match answer with
  | HeadResponse status_code elapsed_ms =>
      if existsb (Z.eqb status_code) status_forcelist
      then HeadError
      else HeadResponse status_code elapsed_ms
  | HeadError => HeadError
  end.

(** [a == b] on floats. *)
Definition lat_eqb (a b : latency) : bool :=
  match a, b with
  | Finite x, Finite y => (x =? y)%Z
  | Infinity, Infinity => true
  | _, _ => false
  end.

(** Two channels have the same sort key under the configured method. *)
Definition same_key (method : string) (c d : entry) : bool :=
  if String.eqb method "name"
  then String.eqb (lower (name d)) (lower (name c))
  else if String.eqb method "group"
  then String.eqb (group d) (group c)
       && String.eqb (lower (name d)) (lower (name c))
  else lat_eqb (ping d) (ping c).

(* ================================================================== *)
(** * Latencies are strictly ordered                                   *)
(* ================================================================== *)

Lemma lat_lt_irrefl (a : latency) : ~ lat_lt a a.
Proof.
  unfold lat_lt; destruct a as [x|]; simpl; [|discriminate].
  rewrite Z.ltb_irrefl; discriminate.
Qed.

Lemma lat_lt_trans (a b c : latency) : lat_lt a b -> lat_lt b c -> lat_lt a c.
Proof.
  unfold lat_lt; destruct a as [x|], b as [y|], c as [z|]; simpl;
    try discriminate; try reflexivity.
  rewrite !Z.ltb_lt; lia.
Qed.

Lemma lat_lt_asym (a b : latency) : lat_lt a b -> ~ lat_lt b a.
Proof.
  intros Hab Hba. exact (lat_lt_irrefl a (lat_lt_trans a b a Hab Hba)).
Qed.

(* ================================================================== *)
(** * The registry as a dict                                           *)
(* ================================================================== *)

Lemma db_get_set_same (k : string) (e : entry) (db : registry) :
  db_get k (db_set k e db) = Some e.
Proof.
  induction db as [|[k0 e0] db IH]; simpl.
  - now rewrite String.eqb_refl.
  - destruct (String.eqb k k0) eqn:E; simpl; rewrite E; auto.
Qed.

Lemma db_get_set_other (k k' : string) (e : entry) (db : registry) :
  k' <> k -> db_get k' (db_set k e db) = db_get k' db.
Proof.
  intros Hne. induction db as [|[k0 e0] db IH]; simpl.
  - apply String.eqb_neq in Hne. now rewrite Hne.
  - destruct (String.eqb k k0) eqn:E; simpl.
    + apply String.eqb_eq in E; subst k0.
      apply String.eqb_neq in Hne. now rewrite Hne.
    + now rewrite IH.
Qed.

Lemma db_set_absent (k : string) (e : entry) (db : registry) :
  db_get k db = None -> db_set k e db = db ++ [(k, e)].
Proof.
  induction db as [|[k0 e0] db IH]; simpl; intros H; [reflexivity|].
  destruct (String.eqb k k0); [discriminate|]. now rewrite IH.
Qed.

Lemma db_keys_set (k : string) (e : entry) (db : registry) :
  db_keys (db_set k e db) =
  if db_mem k db then db_keys db else db_keys db ++ [k].
Proof.
  unfold db_mem. induction db as [|[k0 e0] db IH]; simpl; [reflexivity|].
  destruct (String.eqb k k0) eqn:E; simpl.
  - reflexivity.
  - rewrite IH. now destruct (db_get k db).
Qed.

(* ================================================================== *)
(** * C2: keys stay, pings only go down                                *)
(* ================================================================== *)

Lemma improves_refl (e : entry) : improves e e.
Proof. now left. Qed.

Lemma improves_trans (a b c : entry) :
  improves a b -> improves b c -> improves a c.
Proof.
  unfold improves. intros [->|Hab] [->|Hbc]; auto.
  right. eapply lat_lt_trans; eauto.
Qed.

Lemma improves_not_slower (e e' : entry) :
  improves e e' -> ~ lat_lt (ping e) (ping e').
Proof.
  intros [->|H]; [apply lat_lt_irrefl | now apply lat_lt_asym].
Qed.

Lemma registry_le_refl (db : registry) : registry_le db db.
Proof. intros k e H. exists e. split; [assumption|apply improves_refl]. Qed.

Lemma registry_le_trans (a b c : registry) :
  registry_le a b -> registry_le b c -> registry_le a c.
Proof.
  intros Hab Hbc k e H. destruct (Hab k e H) as [e1 [H1 I1]].
  destruct (Hbc k e1 H1) as [e2 [H2 I2]]. exists e2.
  split; [assumption|eapply improves_trans; eauto].
Qed.

Lemma update_channel_db_le (cfg : config) (db : registry) (c : channel)
    (p : latency) : registry_le db (update_channel_db cfg db c p).
Proof.
  unfold update_channel_db.
  destruct (remove_duplicates cfg); [|apply registry_le_refl].
  destruct (db_get (normalize (ch_name c)) db) as [old|] eqn:Hold.
  - destruct (lat_ltb p (ping old)) eqn:Hlt; [|apply registry_le_refl].
    intros k e Hk. destruct (string_dec k (normalize (ch_name c))) as [->|Hne].
    + rewrite db_get_set_same. eexists; split; [reflexivity|].
      right. simpl. rewrite Hold in Hk. now injection Hk as <-.
    + rewrite db_get_set_other by assumption. exists e.
      split; [assumption|apply improves_refl].
  - intros k e Hk. destruct (string_dec k (normalize (ch_name c))) as [->|Hne].
    + congruence.
    + rewrite db_get_set_other by assumption. exists e.
      split; [assumption|apply improves_refl].
Qed.

Lemma merge_le (cfg : config) (db : registry) (r : probe_result) :
  registry_le db (merge cfg db r).
Proof.
  destruct r as [[c p] [|]]; simpl;
    [apply update_channel_db_le | apply registry_le_refl].
Qed.

Lemma merge_all_le (cfg : config) (rs : list probe_result) (db : registry) :
  registry_le db (merge_all cfg db rs).
Proof.
  unfold merge_all. revert db.
  induction rs as [|r rs IH]; intros db; simpl; [apply registry_le_refl|].
  eapply registry_le_trans; [apply merge_le | apply IH].
Qed.

Lemma process_playlists_le (cfg : config) (e : env) (st : state) :
  registry_le (channels_db st) (channels_db (process_playlists cfg e st)).
Proof.
  unfold process_playlists.
  destruct (load_playlist_urls e); [apply registry_le_refl|].
  destruct (parse_all cfg _); [apply registry_le_refl|]. simpl.
  apply merge_all_le.
Qed.

Lemma generate_playlist_db (cfg : config) (e : env) (st : state) :
  channels_db (generate_playlist cfg e st) = channels_db st.
Proof.
  unfold generate_playlist. destruct (channels_db st) eqn:E; simpl; congruence.
Qed.

Lemma run_cycle_le (cfg : config) (e : env) (st : state) :
  registry_le (channels_db st) (channels_db (run_cycle cfg e st)).
Proof.
  unfold run_cycle. rewrite generate_playlist_db. apply process_playlists_le.
Qed.

Lemma run_cycles_le (cfg : config) (es : list env) (st : state) :
  registry_le (channels_db st) (channels_db (run_cycles cfg es st)).
Proof.
  unfold run_cycles. revert st.
  induction es as [|e es IH]; intros st; simpl; [apply registry_le_refl|].
  eapply registry_le_trans; [apply run_cycle_le | apply IH].
Qed.

(** C2. Along every sequence of merges, and along every sequence of cycles,
    a key that the registry holds is never removed, and the entry stored
    under it is the one that was there or one with a strictly lower ping;
    so the stored ping never increases. *)
Theorem registry_keys_persist_pings_decrease (cfg : config) (k : string)
    (e : entry) :
  (forall (db : registry) (rs : list probe_result),
     db_get k db = Some e ->
     exists e', db_get k (merge_all cfg db rs) = Some e'
                /\ (e' = e \/ lat_lt (ping e') (ping e))
                /\ ~ lat_lt (ping e) (ping e')) /\
  (forall (st : state) (es : list env),
     db_get k (channels_db st) = Some e ->
     exists e', db_get k (channels_db (run_cycles cfg es st)) = Some e'
                /\ (e' = e \/ lat_lt (ping e') (ping e))
                /\ ~ lat_lt (ping e) (ping e')).
Proof.
  split.
  - intros db rs H. destruct (merge_all_le cfg rs db k e H) as [e' [H1 H2]].
    exists e'. repeat split; auto. now apply improves_not_slower.
  - intros st es H. destruct (run_cycles_le cfg es st k e H) as [e' [H1 H2]].
    exists e'. repeat split; auto. now apply improves_not_slower.
Qed.

(** A merge that lowers the ping of [alpha], followed by an empty cycle. *)
Lemma registry_keys_persist_pings_decrease_witness :
  exists e',
    db_get "alpha"
      (merge_all default_config
         [("alpha", registry_entry alpha1 (Finite 50))]
         [(alpha2, Finite 30, true)]) = Some e'
    /\ (e' = registry_entry alpha1 (Finite 50)
        \/ lat_lt (ping e') (ping (registry_entry alpha1 (Finite 50))))
    /\ ~ lat_lt (ping (registry_entry alpha1 (Finite 50))) (ping e').
Proof.
  apply (proj1 (registry_keys_persist_pings_decrease default_config "alpha"
                  (registry_entry alpha1 (Finite 50)))).
  reflexivity.
Defined.

(* ================================================================== *)
(** * C5: two observations of one channel, in either order             *)
(* ================================================================== *)

(** Two alive candidates with the same key and different pings leave the
    faster one alone in an empty registry, whichever comes first. *)
Lemma merge_pair_commutes (cfg : config) (a b : channel) (pa pb : latency) :
  remove_duplicates cfg = true ->
  normalize (ch_name a) = normalize (ch_name b) ->
  lat_lt pb pa ->
  merge_all cfg [] [(a, pa, true); (b, pb, true)]
    = [(normalize (ch_name b), registry_entry b pb)]
  /\ merge_all cfg [] [(b, pb, true); (a, pa, true)]
    = [(normalize (ch_name b), registry_entry b pb)].
Proof.
  intros Hdedup Hkey Hlt.
  assert (Hnlt : lat_ltb pa pb = false).
  { destruct (lat_ltb pa pb) eqn:E; [|reflexivity].
    now elim (lat_lt_asym pb pa Hlt). }
  unfold merge_all, merge, update_channel_db; simpl.
  rewrite !Hdedup; simpl. rewrite Hkey, !String.eqb_refl; simpl.
  unfold lat_lt in Hlt. rewrite Hlt, Hnlt. simpl.
  split; reflexivity.
Qed.

(** C5. Merging the alive candidates ("Alpha", url1, 50) and ("alpha ",
    url2, 30) into an empty registry with duplicate removal enabled gives,
    in either order, the single key [alpha] with ping 30 and url2. *)
Theorem dedup_tie_break_order_independent (cfg : config) (url1 url2 : string)
    (g1 g2 l1 l2 : string) (s1 s2 : option string) :
  remove_duplicates cfg = true ->
  forall a b : channel,
  a = {| ch_name := "Alpha"; ch_url := url1; ch_group := g1; ch_logo := l1;
         ch_source_file := s1 |} ->
  b = {| ch_name := "alpha "; ch_url := url2; ch_group := g2; ch_logo := l2;
         ch_source_file := s2 |} ->
  merge_all cfg [] [(a, Finite 50, true); (b, Finite 30, true)]
    = merge_all cfg [] [(b, Finite 30, true); (a, Finite 50, true)]
  /\ merge_all cfg [] [(a, Finite 50, true); (b, Finite 30, true)]
    = [("alpha", registry_entry b (Finite 30))]
  /\ url (registry_entry b (Finite 30)) = url2
  /\ ping (registry_entry b (Finite 30)) = Finite 30.
Proof.
  intros Hdedup a b -> ->.
  match goal with
  | |- context [merge_all cfg [] [(?a, _, _); (?b, _, _)]] =>
      destruct (merge_pair_commutes cfg a b (Finite 50) (Finite 30) Hdedup
                  eq_refl eq_refl) as [H1 H2]
  end.
  rewrite H1, H2. repeat split; reflexivity.
Qed.

Lemma dedup_tie_break_order_independent_witness :
  merge_all default_config [] [(alpha1, Finite 50, true); (alpha2, Finite 30, true)]
    = merge_all default_config [] [(alpha2, Finite 30, true); (alpha1, Finite 50, true)]
  /\ merge_all default_config [] [(alpha1, Finite 50, true); (alpha2, Finite 30, true)]
    = [("alpha", registry_entry alpha2 (Finite 30))]
  /\ url (registry_entry alpha2 (Finite 30)) = "http://two/a"
  /\ ping (registry_entry alpha2 (Finite 30)) = Finite 30.
Proof.
  exact (dedup_tie_break_order_independent default_config
           "http://one/a" "http://two/a" "Other" "Other"
           EmptyString EmptyString (Some "a.m3u") (Some "a.m3u")
           eq_refl alpha1 alpha2 eq_refl eq_refl).
Defined.

(* ================================================================== *)
(** * C9: without duplicate removal nothing is stored                  *)
(* ================================================================== *)

Lemma merge_all_noop (cfg : config) (rs : list probe_result) (db : registry) :
  remove_duplicates cfg = false -> merge_all cfg db rs = db.
Proof.
  intros Hoff. unfold merge_all. induction rs as [|[[c p] alive] rs IH];
    simpl; [reflexivity|].
  unfold update_channel_db. rewrite Hoff. now destruct alive.
Qed.

Lemma process_playlists_noop (cfg : config) (e : env) (st : state) :
  remove_duplicates cfg = false -> process_playlists cfg e st = st.
Proof.
  intros Hoff. unfold process_playlists.
  destruct (load_playlist_urls e); [reflexivity|].
  destruct (parse_all cfg _); [reflexivity|].
  rewrite merge_all_noop by assumption. now destruct st.
Qed.

(** C9. With [remove_duplicates] false, a merge leaves the registry as it
    is for every input; any number of merges keeps an empty registry empty,
    and so does any number of cycles from a fresh start. *)
Theorem merge_without_dedup_is_noop (cfg : config) :
  remove_duplicates cfg = false ->
  (forall (db : registry) (c : channel) (p : latency),
     update_channel_db cfg db c p = db) /\
  (forall (db : registry) (r : probe_result), merge cfg db r = db) /\
  (forall rs : list probe_result, merge_all cfg [] rs = []) /\
  (forall (es : list env) (on_disk : option string),
     run_cycles cfg es (initial_state on_disk) = initial_state on_disk).
Proof.
  intros Hoff. split; [|split; [|split]].
  - intros db c p. unfold update_channel_db. now rewrite Hoff.
  - intros db [[c p] [|]]; simpl; [|reflexivity].
    unfold update_channel_db. now rewrite Hoff.
  - intros rs. now apply merge_all_noop.
  - intros es on_disk. unfold run_cycles.
    induction es as [|e es IH]; simpl; [reflexivity|].
    unfold run_cycle at 2. rewrite process_playlists_noop by assumption.
    unfold generate_playlist; simpl. exact IH.
Qed.

Lemma merge_without_dedup_is_noop_witness :
  merge_all keep_duplicates_config []
    [(alpha1, Finite 50, true); (alpha2, Finite 30, true)] = [].
Proof.
  exact (proj1 (proj2 (proj2
    (merge_without_dedup_is_noop keep_duplicates_config eq_refl)))
    [(alpha1, Finite 50, true); (alpha2, Finite 30, true)]).
Defined.

(* ================================================================== *)
(** * C3: what a probe returns                                         *)
(* ================================================================== *)

Lemma alive_status_iff (s : Z) :
  alive_status s = true <-> In s [200; 301; 302; 307]%Z.
Proof.
  unfold alive_status; simpl. rewrite !orb_true_iff, !Z.eqb_eq.
  intuition congruence.
Qed.

Lemma forcelist_iff (s : Z) :
  existsb (Z.eqb s) status_forcelist = true <-> In s status_forcelist.
Proof.
  unfold status_forcelist; simpl. rewrite !orb_true_iff, !Z.eqb_eq.
  intuition congruence.
Qed.

(** C3, as the code has it. With availability checking enabled the probe
    returns alive exactly when the session returns a response with status
    200, 301, 302 or 307. It returns not alive with latency infinity when
    the call raises: on a transport failure, and on a status of the
    session's retry list (429, 500, 502, 503, 504), for which the adapter
    raises once its retries are used up. A response with any other status
    gives not alive with the measured elapsed time as latency. *)
Theorem probe_classification (cfg : config) (c : channel)
    (answer : head_result) :
  enable_availability_check cfg = true ->
  (snd (check_channel_availability cfg c (session_head answer)) = true <->
     exists status t, answer = HeadResponse status t
                      /\ In status [200; 301; 302; 307]%Z) /\
  (answer = HeadError ->
     check_channel_availability cfg c (session_head answer)
     = (c, Infinity, false)) /\
  (forall status t, answer = HeadResponse status t ->
     In status status_forcelist ->
     check_channel_availability cfg c (session_head answer)
     = (c, Infinity, false)) /\
  (forall status t, answer = HeadResponse status t ->
     ~ In status [200; 301; 302; 307]%Z ->
     ~ In status status_forcelist ->
     check_channel_availability cfg c (session_head answer)
     = (c, Finite t, false)).
Proof.
  intros Hon. unfold check_channel_availability. rewrite Hon; cbn [negb].
  split; [|split; [|split]].
  - destruct answer as [s t|]; cbn [session_head].
    + destruct (existsb (Z.eqb s) status_forcelist) eqn:E; cbn [snd].
      * split; [discriminate|]. intros (s' & t' & Heq & Hin).
        injection Heq as <- <-. apply forcelist_iff in E.
        unfold status_forcelist in E. simpl in E, Hin.
        repeat destruct E as [E|E]; repeat destruct Hin as [Hin|Hin];
          try contradiction; subst; discriminate.
      * rewrite alive_status_iff. split.
        -- intros H. now exists s, t.
        -- intros (s' & t' & Heq & Hin). now injection Heq as -> ->.
    + split; [discriminate|]. intros (s' & t' & Heq & _). discriminate.
  - intros ->. reflexivity.
  - intros s t -> Hin. cbn [session_head].
    now rewrite (proj2 (forcelist_iff s) Hin).
  - intros s t -> Hnot Hnf. cbn [session_head].
    destruct (existsb (Z.eqb s) status_forcelist) eqn:E;
      [now apply forcelist_iff in E|].
    f_equal. destruct (alive_status s) eqn:E'; [|reflexivity].
    now apply alive_status_iff in E'.
Qed.

(** A 503 from a server that keeps answering so is reported like a
    transport failure. *)
Lemma probe_classification_witness :
  check_channel_availability default_config alpha1
    (session_head (HeadResponse 503 120))
  = (alpha1, Infinity, false)
  /\ check_channel_availability default_config alpha1 (session_head HeadError)
     = (alpha1, Infinity, false)
  /\ check_channel_availability default_config alpha1
       (session_head (HeadResponse 404 120))
     = (alpha1, Finite 120, false).
Proof.
  split; [|split].
  - refine (proj1 (proj2 (proj2
      (probe_classification default_config alpha1 (HeadResponse 503 120)
         eq_refl))) 503%Z 120%Z eq_refl _).
    simpl. tauto.
  - exact (proj1 (proj2
      (probe_classification default_config alpha1 HeadError eq_refl)) eq_refl).
  - refine (proj2 (proj2 (proj2
      (probe_classification default_config alpha1 (HeadResponse 404 120)
         eq_refl))) 404%Z 120%Z eq_refl _ _);
      simpl; intros H; repeat destruct H as [H|H]; try discriminate H;
      exact H.
Defined.

(** C3 as stated fails: a 404 answered after 120 ms is returned by the
    session (404 is not on its retry list); the probe reports it not alive,
    and its latency is the 120 ms, not infinity. *)
Lemma probe_other_status_latency_counterexample :
  ~ (forall (cfg : config) (c : channel) (answer : head_result),
       enable_availability_check cfg = true ->
       (snd (check_channel_availability cfg c (session_head answer)) = true <->
          exists status t, answer = HeadResponse status t
                           /\ In status [200; 301; 302; 307]%Z) /\
       (snd (check_channel_availability cfg c (session_head answer)) = false ->
          snd (fst (check_channel_availability cfg c (session_head answer)))
          = Infinity)).
Proof.
  intros H.
  destruct (H default_config alpha1 (HeadResponse 404 120) eq_refl) as [_ Hinf].
  specialize (Hinf eq_refl). discriminate Hinf.
Qed.

(* ================================================================== *)
(** * C10: the sort and its fallback                                   *)
(* ================================================================== *)

Section Sorting.
Context {K : Type} (ltb : K -> K -> bool) (key : entry -> K).

Lemma insert_by_perm (x : entry) (l : list entry) :
  Permutation (insert_by ltb key x l) (x :: l).
Proof.
  induction l as [|y l IH]; simpl; [reflexivity|].
  destruct (ltb (key y) (key x)); [|reflexivity].
  rewrite IH. apply perm_swap.
Qed.

Lemma sorted_by_perm (l : list entry) : Permutation (sorted_by ltb key l) l.
Proof.
  unfold sorted_by. induction l as [|x l IH]; simpl; [reflexivity|].
  rewrite insert_by_perm. now constructor.
Qed.
End Sorting.

Lemma ping_ascending_insert (x : entry) (l : list entry) :
  ping_ascending l -> ping_ascending (insert_by lat_ltb ping x l).
Proof.
  induction l as [|y l IH]; simpl.
  - intros _. split; [intros d []|exact I].
  - intros [Hy Hl]. destruct (lat_ltb (ping y) (ping x)) eqn:E; simpl.
    + split; [|now apply IH].
      intros d Hd.
      apply (Permutation_in _ (insert_by_perm lat_ltb ping x l)) in Hd.
      destruct Hd as [<-|Hd]; [|now apply Hy].
      destruct (lat_ltb (ping x) (ping y)) eqn:E'; [|reflexivity].
      now elim (lat_lt_asym _ _ E).
    + split; [|split; assumption].
      intros d [<-|Hd]; [assumption|].
      specialize (Hy d Hd).
      destruct (lat_ltb (ping d) (ping x)) eqn:E'; [|reflexivity].
      destruct (ping d) as [a|], (ping x) as [b|], (ping y) as [c|];
        simpl in *; try discriminate.
      apply Z.ltb_lt in E'. apply Z.ltb_ge in E, Hy. lia.
Qed.

Lemma sorted_by_ping_ascending (l : list entry) :
  ping_ascending (sorted_by lat_ltb ping l).
Proof.
  unfold sorted_by. induction l as [|x l IH]; simpl; [exact I|].
  now apply ping_ascending_insert.
Qed.

(** C10. For every value of [sorting] other than [ping], [name] and
    [group], [sort_channels] gives what it gives for [ping]: the channels
    in ascending order of ping. *)
Theorem sort_unrecognized_method_is_ping (cfg cfg_ping : config)
    (channels : list entry) :
  sorting cfg <> "ping" -> sorting cfg <> "name" -> sorting cfg <> "group" ->
  sorting cfg_ping = "ping" ->
  sort_channels cfg channels = sort_channels cfg_ping channels
  /\ Permutation (sort_channels cfg channels) channels
  /\ ping_ascending (sort_channels cfg channels).
Proof.
  intros H1 H2 H3 Hp. unfold sort_channels, sort_by_method.
  apply String.eqb_neq in H1, H2, H3. rewrite H1, H2, H3, Hp. simpl.
  split; [reflexivity|]. split.
  - apply sorted_by_perm.
  - apply sorted_by_ping_ascending.
Qed.

Lemma sort_unrecognized_method_is_ping_witness :
  sort_channels unsorted_config
    [registry_entry alpha1 (Finite 50); registry_entry alpha2 (Finite 30)]
  = sort_channels default_config
    [registry_entry alpha1 (Finite 50); registry_entry alpha2 (Finite 30)].
Proof.
  refine (proj1 (sort_unrecognized_method_is_ping unsorted_config
                   default_config _ _ _ _ eq_refl)); discriminate.
Defined.

(* ================================================================== *)
(** * C6: list lines wrapped in markup                                 *)
(* ================================================================== *)

(** The lazy [.*?] of the script pattern walks over a body without [<] and
    stops at the closing tag that follows it. *)
Lemma lazy_star_finds_close {R : Type} (js t : string) (i : nat)
    (cap : option string) (k : nat -> string -> option string -> option R) :
  has_char "<"%char js = false ->
  k (i + String.length js + 9) t cap <> None ->
  rmatch (Cat (LazyStar any_char) (Lit "</script>")) i
         (js +++ "</script>" +++ t) cap k
  = k (i + String.length js + 9) t cap.
Proof.
  revert i. induction js as [|c js IH]; intros i Hno Hk.
  - simpl in *. replace (i + 0 + 9) with (i + 9) in * by lia.
    destruct (k (i + 9) t cap); [reflexivity|now elim Hk].
  - simpl in Hno. apply orb_false_iff in Hno as [Hc Hjs].
    specialize (IH (S i) Hjs).
    replace (S i + String.length js + 9)
      with (i + String.length (String c js) + 9) in IH by (simpl; lia).
    specialize (IH Hk). simpl in IH |- *. rewrite Hc. simpl. exact IH.
Qed.

Lemma match_script_block (i : nat) (js t : string) :
  has_char "<"%char js = false ->
  match_at (block_pattern "script") i ("<script>" +++ js +++ "</script>" +++ t)
  = Some (i + 17 + String.length js, None).
Proof.
  intros Hno. unfold match_at, block_pattern.
  remember (Cat (LazyStar any_char) (Lit ("</" +++ "script" +++ ">"))) as close.
  simpl. subst close.
  transitivity (Some (i + 7 + 1 + String.length js + 9, @None string)).
  - refine (lazy_star_finds_close js t (i + 7 + 1) None _ Hno _). discriminate.
  - f_equal. f_equal. lia.
Qed.

(** Dropping the rest of a match. *)
Lemma sub_from_skip (r : regex) (u v : string) (n i : nat) :
  sub_from r (String.length u + n) i (u +++ v)
  = match v with
    | EmptyString => EmptyString
    | _ => sub_from r n (i + String.length u) v
    end.
Proof.
  revert i. induction u as [|c u IH]; intros i; simpl.
  - rewrite Nat.add_0_r. destruct v; reflexivity.
  - rewrite IH. replace (S i + String.length u) with (i + S (String.length u)) by lia.
    reflexivity.
Qed.

Lemma sub_from_match (r : regex) (i j : nat) (c : ascii) (s : string)
    (cap : option string) :
  match_at r i (String c s) = Some (j, cap) -> i < j ->
  sub_from r 0 i (String c s) = sub_from r (j - i - 1) (S i) s.
Proof.
  intros Hm Hlt. simpl. rewrite Hm.
  apply Nat.ltb_lt in Hlt. now rewrite Hlt.
Qed.

Lemma append_assoc (a b c : string) : (a +++ b) +++ c = a +++ b +++ c.
Proof. induction a as [|x a IH]; simpl; [reflexivity|now rewrite IH]. Qed.

Lemma length_append (a b : string) :
  String.length (a +++ b) = String.length a + String.length b.
Proof. induction a as [|x a IH]; simpl; [reflexivity|now rewrite IH]. Qed.

(** The first substitution of [clean_html_content] removes the script
    block, body included. *)
Lemma script_block_removed (js : string) :
  has_char "<"%char js = false ->
  re_sub_empty (block_pattern "script") (wrapped_document js)
  = "<html><body>"
    +++ "#EXTM3U" +++ nl +++ "#EXTINF:-1,Test" +++ nl +++ "http://x/y"
    +++ "</body></html>".
Proof.
  intros Hno. unfold re_sub_empty, wrapped_document.
  remember ("#EXTM3U" +++ nl +++ "#EXTINF:-1,Test" +++ nl +++ "http://x/y"
            +++ "</body></html>") as rest eqn:Hrest.
  assert (Hblock :
    sub_from (block_pattern "script") 0 12
             ("<script>" +++ js +++ "</script>" +++ rest)
    = sub_from (block_pattern "script") 0 (29 + String.length js) rest).
  { change ("<script>" +++ js +++ "</script>" +++ rest)
      with (String "<"%char ("script>" +++ js +++ "</script>" +++ rest)).
    erewrite sub_from_match;
      [ | apply (match_script_block 12 js rest Hno) | lia ].
    replace (12 + 17 + String.length js - 12 - 1)
      with (String.length ("script>" +++ js +++ "</script>") + 0)
      by (rewrite !length_append; simpl; lia).
    change (String.append "script>" (js +++ "</script>" +++ rest))
      with ("script>" +++ js +++ "</script>" +++ rest).
    rewrite <- (append_assoc js "</script>" rest).
    rewrite <- (append_assoc "script>" (js +++ "</script>") rest).
    rewrite sub_from_skip. rewrite Hrest at 1. simpl.
    f_equal. rewrite !length_append. simpl. lia. }
  set (tail := "<script>" +++ js +++ "</script>" +++ rest) in *.
  change ("<html><body><script>" +++ js +++ "</script>" +++ rest)
    with ("<html><body>" +++ tail).
  clearbody tail. simpl. rewrite Hblock. subst rest. reflexivity.
Qed.

Lemma wrapped_document_is_markup (js : string) :
  startswith "#EXTM3U" (strip (wrapped_document js))
  || startswith "#EXTINF:" (strip (wrapped_document js)) = false.
Proof. reflexivity. Qed.

(** C6. For the document that wraps the lines [#EXTM3U], [#EXTINF:-1,Test]
    and [http://x/y] in [<html><body><script>..</script>..</body></html>],
    whatever the script body (without [<]), [clean_html_content] returns
    exactly these three lines, in this order: the script block and all tags
    are gone. *)
Theorem markup_extraction_recovers_lines (js : string) :
  has_char "<"%char js = false ->
  clean_html_content (wrapped_document js)
    = "#EXTM3U" +++ nl +++ "#EXTINF:-1,Test" +++ nl +++ "http://x/y"
  /\ split_lines (clean_html_content (wrapped_document js))
    = ["#EXTM3U"; "#EXTINF:-1,Test"; "http://x/y"].
Proof.
  intros Hno.
  assert (H : clean_html_content (wrapped_document js)
              = "#EXTM3U" +++ nl +++ "#EXTINF:-1,Test" +++ nl +++ "http://x/y").
  { unfold clean_html_content.
    rewrite wrapped_document_is_markup, script_block_removed by assumption.
    vm_compute. reflexivity. }
  rewrite H. split; reflexivity.
Qed.

Lemma markup_extraction_recovers_lines_witness :
  split_lines (clean_html_content (wrapped_document "var live = true;"))
    = ["#EXTM3U"; "#EXTINF:-1,Test"; "http://x/y"].
Proof.
  exact (proj2 (markup_extraction_recovers_lines "var live = true;" eq_refl)).
Defined.

(* ================================================================== *)
(** * C7: when a cycle writes the output file                          *)
(* ================================================================== *)

Lemma registry_le_nil (db : registry) : registry_le db [] -> db = [].
Proof.
  destruct db as [|[k e] db]; [reflexivity|]. intros H.
  destruct (H k e) as [e' [He' _]]; [simpl; now rewrite String.eqb_refl|].
  discriminate.
Qed.

Lemma process_playlists_output (cfg : config) (e : env) (st : state) :
  output_file (process_playlists cfg e st) = output_file st
  /\ output_writes (process_playlists cfg e st) = output_writes st.
Proof.
  unfold process_playlists.
  destruct (load_playlist_urls e); [now split|].
  destruct (parse_all cfg _); now split.
Qed.

(** C7, as the code has it. A cycle whose render step finds the registry
    empty changes nothing: the output file is not written. An empty source
    list ends only the processing step early; the registry is left as it
    was, and the render step still writes the output file from it whenever
    it holds a channel. *)
Theorem cycle_writes_unless_registry_empty (cfg : config) (e : env)
    (st : state) :
  (channels_db (process_playlists cfg e st) = [] -> run_cycle cfg e st = st) /\
  (load_playlist_urls e = [] ->
     process_playlists cfg e st = st
     /\ channels_db (run_cycle cfg e st) = channels_db st
     /\ (channels_db st = [] -> run_cycle cfg e st = st)
     /\ (channels_db st <> [] ->
           output_writes (run_cycle cfg e st) = S (output_writes st)
           /\ output_file (run_cycle cfg e st)
              = Some (playlist_text (generated e)
                        (average_text e (sort_channels cfg (db_values (channels_db st))))
                        (sort_channels cfg (db_values (channels_db st)))))).
Proof.
  split.
  - intros Hempty. unfold run_cycle, generate_playlist. rewrite Hempty.
    pose proof (process_playlists_le cfg e st) as Hle. rewrite Hempty in Hle.
    apply registry_le_nil in Hle.
    destruct (process_playlists_output cfg e st) as [Hf Hw].
    destruct (process_playlists cfg e st) as [db' f' w'], st as [db f w].
    simpl in *. congruence.
  - intros Hurls.
    assert (Hp : process_playlists cfg e st = st).
    { unfold process_playlists. now rewrite Hurls. }
    unfold run_cycle. rewrite Hp, generate_playlist_db.
    split; [reflexivity|]. split; [reflexivity|]. split.
    + intros Hdb. unfold generate_playlist. now rewrite Hdb.
    + intros Hdb. unfold generate_playlist.
      destruct (channels_db st) eqn:E; [now elim Hdb|]. split; reflexivity.
Qed.

Lemma cycle_writes_unless_registry_empty_witness :
  run_cycle default_config no_sources_env (initial_state (Some "#EXTM3U"))
  = initial_state (Some "#EXTM3U").
Proof.
  exact (proj1 (cycle_writes_unless_registry_empty default_config
                  no_sources_env (initial_state (Some "#EXTM3U"))) eq_refl).
Defined.

(** C7 as stated fails. The first cycle fills the registry and writes the
    output file; in the second cycle the source list is empty, and the
    output file is written again. *)
Lemma empty_source_list_rewrites_output_counterexample :
  load_playlist_urls no_sources_env = []
  /\ output_writes (run_cycles default_config [serving_env] (initial_state None)) = 1
  /\ output_writes
       (run_cycle default_config no_sources_env
          (run_cycles default_config [serving_env] (initial_state None))) = 2
  /\ output_file
       (run_cycle default_config no_sources_env
          (run_cycles default_config [serving_env] (initial_state None)))
     <> output_file (run_cycles default_config [serving_env] (initial_state None)).
Proof.
  split; [reflexivity|]. split; [vm_compute; reflexivity|].
  split; [vm_compute; reflexivity|]. vm_compute. discriminate.
Qed.

(* ================================================================== *)
(** * C8: group markers and the blank lines before them                *)
(* ================================================================== *)

Lemma render_channels_named_groups (g : string) (cs : list entry) :
  g <> EmptyString ->
  Forall (fun c => group c <> EmptyString) cs ->
  render_channels g cs = render_channels_spec (Some g) false cs.
Proof.
  intros Hg Hcs. revert g Hg.
  induction Hcs as [|c cs Hc _ IH]; intros g Hg; simpl; [reflexivity|].
  apply String.eqb_neq in Hg. rewrite Hg. simpl.
  rewrite (IH (group c) Hc). reflexivity.
Qed.

(** When every channel has a group name, the loop of [generate_playlist]
    writes the layout of the specification. *)
Lemma render_channels_layout (cs : list entry) :
  Forall (fun c => group c <> EmptyString) cs ->
  render_channels EmptyString cs = render_channels_spec None true cs.
Proof.
  intros Hcs. destruct Hcs as [|c cs Hc Hcs]; simpl; [reflexivity|].
  apply String.eqb_neq in Hc. rewrite Hc. simpl.
  apply String.eqb_neq in Hc.
  rewrite (render_channels_named_groups (group c) cs Hc Hcs). reflexivity.
Qed.

(** C8 at the failing input. A source whose second entry has a blank group
    title puts a channel with the empty group into the registry; sorted by
    ping it stands between the groups News and Sport, and the marker of
    Sport follows the URL line of that channel with no blank line between
    them. The loop takes the empty [current_group] for the state before the
    first marker. *)
Theorem group_marker_without_blank_line :
  db_values (channels_db (run_cycle default_config serving_env (initial_state None)))
    = three_groups
  /\ sort_channels default_config three_groups = three_groups
  /\ split_lines (render_channels EmptyString three_groups)
     = ["#GROUP: News"; extinf_line (channel_in "One" "http://a/1" "News" 10);
        "http://a/1";
        EmptyString;
        "#GROUP: "; extinf_line (channel_in "Two" "http://b/2" EmptyString 20);
        "http://b/2";
        "#GROUP: Sport"; extinf_line (channel_in "Three" "http://c/3" "Sport" 30);
        "http://c/3";
        EmptyString]
  /\ split_lines (render_channels_spec None true three_groups)
     = ["#GROUP: News"; extinf_line (channel_in "One" "http://a/1" "News" 10);
        "http://a/1";
        EmptyString;
        "#GROUP: "; extinf_line (channel_in "Two" "http://b/2" EmptyString 20);
        "http://b/2";
        EmptyString;
        "#GROUP: Sport"; extinf_line (channel_in "Three" "http://c/3" "Sport" 30);
        "http://c/3";
        EmptyString].
Proof.
  repeat split; vm_compute; reflexivity.
Qed.

(* ================================================================== *)
(** * Lines of text                                                    *)
(* ================================================================== *)

Lemma has_char_append (c : ascii) (a b : string) :
  has_char c (a +++ b) = has_char c a || has_char c b.
Proof.
  induction a as [|x a IH]; simpl; [reflexivity|].
  now rewrite IH, orb_assoc.
Qed.

Lemma split_lines_line (a b : string) :
  has_char LF a = false ->
  split_lines (a +++ String LF b) = a :: split_lines b.
Proof.
  induction a as [|x a IH]; cbn [has_char String.append split_lines]; intros H.
  - now rewrite Ascii.eqb_refl.
  - apply orb_false_iff in H as [Hx Ha]. rewrite Ascii.eqb_sym in Hx.
    rewrite Hx, (IH Ha). reflexivity.
Qed.

Lemma stripped_lines_unlines (ls : list string) :
  Forall (fun l => has_char LF l = false) ls ->
  stripped_lines (unlines ls)
  = filter (fun l => negb (is_empty l)) (map strip ls).
Proof.
  unfold stripped_lines. induction 1 as [|l ls Hl _ IH]; simpl.
  - reflexivity.
  - unfold nl. change (String LF EmptyString +++ unlines ls)
      with (String LF (unlines ls)).
    rewrite split_lines_line by assumption. simpl. now rewrite IH.
Qed.

Lemma universal_newlines_id (s : string) :
  has_char CR s = false -> universal_newlines s = s.
Proof.
  induction s as [|c s IH]; cbn [has_char universal_newlines]; intros H;
    [reflexivity|].
  apply orb_false_iff in H as [Hc Hs]. rewrite Ascii.eqb_sym in Hc.
  rewrite Hc, (IH Hs). reflexivity.
Qed.

Lemma unlines_app (a b : list string) :
  unlines (a ++ b) = unlines a +++ unlines b.
Proof.
  induction a as [|l a IH]; simpl; [reflexivity|].
  now rewrite IH, !append_assoc.
Qed.

Lemma render_channels_unlines (g : string) (cs : list entry) :
  render_channels g cs = unlines (channel_lines g cs).
Proof.
  revert g. induction cs as [|c cs IH]; intros g; simpl; [reflexivity|].
  rewrite IH. unfold extinf_text.
  destruct (negb (String.eqb (group c) g)); simpl.
  - destruct (negb (String.eqb g EmptyString)); simpl;
      now rewrite !append_assoc.
  - now rewrite !append_assoc.
Qed.

Lemma playlist_text_unlines (generated average : string) (cs : list entry) :
  playlist_text generated average cs
  = unlines (header_lines generated average (List.length cs)
             ++ channel_lines EmptyString cs).
Proof.
  unfold playlist_text, header_lines. rewrite render_channels_unlines.
  rewrite unlines_app. cbn [unlines]. rewrite !append_assoc. reflexivity.
Qed.

(* ================================================================== *)
(** * Stripping                                                        *)
(* ================================================================== *)

Lemma lstrip_head (c : ascii) (s : string) :
  isspace c = false -> lstrip (String c s) = String c s.
Proof. intros H. cbn [lstrip]. now rewrite H. Qed.

Lemma rstrip_head (c : ascii) (s : string) :
  isspace c = false -> rstrip (String c s) = String c (rstrip s).
Proof. intros H. cbn [rstrip]. now rewrite H. Qed.

Lemma strip_head (c : ascii) (s : string) :
  isspace c = false -> strip (String c s) = String c (rstrip s).
Proof. intros H. unfold strip. now rewrite lstrip_head, rstrip_head. Qed.

Lemma length_lstrip (s : string) : String.length (lstrip s) <= String.length s.
Proof.
  induction s as [|c s IH]; cbn [lstrip String.length]; [lia|].
  destruct (isspace c); cbn [String.length]; lia.
Qed.

Lemma length_rstrip (s : string) : String.length (rstrip s) <= String.length s.
Proof.
  induction s as [|c s IH]; cbn [rstrip String.length]; [lia|].
  destruct (isspace c && is_empty (rstrip s)); cbn [String.length]; lia.
Qed.

Lemma lstrip_same_length (s : string) :
  String.length (lstrip s) = String.length s -> lstrip s = s.
Proof.
  destruct s as [|c s]; cbn [lstrip String.length]; [reflexivity|].
  destruct (isspace c); [|reflexivity].
  pose proof (length_lstrip s). lia.
Qed.

(** A stripped string is closed under both halves of [strip]. *)
Lemma strip_fixed (s : string) : strip s = s -> lstrip s = s /\ rstrip s = s.
Proof.
  unfold strip. intros H.
  assert (Hl : lstrip s = s).
  { apply lstrip_same_length.
    pose proof (length_lstrip s). pose proof (length_rstrip (lstrip s)).
    rewrite H in *. lia. }
  split; [assumption|]. now rewrite Hl in H.
Qed.

Lemma is_empty_append (a b : string) :
  is_empty b = false -> is_empty (a +++ b) = false.
Proof. destruct a; simpl; auto. Qed.

Lemma rstrip_append (a b : string) :
  rstrip b = b -> is_empty b = false -> rstrip (a +++ b) = a +++ b.
Proof.
  intros Hb Hne. induction a as [|c a IH]; cbn [String.append rstrip];
    [assumption|].
  rewrite IH, (is_empty_append a b Hne), andb_false_r. reflexivity.
Qed.

(** Stripping on the right does not change how a string starts, as far as
    characters other than white space are concerned. *)
Lemma startswith_rstrip (p t : string) :
  (forall c, has_char c p = true -> isspace c = false) ->
  startswith p (rstrip t) = startswith p t.
Proof.
  revert p. induction t as [|c t IH]; intros p Hp; [reflexivity|].
  destruct p as [|a p]; [now destruct (rstrip (String c t))|].
  cbn [rstrip]. destruct (isspace c && is_empty (rstrip t)) eqn:E.
  - apply andb_true_iff in E as [Hc _]. cbn [startswith].
    destruct (Ascii.eqb a c) eqn:Hac; [|reflexivity].
    apply Ascii.eqb_eq in Hac; subst c.
    rewrite (Hp a) in Hc; [discriminate|].
    cbn [has_char]. now rewrite Ascii.eqb_refl.
  - cbn [startswith]. rewrite IH; [reflexivity|].
    intros d Hd. apply Hp. cbn [has_char]. rewrite Hd. apply orb_true_r.
Qed.

Lemma extinf_marker_no_space (c : ascii) :
  has_char c "#EXTINF:" = true -> isspace c = false.
Proof.
  cbn [has_char]. rewrite !orb_true_iff, !Ascii.eqb_eq.
  intros H; repeat destruct H as [H|H]; subst; try reflexivity; discriminate.
Qed.

(** A line that starts with a hash sign is kept by [stripped_lines], and
    stripping does not turn it into an [#EXTINF:] line. *)
Lemma strip_hash_line (s : string) :
  is_empty (strip (String "#"%char s)) = false
  /\ startswith "#EXTINF:" (strip (String "#"%char s))
     = startswith "#EXTINF:" (String "#"%char s)
  /\ startswith "#" (strip (String "#"%char s)) = true.
Proof.
  rewrite strip_head by reflexivity. split; [reflexivity|]. split.
  - rewrite <- rstrip_head by reflexivity.
    apply startswith_rstrip, extinf_marker_no_space.
  - reflexivity.
Qed.

(* ================================================================== *)
(** * Searching an attribute in an [#EXTINF] line                      *)
(* ================================================================== *)

Lemma startswith_append (a b : string) : startswith a (a +++ b) = true.
Proof.
  induction a as [|c a IH]; cbn [startswith String.append]; [reflexivity|].
  now rewrite Ascii.eqb_refl, IH.
Qed.

Lemma drop_append (a b : string) : drop (String.length a) (a +++ b) = b.
Proof. induction a as [|c a IH]; simpl; [reflexivity|assumption]. Qed.

Lemma take_append (a b : string) : take (String.length a) (a +++ b) = a.
Proof. induction a as [|c a IH]; simpl; [now destruct b|now rewrite IH]. Qed.

Lemma rmatch_cat {R : Type} (r1 r2 : regex) (i : nat) (s : string)
    (cap : option string) (k : nat -> string -> option string -> option R) :
  rmatch (Cat r1 r2) i s cap k
  = rmatch r1 i s cap (fun i' s' cap' => rmatch r2 i' s' cap' k).
Proof. reflexivity. Qed.

Lemma rmatch_lit {R : Type} (l : string) (i : nat) (s : string)
    (cap : option string) (k : nat -> string -> option string -> option R) :
  rmatch (Lit l) i s cap k
  = if startswith l s
    then k (i + String.length l) (drop (String.length l) s) cap
    else None.
Proof. reflexivity. Qed.

Lemma rmatch_group {R : Type} (r : regex) (i : nat) (s : string)
    (cap : option string) (k : nat -> string -> option string -> option R) :
  rmatch (Group r) i s cap k
  = rmatch r i s cap (fun i' s' _ => k i' s' (Some (take (i' - i) s))).
Proof. reflexivity. Qed.

Section FieldSearch.

(** The pattern of [extract_field] around its literal [lit]. *)
Variable lit : string.
Variable field_re : regex.
Hypothesis field_re_eq :
  field_re
  = Cat (Lit lit) (Cat (Group (Star not_dquote)) (Lit (String dquote EmptyString))).

Lemma match_at_field_miss (i : nat) (s : string) :
  startswith lit s = false -> match_at field_re i s = None.
Proof.
  intros H. unfold match_at. rewrite field_re_eq. cbn [rmatch]. now rewrite H.
Qed.

Lemma search_from_field_miss (i : nat) (c : ascii) (s : string) :
  startswith lit (String c s) = false ->
  search_from field_re i (String c s) = search_from field_re (S i) s.
Proof.
  intros H. cbn [search_from]. now rewrite match_at_field_miss.
Qed.

(** The greedy star over characters other than the double quote takes a
    value up to the double quote that ends it. *)
Lemma greedy_star_value {R : Type} (v t : string) (i : nat)
    (cap : option string) (k : nat -> string -> option string -> option R) :
  has_char dquote v = false ->
  k (i + String.length v) (String dquote t) cap <> None ->
  rmatch (Star not_dquote) i (v +++ String dquote t) cap k
  = k (i + String.length v) (String dquote t) cap.
Proof.
  revert i. induction v as [|c v IH]; intros i Hv Hk.
  - cbn [String.append String.length rmatch] in *.
    unfold not_dquote at 1. rewrite Ascii.eqb_refl. cbn [negb].
    now rewrite Nat.add_0_r in *.
  - cbn [has_char] in Hv. apply orb_false_iff in Hv as [Hc Hv].
    specialize (IH (S i) Hv).
    replace (S i + String.length v)
      with (i + String.length (String c v)) in IH by (simpl; lia).
    specialize (IH Hk). cbn [String.append rmatch] in IH |- *.
    unfold not_dquote at 1. rewrite Ascii.eqb_sym, Hc. cbn [negb].
    rewrite IH.
    destruct (k (i + String.length (String c v)) (String dquote t) cap);
      [reflexivity|now elim Hk].
Qed.

Lemma match_at_field_hit (v t : string) (i : nat) :
  has_char dquote v = false ->
  match_at field_re i (lit +++ v +++ String dquote t)
  = Some (i + String.length lit + String.length v + 1, Some v).
Proof.
  intros Hv. unfold match_at. rewrite field_re_eq.
  rewrite rmatch_cat, rmatch_lit, startswith_append, drop_append.
  rewrite rmatch_cat, rmatch_group.
  rewrite greedy_star_value by
    (try assumption; rewrite rmatch_lit; cbn [startswith];
     rewrite Ascii.eqb_refl; discriminate).
  rewrite rmatch_lit.
  cbn [startswith]. rewrite Ascii.eqb_refl. cbn [andb String.length drop].
  replace (i + String.length lit + String.length v - (i + String.length lit))
    with (String.length v) by lia.
  now rewrite take_append.
Qed.

Lemma search_from_field_hit (v t : string) (i : nat) :
  has_char dquote v = false ->
  capture_of (search_from field_re i (lit +++ v +++ String dquote t)) = v.
Proof.
  intros Hv.
  assert (H : search_from field_re i (lit +++ v +++ String dquote t)
              = Some (i + String.length lit + String.length v + 1, Some v)).
  { destruct (lit +++ v +++ String dquote t) eqn:E;
      cbn [search_from]; rewrite <- E, match_at_field_hit by assumption;
      reflexivity. }
  now rewrite H.
Qed.

End FieldSearch.

(** An attribute opener [body] followed by a double quote starts a quoted
    value only where the value begins with [body] itself. *)
Lemma startswith_opener (body u t : string) :
  has_char dquote body = false -> has_char dquote u = false ->
  startswith (body +++ String dquote EmptyString) (u +++ String dquote t)
  = String.eqb body u.
Proof.
  revert u. induction body as [|b body IH]; intros u Hb Hu.
  - destruct u as [|c u]; cbn [String.append startswith String.eqb].
    + now rewrite Ascii.eqb_refl.
    + cbn [has_char] in Hu. apply orb_false_iff in Hu as [Hc _].
      now rewrite Hc.
  - cbn [has_char] in Hb. apply orb_false_iff in Hb as [Hb Hbody].
    destruct u as [|c u]; cbn [String.append startswith String.eqb].
    + rewrite Ascii.eqb_sym, Hb. reflexivity.
    + cbn [has_char] in Hu. apply orb_false_iff in Hu as [_ Hu].
      rewrite (IH u Hbody Hu). now destruct (Ascii.eqb b c).
Qed.

(** The search passes over a quoted value that holds no double quote and
    does not end in the opener. *)
Lemma search_from_skip_value (body : string) (r : regex) (v t : string)
    (i : nat) :
  r = Cat (Lit (body +++ String dquote EmptyString))
          (Cat (Group (Star not_dquote)) (Lit (String dquote EmptyString))) ->
  has_char dquote body = false -> has_char dquote v = false ->
  endswith body v = false ->
  search_from r i (v +++ String dquote t)
  = search_from r (i + String.length v) (String dquote t).
Proof.
  intros Hr Hb. revert i. induction v as [|c v IH]; intros i Hv He.
  - cbn [String.append String.length]. now rewrite Nat.add_0_r.
  - cbn [endswith] in He. apply orb_false_iff in He as [He1 He2].
    cbn [String.append].
    rewrite (search_from_field_miss _ r Hr).
    + cbn [has_char] in Hv. apply orb_false_iff in Hv as [_ Hv'].
      rewrite (IH (S i) Hv' He2). f_equal. simpl. lia.
    + change (String c (v +++ String dquote t))
        with (String c v +++ String dquote t).
      now rewrite startswith_opener.
Qed.

(** The [#EXTINF] line, one attribute inside the other. *)
Lemma extinf_line_shape (c : entry) :
  extinf_line c
  = "#EXTINF:-1 tvg-id=" +++ String dquote (name c +++ String dquote
      (" tvg-name=" +++ String dquote (name c +++ String dquote
        (" tvg-logo=" +++ String dquote (logo c +++ String dquote
          (" group-title=" +++ String dquote (group c +++ String dquote
            ("," +++ name c)))))))).
Proof.
  unfold extinf_line, quoted. cbn [String.append].
  rewrite !append_assoc. reflexivity.
Qed.

Ltac skip_literal_misses Hr :=
  repeat (rewrite (search_from_field_miss _ _ Hr) by reflexivity).

Ltac skip_quoted_value body Hr :=
  rewrite (search_from_skip_value body _ _ _ _ Hr)
    by (assumption || reflexivity);
  cbn [String.append]; skip_literal_misses Hr.

Lemma extract_field_capture (extinf field : string) :
  extract_field extinf field
  = capture_of (re_search (field_pattern field) extinf).
Proof. reflexivity. Qed.

Lemma extract_tvg_name (c : entry) :
  has_char dquote (name c) = false ->
  endswith "tvg-name=" (name c) = false ->
  extract_field (extinf_line c) "tvg-name" = name c.
Proof.
  intros Hq He. rewrite extract_field_capture, extinf_line_shape.
  unfold re_search, field_pattern.
  change ("tvg-name" +++ "=" +++ String dquote EmptyString)
    with ("tvg-name=" +++ String dquote EmptyString).
  remember (Cat (Lit ("tvg-name=" +++ String dquote EmptyString)) _) as r eqn:Hr.
  cbn [String.append]. skip_literal_misses Hr.
  skip_quoted_value "tvg-name=" Hr.
  match goal with
  | |- capture_of (search_from _ ?i (String "t" ?s)) = _ =>
      lazymatch s with
      | context [String dquote (name c +++ String dquote ?t)] =>
          exact (search_from_field_hit
                   ("tvg-name=" +++ String dquote EmptyString) r Hr
                   (name c) t i Hq)
      end
  end.
Qed.

Lemma extract_group_title (c : entry) :
  has_char dquote (name c) = false ->
  has_char dquote (logo c) = false ->
  has_char dquote (group c) = false ->
  endswith "group-title=" (name c) = false ->
  endswith "group-title=" (logo c) = false ->
  extract_field (extinf_line c) "group-title" = group c.
Proof.
  intros Hn Hl Hg En El. rewrite extract_field_capture, extinf_line_shape.
  unfold re_search, field_pattern.
  change ("group-title" +++ "=" +++ String dquote EmptyString)
    with ("group-title=" +++ String dquote EmptyString).
  remember (Cat (Lit ("group-title=" +++ String dquote EmptyString)) _)
    as r eqn:Hr.
  cbn [String.append]. skip_literal_misses Hr.
  skip_quoted_value "group-title=" Hr.
  skip_quoted_value "group-title=" Hr.
  skip_quoted_value "group-title=" Hr.
  match goal with
  | |- capture_of (search_from _ ?i (String "g" ?s)) = _ =>
      lazymatch s with
      | context [String dquote (group c +++ String dquote ?t)] =>
          exact (search_from_field_hit
                   ("group-title=" +++ String dquote EmptyString) r Hr
                   (group c) t i Hg)
      end
  end.
Qed.

(* ================================================================== *)
(** * What the parser makes of the rendered lines                      *)
(* ================================================================== *)

Lemma strip_extinf_line (c : entry) :
  rstrip (name c) = name c -> is_empty (name c) = false ->
  strip (extinf_line c) = extinf_line c.
Proof.
  intros Hr Hne. transitivity (rstrip (extinf_line c)).
  - unfold extinf_line. cbn [String.append].
    rewrite strip_head by reflexivity. now rewrite <- rstrip_head by reflexivity.
  - unfold extinf_line. rewrite <- !append_assoc. now apply rstrip_append.
Qed.

Lemma scheme_not_comment (u : string) :
  has_stream_scheme u = true ->
  is_empty u = false /\ startswith "#" u = false.
Proof.
  destruct u as [|a u]; [discriminate|]. intros H. split; [reflexivity|].
  cbn [startswith]. destruct (Ascii.eqb_spec "#"%char a) as [<-|]; [|reflexivity].
  discriminate H.
Qed.

Lemma parse_lines_skip (cfg : config) (src : string) (n : nat) (l : string)
    (ls : list string) :
  is_empty (strip l) = true \/ startswith "#EXTINF:" (strip l) = false ->
  parse_lines cfg src None n
    (filter (fun l => negb (is_empty l)) (map strip (l :: ls)))
  = parse_lines cfg src None n
      (filter (fun l => negb (is_empty l)) (map strip ls)).
Proof.
  intros H. cbn [map filter].
  destruct (is_empty (strip l)) eqn:E; cbn [negb]; [reflexivity|].
  destruct H as [H|H]; [discriminate|].
  cbn [parse_lines]. now rewrite H.
Qed.

Lemma parse_lines_skip_hash (cfg : config) (src : string) (n : nat)
    (s : string) (ls : list string) :
  startswith "#EXTINF:" (String "#"%char s) = false ->
  parse_lines cfg src None n
    (filter (fun l => negb (is_empty l)) (map strip (String "#"%char s :: ls)))
  = parse_lines cfg src None n
      (filter (fun l => negb (is_empty l)) (map strip ls)).
Proof.
  intros H. apply parse_lines_skip. right.
  destruct (strip_hash_line s) as (_ & -> & _). exact H.
Qed.

Lemma parse_lines_channel (cfg : config) (src : string) (n : nat)
    (extinf u : string) (ls : list string) :
  strip extinf = extinf -> startswith "#EXTINF:" extinf = true ->
  strip u = u -> has_stream_scheme u = true ->
  parse_lines cfg src None n
    (filter (fun l => negb (is_empty l)) (map strip (extinf :: u :: ls)))
  = make_channel cfg src n extinf u
    :: parse_lines cfg src None (S n)
         (filter (fun l => negb (is_empty l)) (map strip ls)).
Proof.
  intros He Hs Hu Hsch. cbn [map filter]. rewrite He, Hu.
  destruct (scheme_not_comment u Hsch) as [Hne Hnc].
  assert (Hee : is_empty extinf = false) by (now destruct extinf).
  rewrite Hee, Hne. cbn [negb parse_lines].
  now rewrite Hs, Hne, Hnc, Hsch.
Qed.

(** What [reads_back] says, fact by fact. *)
Lemma reads_back_facts (cfg : config) (c : entry) :
  reads_back cfg c = true ->
  (forall x, x = LF \/ x = CR \/ x = dquote -> has_char x (name c) = false)
  /\ (forall x, x = LF \/ x = CR \/ x = dquote -> has_char x (logo c) = false)
  /\ (forall x, x = LF \/ x = CR \/ x = dquote -> has_char x (group c) = false)
  /\ (forall x, x = LF \/ x = CR -> has_char x (url c) = false)
  /\ strip (name c) = name c /\ is_empty (name c) = false
  /\ (min_channel_name_length cfg <= Z.of_nat (String.length (name c)))%Z
  /\ endswith "tvg-name=" (name c) = false
  /\ endswith "group-title=" (name c) = false
  /\ endswith "group-title=" (logo c) = false
  /\ strip (group c) = group c /\ is_empty (group c) = false
  /\ strip (url c) = url c /\ has_stream_scheme (url c) = true.
Proof.
  unfold reads_back, plain_value, trimmed. intros H.
  repeat match goal with
         | H : _ && _ = true |- _ => apply andb_true_iff in H as [? ?]
         | H : negb _ = true |- _ => apply negb_true_iff in H
         | H : String.eqb _ _ = true |- _ => apply String.eqb_eq in H
         | H : (_ <=? _)%Z = true |- _ => apply Z.leb_le in H
         end.
  repeat split; try assumption;
    intros x Hx; repeat destruct Hx as [Hx|Hx]; subst x; assumption.
Qed.

Lemma make_channel_reads_back (cfg : config) (src : string) (n : nat)
    (c : entry) :
  reads_back cfg c = true ->
  triple_of_channel (make_channel cfg src n (extinf_line c) (url c))
  = triple_of_entry c.
Proof.
  intros H. destruct (reads_back_facts cfg c H)
    as (Hn & Hl & Hg & _ & Hsn & Hnn & Hmin & En1 & En2 & El & Hsg & Hng & Hsu & _).
  unfold make_channel, triple_of_channel, triple_of_entry. cbn [ch_name ch_url ch_group].
  rewrite extract_tvg_name by auto.
  rewrite extract_group_title by auto.
  unfold str_or. rewrite Hnn, Hng, Hnn, Hsn. cbn [orb].
  apply Z.ltb_ge in Hmin. rewrite Hmin, Hsn, Hsu, Hsg. reflexivity.
Qed.

Lemma parse_channel_lines (cfg : config) (src : string) (cs : list entry) :
  Forall (fun c => reads_back cfg c = true) cs ->
  forall (g : string) (n : nat),
  map triple_of_channel
      (parse_lines cfg src None n
         (filter (fun l => negb (is_empty l)) (map strip (channel_lines g cs))))
  = map triple_of_entry cs.
Proof.
  induction 1 as [|c cs Hc _ IH]; intros g n; [reflexivity|].
  destruct (reads_back_facts cfg c Hc)
    as (_ & _ & _ & _ & Hsn & Hnn & _ & _ & _ & _ & _ & _ & Hsu & Hsch).
  assert (Hchannel : forall ls,
    ls = channel_lines (group c) cs ->
    map triple_of_channel
      (parse_lines cfg src None n
         (filter (fun l => negb (is_empty l))
                 (map strip (extinf_line c :: url c :: ls))))
    = map triple_of_entry (c :: cs)).
  { intros ls ->. rewrite parse_lines_channel;
      [ | apply strip_extinf_line; [apply (strip_fixed _ Hsn)|assumption]
        | reflexivity | assumption | assumption ].
    cbn [map]. now rewrite make_channel_reads_back, IH. }
  cbn [channel_lines].
  destruct (negb (String.eqb (group c) g)); cbn [app].
  - destruct (negb (String.eqb g EmptyString)); cbn [app].
    + rewrite parse_lines_skip by (now left). cbn [String.append].
      rewrite parse_lines_skip_hash by reflexivity. now apply Hchannel.
    + cbn [String.append].
      rewrite parse_lines_skip_hash by reflexivity. now apply Hchannel.
  - now apply Hchannel.
Qed.

Lemma parse_header_lines (cfg : config) (src generated average : string)
    (k n : nat) (ls : list string) :
  parse_lines cfg src None n
    (filter (fun l => negb (is_empty l))
            (map strip (header_lines generated average k ++ ls)))
  = parse_lines cfg src None n
      (filter (fun l => negb (is_empty l)) (map strip ls)).
Proof.
  unfold header_lines. cbn [app String.append].
  rewrite !parse_lines_skip_hash by reflexivity.
  now rewrite parse_lines_skip by (now left).
Qed.

(* ================================================================== *)
(** * The rendered text holds no stray line break                      *)
(* ================================================================== *)

Lemma has_char_decimal (x : ascii) (n : nat) :
  x = LF \/ x = CR -> has_char x (decimal n) = false.
Proof.
  intros Hx. unfold decimal. generalize (Nat.to_uint n). intros u.
  induction u; cbn [NilEmpty.string_of_uint has_char]; try rewrite IHu;
    destruct Hx; subst x; reflexivity.
Qed.

Lemma has_char_unlines (x : ascii) (ls : list string) :
  x = CR -> Forall (fun l => has_char x l = false) ls ->
  has_char x (unlines ls) = false.
Proof.
  intros ->. induction 1 as [|l ls Hl _ IH]; [reflexivity|].
  cbn [unlines]. now rewrite !has_char_append, Hl, IH.
Qed.

Lemma has_char_extinf_line (cfg : config) (x : ascii) (c : entry) :
  x = LF \/ x = CR -> reads_back cfg c = true ->
  has_char x (extinf_line c) = false.
Proof.
  intros Hx Hc.
  destruct (reads_back_facts cfg c Hc) as (Hn & Hl & Hg & _).
  assert (Hx' : x = LF \/ x = CR \/ x = dquote) by tauto.
  unfold extinf_line, quoted. cbn [String.append].
  repeat (rewrite ?has_char_append; cbn [has_char]).
  rewrite (Hn x Hx'), (Hl x Hx'), (Hg x Hx').
  destruct Hx; subst x; reflexivity.
Qed.

Lemma has_char_channel_lines (cfg : config) (x : ascii) (cs : list entry) :
  x = LF \/ x = CR ->
  Forall (fun c => reads_back cfg c = true) cs ->
  forall g, Forall (fun l => has_char x l = false) (channel_lines g cs).
Proof.
  intros Hx. induction 1 as [|c cs Hc _ IH]; intros g; [constructor|].
  destruct (reads_back_facts cfg c Hc) as (_ & _ & Hg & Hu & _).
  assert (Hgroup : has_char x ("#GROUP: " +++ group c) = false).
  { rewrite has_char_append, (Hg x) by tauto.
    destruct Hx; subst x; reflexivity. }
  assert (Hblank : has_char x EmptyString = false) by reflexivity.
  assert (Hrest : Forall (fun l => has_char x l = false)
                    ([extinf_line c; url c] ++ channel_lines (group c) cs)).
  { cbn [app]. constructor; [now apply (has_char_extinf_line cfg)|].
    constructor; [now apply Hu|apply IH]. }
  cbn [channel_lines].
  destruct (negb (String.eqb (group c) g)); [|assumption].
  destruct (negb (String.eqb g EmptyString)); cbn [app];
    repeat (constructor; [assumption|]); assumption.
Qed.

Lemma has_char_header_lines (x : ascii) (generated average : string) (n : nat) :
  x = LF \/ x = CR ->
  has_char x generated = false -> has_char x average = false ->
  Forall (fun l => has_char x l = false) (header_lines generated average n).
Proof.
  intros Hx Hg Ha. unfold header_lines.
  repeat constructor; rewrite ?has_char_append, ?Hg, ?Ha, ?has_char_decimal
    by assumption; destruct Hx; subst x; reflexivity.
Qed.

(** The parser reads back what the renderer wrote, channel by channel. *)
Lemma parse_rendered (cfg : config) (src generated average : string)
    (cs : list entry) :
  has_char LF generated = false -> has_char CR generated = false ->
  has_char LF average = false -> has_char CR average = false ->
  Forall (fun c => reads_back cfg c = true) cs ->
  map triple_of_channel
      (parse_playlist cfg src (Some (playlist_text generated average cs)))
  = map triple_of_entry cs.
Proof.
  intros Hg1 Hg2 Ha1 Ha2 Hcs. unfold parse_playlist, parse_content.
  rewrite playlist_text_unlines.
  rewrite universal_newlines_id.
  - rewrite stripped_lines_unlines.
    + rewrite parse_header_lines. now apply parse_channel_lines.
    + apply Forall_app. split.
      * apply has_char_header_lines; auto.
      * apply (has_char_channel_lines cfg); auto.
  - apply has_char_unlines; [reflexivity|]. apply Forall_app. split.
    + apply has_char_header_lines; auto.
    + apply (has_char_channel_lines cfg); auto.
Qed.

(* ================================================================== *)
(** * C4: rendering the registry and parsing the output again          *)
(* ================================================================== *)

Lemma sort_channels_perm (cfg : config) (cs : list entry) :
  Permutation (sort_channels cfg cs) cs.
Proof.
  unfold sort_channels, sort_by_method.
  destruct (String.eqb (sorting cfg) "ping"); [apply sorted_by_perm|].
  destruct (String.eqb (sorting cfg) "name"); [apply sorted_by_perm|].
  destruct (String.eqb (sorting cfg) "group"); apply sorted_by_perm.
Qed.

(** C4, as the code has it. The renderer escapes nothing, so the round trip
    holds for the entries that [reads_back] describes: when every entry of
    a non-empty registry is of that kind, [generate_playlist] writes a text
    from which [parse_playlist] reads the channels in sorted order, with
    the same (name, url, group) triples as the registry holds. *)
Theorem render_parse_round_trip (cfg : config) (e : env) (src : string)
    (st : state) :
  has_char LF (generated e) = false -> has_char CR (generated e) = false ->
  (forall cs, has_char LF (average_text e cs) = false
              /\ has_char CR (average_text e cs) = false) ->
  Forall (fun c => reads_back cfg c = true) (db_values (channels_db st)) ->
  channels_db st <> [] ->
  exists text,
    output_file (generate_playlist cfg e st) = Some text
    /\ map triple_of_channel (parse_playlist cfg src (Some text))
       = map triple_of_entry (sort_channels cfg (db_values (channels_db st)))
    /\ forall t,
         In t (map triple_of_channel (parse_playlist cfg src (Some text)))
         <-> In t (map triple_of_entry (db_values (channels_db st))).
Proof.
  intros Hg1 Hg2 Havg Hcs Hne.
  set (sorted := sort_channels cfg (db_values (channels_db st))).
  exists (playlist_text (generated e) (average_text e sorted) sorted).
  assert (Hparse :
    map triple_of_channel
        (parse_playlist cfg src
           (Some (playlist_text (generated e) (average_text e sorted) sorted)))
    = map triple_of_entry sorted).
  { destruct (Havg sorted) as [Ha1 Ha2]. apply parse_rendered; auto.
    eapply Permutation_Forall; [|exact Hcs].
    apply Permutation_sym, sort_channels_perm. }
  split; [|split].
  - unfold generate_playlist. destruct (channels_db st); [now elim Hne|].
    reflexivity.
  - exact Hparse.
  - intros t. rewrite Hparse. split; apply Permutation_in, Permutation_map.
    + apply sort_channels_perm.
    + apply Permutation_sym, sort_channels_perm.
Qed.

Lemma render_parse_round_trip_witness :
  exists text,
    output_file (generate_playlist default_config serving_env
                   {| channels_db :=
                        [("one", channel_in "One" "http://a/1" "News" 10);
                         ("three", channel_in "Three" "http://c/3" "Sport" 30)];
                      output_file := None;
                      output_writes := 0 |}) = Some text
    /\ map triple_of_channel (parse_playlist default_config "out.m3u" (Some text))
       = map triple_of_entry
           (sort_channels default_config
              [channel_in "One" "http://a/1" "News" 10;
               channel_in "Three" "http://c/3" "Sport" 30])
    /\ forall t,
         In t (map triple_of_channel
                 (parse_playlist default_config "out.m3u" (Some text)))
         <-> In t (map triple_of_entry
                     [channel_in "One" "http://a/1" "News" 10;
                      channel_in "Three" "http://c/3" "Sport" 30]).
Proof.
  refine (render_parse_round_trip default_config serving_env "out.m3u"
            {| channels_db :=
                 [("one", channel_in "One" "http://a/1" "News" 10);
                  ("three", channel_in "Three" "http://c/3" "Sport" 30)];
               output_file := None;
               output_writes := 0 |} eq_refl eq_refl _ _ _).
  - intros cs. split; reflexivity.
  - repeat constructor.
  - discriminate.
Defined.

(** C4 as stated fails. A source names a channel after the comma of its
    [#EXTINF] line, and the name holds a double quote; the cycle stores it
    and writes it between double quotes; the parser reads the name back up
    to the inner quote. *)
Lemma quoted_name_round_trip_counterexample :
  exists text,
    output_file quoted_name_state = Some text
    /\ In ("Fox" +++ String dquote "News", "http://x/y", "News")
          (map triple_of_entry (db_values (channels_db quoted_name_state)))
    /\ map triple_of_channel
           (parse_playlist default_config "local_playlist.m3u" (Some text))
       = [("Fox", "http://x/y", "News")]
    /\ ~ In ("Fox" +++ String dquote "News", "http://x/y", "News")
            (map triple_of_channel
               (parse_playlist default_config "local_playlist.m3u" (Some text))).
Proof.
  eexists. split; [vm_compute; reflexivity|].
  split; [vm_compute; left; reflexivity|].
  split; [vm_compute; reflexivity|].
  vm_compute. intros [H|[]]. discriminate H.
Qed.

(* ================================================================== *)
(** * More on the registry: keys, origin of entries, minimum           *)
(* ================================================================== *)

Lemma db_get_In (k : string) (e : entry) (db : registry) :
  db_get k db = Some e -> In (k, e) db.
Proof.
  induction db as [|[k0 e0] db IH]; simpl; [discriminate|].
  destruct (String.eqb_spec k k0) as [->|_].
  - intros [= ->]. now left.
  - intros H. right. now apply IH.
Qed.

Lemma db_get_None_keys (k : string) (db : registry) :
  db_get k db = None -> ~ In k (db_keys db).
Proof.
  induction db as [|[k0 e0] db IH]; simpl; [tauto|].
  destruct (String.eqb_spec k k0) as [->|Hne]; [discriminate|].
  intros H [Heq|Hin]; [congruence|now apply IH].
Qed.

Lemma In_db_get (k : string) (e : entry) (db : registry) :
  NoDup (db_keys db) -> In (k, e) db -> db_get k db = Some e.
Proof.
  induction db as [|[k0 e0] db IH]; simpl; [tauto|].
  intros Hnd [Heq|Hin].
  - injection Heq as -> ->. now rewrite String.eqb_refl.
  - inversion Hnd as [|? ? Hnot Hnd']; subst.
    destruct (String.eqb_spec k k0) as [->|_]; [|now apply IH].
    elim Hnot. change k0 with (fst (k0, e)). now apply in_map.
Qed.

Lemma In_db_set (k : string) (e : entry) (db : registry) (ke : string * entry) :
  In ke (db_set k e db) -> ke = (k, e) \/ In ke db.
Proof.
  induction db as [|[k0 e0] db IH]; simpl.
  - intros [H|[]]. now left.
  - destruct (String.eqb_spec k k0) as [->|_]; simpl.
    + intros [H|H]; [now left|now right; right].
    + intros [H|H]; [now right; left|].
      destruct (IH H); [now left|now right; right].
Qed.

Lemma well_keyed_set (c : channel) (p : latency) (db : registry) :
  well_keyed db ->
  well_keyed (db_set (normalize (ch_name c)) (registry_entry c p) db).
Proof.
  intros [Hnd Hall]. split.
  - rewrite db_keys_set. unfold db_mem.
    destruct (db_get (normalize (ch_name c)) db) eqn:E; [assumption|].
    apply NoDup_app; [assumption|repeat constructor; intros []|].
    intros k Hin [Heq|[]]. subst k. now apply (db_get_None_keys _ db E).
  - apply Forall_forall. intros ke Hin.
    apply In_db_set in Hin as [->|Hin]; [reflexivity|].
    now apply (proj1 (Forall_forall _ _) Hall).
Qed.

Lemma well_keyed_merge (cfg : config) (db : registry) (r : probe_result) :
  well_keyed db -> well_keyed (merge cfg db r).
Proof.
  intros H. destruct r as [[c p] [|]]; [|exact H].
  unfold merge, update_channel_db.
  destruct (remove_duplicates cfg); [|exact H].
  destruct (db_get (normalize (ch_name c)) db) as [old|].
  - destruct (lat_ltb p (ping old)); [now apply well_keyed_set|exact H].
  - now apply well_keyed_set.
Qed.

Lemma well_keyed_merge_all (cfg : config) (rs : list probe_result)
    (db : registry) :
  well_keyed db -> well_keyed (merge_all cfg db rs).
Proof.
  unfold merge_all. revert db. induction rs as [|r rs IH]; intros db H;
    [exact H|]. apply IH. now apply well_keyed_merge.
Qed.

Lemma well_keyed_cycle (cfg : config) (e : env) (st : state) :
  well_keyed (channels_db st) -> well_keyed (channels_db (run_cycle cfg e st)).
Proof.
  intros H. unfold run_cycle. rewrite generate_playlist_db.
  unfold process_playlists.
  destruct (load_playlist_urls e); [exact H|].
  destruct (parse_all cfg _); [exact H|]. simpl.
  now apply well_keyed_merge_all.
Qed.

(** X1. From a fresh start and through any number of cycles, the registry
    holds no key twice and every entry sits under the normalized form of
    its own name: looking up [normalize (name e)] finds [e]. *)
Theorem registry_keyed_by_normalized_name (cfg : config) (es : list env)
    (on_disk : option string) :
  NoDup (db_keys (channels_db (run_cycles cfg es (initial_state on_disk))))
  /\ Forall (fun e =>
       db_get (normalize (name e))
              (channels_db (run_cycles cfg es (initial_state on_disk)))
       = Some e)
     (db_values (channels_db (run_cycles cfg es (initial_state on_disk)))).
Proof.
  assert (H : well_keyed (channels_db (run_cycles cfg es (initial_state on_disk)))).
  { unfold run_cycles.
    assert (H0 : well_keyed (channels_db (initial_state on_disk)))
      by (split; constructor).
    revert H0. generalize (initial_state on_disk).
    induction es as [|e es IH]; intros st H0; [exact H0|]. simpl.
    apply IH. now apply well_keyed_cycle. }
  destruct H as [Hnd Hall]. split; [assumption|].
  unfold db_values. apply Forall_forall. intros e Hin.
  apply in_map_iff in Hin as [[k e'] [<- Hin]].
  pose proof (proj1 (Forall_forall _ _) Hall (k, e') Hin) as Hk.
  simpl in Hk |- *. rewrite Hk. now apply In_db_get.
Qed.

Lemma merge_all_values (P : entry -> Prop) (cfg : config)
    (rs : list probe_result) (db : registry) :
  (forall c p, In (c, p, true) rs -> P (registry_entry c p)) ->
  Forall P (db_values db) -> Forall P (db_values (merge_all cfg db rs)).
Proof.
  unfold merge_all. revert db.
  induction rs as [|[[c p] alive] rs IH]; intros db Hrs Hdb; [exact Hdb|].
  simpl. apply IH; [intros c' p' H; apply Hrs; now right|].
  destruct alive; [|exact Hdb]. unfold update_channel_db.
  assert (Hset : Forall P (db_values
            (db_set (normalize (ch_name c)) (registry_entry c p) db))).
  { unfold db_values in *. apply Forall_forall. intros e Hin.
    apply in_map_iff in Hin as [ke [<- Hin]].
    apply In_db_set in Hin as [->|Hin]; [apply Hrs; now left|].
    apply (proj1 (Forall_forall _ _) Hdb). now apply in_map. }
  destruct (remove_duplicates cfg); [|exact Hdb].
  destruct (db_get _ db) as [old|]; [|exact Hset].
  destruct (lat_ltb p (ping old)); [exact Hset|exact Hdb].
Qed.

Lemma In_as_completed (e : env) (results : list probe_result)
    (r : probe_result) :
  In r (as_completed e results) -> In r results.
Proof.
  unfold as_completed. intros H. apply in_flat_map in H as [i [_ Hi]].
  destruct (nth_error results i) eqn:E; [|destruct Hi].
  destruct Hi as [<-|[]]. now apply nth_error_In in E.
Qed.

Lemma In_probe_all (cfg : config) (e : env) (cs : list channel) (n : nat)
    (r : probe_result) :
  In r (probe_all cfg e n cs) ->
  exists c head, In c cs /\ r = check_channel_availability cfg c head.
Proof.
  revert n. induction cs as [|c cs IH]; intros n; simpl; [tauto|].
  intros [<-|H].
  - exists c, (http_head e n (ch_url c)). split; [now left|reflexivity].
  - destruct (IH _ H) as (c' & h & Hin & ->). exists c', h.
    split; [now right|reflexivity].
Qed.

Lemma alive_probe_finite (cfg : config) (c c' : channel) (head : head_result)
    (p : latency) :
  check_channel_availability cfg c head = (c', p, true) ->
  c' = c /\ exists t, p = Finite t.
Proof.
  unfold check_channel_availability.
  destruct (negb (enable_availability_check cfg)).
  - intros [= <- <-]. split; [reflexivity|now exists 0%Z].
  - destruct head as [s t|]; [|discriminate].
    intros [= <- <- _]. split; [reflexivity|now exists t].
Qed.

(** X2. From a fresh start and through any number of cycles, every ping
    stored in the registry is finite: a result that is not alive, and with
    it the latency infinity, never enters the registry. *)
Theorem registry_pings_are_finite (cfg : config) (es : list env)
    (on_disk : option string) :
  Forall (fun e => exists t, ping e = Finite t)
         (db_values (channels_db (run_cycles cfg es (initial_state on_disk)))).
Proof.
  unfold run_cycles.
  assert (H0 : Forall (fun e => exists t, ping e = Finite t)
                 (db_values (channels_db (initial_state on_disk))))
    by constructor.
  revert H0. generalize (initial_state on_disk).
  induction es as [|e es IH]; intros st H0; [exact H0|]. simpl.
  apply IH. unfold run_cycle. rewrite generate_playlist_db.
  unfold process_playlists.
  destruct (load_playlist_urls e); [exact H0|].
  destruct (parse_all cfg _) as [|c0 cs0]; [exact H0|]. cbn [channels_db].
  apply merge_all_values; [|exact H0].
  intros c1 p Hin. apply In_as_completed, In_probe_all in Hin
    as (c' & h & _ & Hr).
  symmetry in Hr. apply alive_probe_finite in Hr as [_ [t ->]].
  now exists t.
Qed.

Lemma merge_all_keeps_minimum_aux (cfg : config) (rs : list probe_result)
    (db : registry) (c : channel) (p : latency) :
  remove_duplicates cfg = true ->
  In (c, p, true) rs ->
  exists e, db_get (normalize (ch_name c)) (merge_all cfg db rs) = Some e
            /\ lat_ltb p (ping e) = false.
Proof.
  intros Hdedup. unfold merge_all. revert db.
  induction rs as [|r rs IH]; intros db Hin; [destruct Hin|].
  destruct Hin as [->|Hin]; [|now apply IH].
  simpl.
  assert (Hnow : exists e0,
    db_get (normalize (ch_name c)) (update_channel_db cfg db c p) = Some e0
    /\ lat_ltb p (ping e0) = false).
  { unfold update_channel_db. rewrite Hdedup.
    assert (Hirr : lat_ltb p p = false).
    { destruct (lat_ltb p p) eqn:E; [now elim (lat_lt_irrefl p)|reflexivity]. }
    destruct (db_get (normalize (ch_name c)) db) as [old|] eqn:Hold.
    - destruct (lat_ltb p (ping old)) eqn:Hlt.
      + rewrite db_get_set_same. eexists; split; [reflexivity|exact Hirr].
      + exists old. now split.
    - rewrite db_get_set_same. eexists; split; [reflexivity|exact Hirr]. }
  destruct Hnow as (e0 & Hget & Hle).
  destruct (merge_all_le cfg rs _ _ _ Hget) as (e' & Hget' & Himp).
  exists e'. split; [exact Hget'|].
  destruct Himp as [->|Hlow]; [exact Hle|].
  destruct (lat_ltb p (ping e')) eqn:E; [|reflexivity].
  pose proof (lat_lt_trans _ _ _ E Hlow) as Hcontra.
  unfold lat_lt in Hcontra. congruence.
Qed.

(** X3. With duplicate removal enabled, after any sequence of merges every
    alive result finds its key in the registry, with a stored ping that is
    not above its own: the registry holds a per-key minimum. *)
Theorem merge_all_keeps_minimum (cfg : config) (rs : list probe_result)
    (db : registry) (c : channel) (p : latency) :
  remove_duplicates cfg = true ->
  In (c, p, true) rs ->
  exists e, db_get (normalize (ch_name c)) (merge_all cfg db rs) = Some e
            /\ lat_ltb p (ping e) = false.
Proof. exact (merge_all_keeps_minimum_aux cfg rs db c p). Qed.

Lemma merge_all_keeps_minimum_witness :
  exists e,
    db_get (normalize (ch_name alpha2))
      (merge_all default_config []
         [(alpha2, Finite 30, true); (alpha1, Finite 50, true)]) = Some e
    /\ lat_ltb (Finite 30) (ping e) = false.
Proof.
  apply (merge_all_keeps_minimum default_config
           [(alpha2, Finite 30, true); (alpha1, Finite 50, true)] []
           alpha2 (Finite 30) eq_refl).
  left. reflexivity.
Defined.

Lemma merge_from_results (cfg : config) (rs0 : list probe_result)
    (db : registry) (r : probe_result) :
  In r rs0 -> from_results rs0 db -> from_results rs0 (merge cfg db r).
Proof.
  intros Hin Hdb. destruct r as [[c p] [|]]; [|exact Hdb].
  unfold merge, update_channel_db.
  assert (Hset : from_results rs0
            (db_set (normalize (ch_name c)) (registry_entry c p) db)).
  { intros k e. destruct (string_dec k (normalize (ch_name c))) as [->|Hne].
    - rewrite db_get_set_same. intros [= <-]. now exists c, p.
    - rewrite db_get_set_other by assumption. apply Hdb. }
  destruct (remove_duplicates cfg); [|exact Hdb].
  destruct (db_get _ db) as [old|]; [|exact Hset].
  destruct (lat_ltb p (ping old)); [exact Hset|exact Hdb].
Qed.

Lemma merge_all_from_results (cfg : config) (rs0 rs : list probe_result)
    (db : registry) :
  incl rs rs0 -> from_results rs0 db -> from_results rs0 (merge_all cfg db rs).
Proof.
  unfold merge_all. revert db. induction rs as [|r rs IH]; intros db Hincl Hdb;
    [exact Hdb|]. simpl. apply IH.
  - intros x Hx. apply Hincl. now right.
  - apply merge_from_results; [apply Hincl; now left|exact Hdb].
Qed.

Lemma merged_entries_origin (cfg : config) (rs : list probe_result)
    (k : string) (e : entry) :
  db_get k (merge_all cfg [] rs) = Some e ->
  exists c p, In (c, p, true) rs
              /\ normalize (ch_name c) = k /\ e = registry_entry c p.
Proof.
  apply (merge_all_from_results cfg rs rs []); [apply incl_refl|].
  intros k0 e0 H. discriminate H.
Qed.

(** X4. Whatever a sequence of merges leaves in a registry that started
    empty was built from an alive result of that sequence, under the key of
    that result: nothing is stored for a result that is not alive, and no
    entry is made up. *)
Theorem merged_entries_come_from_alive_results (cfg : config)
    (rs : list probe_result) (k : string) (e : entry) :
  db_get k (merge_all cfg [] rs) = Some e ->
  exists c p, In (c, p, true) rs
              /\ normalize (ch_name c) = k /\ e = registry_entry c p.
Proof. exact (merged_entries_origin cfg rs k e). Qed.

Lemma merged_entries_come_from_alive_results_witness :
  exists c p,
    In (c, p, true) [(alpha1, Finite 50, true); (alpha2, Infinity, false)]
    /\ normalize (ch_name c) = "alpha"
    /\ registry_entry alpha1 (Finite 50) = registry_entry c p.
Proof.
  apply (merged_entries_come_from_alive_results default_config
           [(alpha1, Finite 50, true); (alpha2, Infinity, false)] "alpha"
           (registry_entry alpha1 (Finite 50))).
  reflexivity.
Defined.

Lemma lat_ltb_total (a b : latency) :
  lat_ltb a b = false -> lat_ltb b a = false -> a = b.
Proof.
  destruct a as [x|], b as [y|]; simpl; try discriminate; try reflexivity.
  rewrite !Z.ltb_ge. intros. f_equal. lia.
Qed.

Lemma merge_all_none (cfg : config) (rs : list probe_result) (k : string) :
  remove_duplicates cfg = true ->
  db_get k (merge_all cfg [] rs) = None ->
  forall c p, In (c, p, true) rs -> normalize (ch_name c) <> k.
Proof.
  intros Hdedup Hnone c p Hin <-.
  destruct (merge_all_keeps_minimum_aux cfg rs [] c p Hdedup Hin) as (e & He & _).
  congruence.
Qed.

(** X5. With duplicate removal enabled, and when equal pings under one key
    only come with equal entries, the order of the results does not matter
    for what the registry holds under each key: merging any permutation of
    the results into the empty registry gives the same lookups. *)
Theorem merge_all_order_independent (cfg : config)
    (rs rs' : list probe_result) :
  remove_duplicates cfg = true ->
  Permutation rs rs' ->
  distinct_pings rs ->
  forall k, db_get k (merge_all cfg [] rs) = db_get k (merge_all cfg [] rs').
Proof.
  intros Hdedup Hperm Hdist k.
  destruct (db_get k (merge_all cfg [] rs)) as [e|] eqn:E;
    destruct (db_get k (merge_all cfg [] rs')) as [e'|] eqn:E'.
  - destruct (merged_entries_origin cfg rs k e E) as (c & p & Hin & Hk & ->).
    destruct (merged_entries_origin cfg rs' k e' E') as (c' & p' & Hin' & Hk' & ->).
    apply (Permutation_in _ (Permutation_sym Hperm)) in Hin'.
    f_equal. apply Hdist; try assumption; [congruence|].
    destruct (merge_all_keeps_minimum_aux cfg rs [] c' p' Hdedup Hin')
      as (e1 & He1 & Hle1).
    rewrite Hk', E in He1. injection He1 as <-.
    apply (Permutation_in _ Hperm) in Hin.
    destruct (merge_all_keeps_minimum_aux cfg rs' [] c p Hdedup Hin)
      as (e2 & He2 & Hle2).
    rewrite Hk, E' in He2. injection He2 as <-.
    simpl in Hle1, Hle2. now apply lat_ltb_total.
  - destruct (merged_entries_origin cfg rs k e E) as (c & p & Hin & Hk & _).
    apply (Permutation_in _ Hperm) in Hin.
    now elim (merge_all_none cfg rs' k Hdedup E' c p Hin).
  - destruct (merged_entries_origin cfg rs' k e' E') as (c & p & Hin & Hk & _).
    apply (Permutation_in _ (Permutation_sym Hperm)) in Hin.
    now elim (merge_all_none cfg rs k Hdedup E c p Hin).
  - reflexivity.
Qed.

Lemma merge_all_order_independent_witness :
  db_get "alpha"
    (merge_all default_config []
       [(alpha1, Finite 50, true); (alpha2, Finite 30, true)])
  = db_get "alpha"
      (merge_all default_config []
         [(alpha2, Finite 30, true); (alpha1, Finite 50, true)]).
Proof.
  apply (merge_all_order_independent default_config
           [(alpha1, Finite 50, true); (alpha2, Finite 30, true)]
           [(alpha2, Finite 30, true); (alpha1, Finite 50, true)] eq_refl).
  - apply perm_swap.
  - intros c1 p1 c2 p2 [H1|[H1|[]]] [H2|[H2|[]]] _ Hp;
      injection H1 as <- <-; injection H2 as <- <-;
      (reflexivity || discriminate Hp).
Defined.

(* ================================================================== *)
(** * More on stripping and lines                                      *)
(* ================================================================== *)

Lemma rstrip_idempotent (s : string) : rstrip (rstrip s) = rstrip s.
Proof.
  induction s as [|c s IH]; [reflexivity|]. cbn [rstrip].
  destruct (isspace c && is_empty (rstrip s)) eqn:E; [reflexivity|].
  cbn [rstrip]. now rewrite IH, E.
Qed.

Lemma lstrip_idempotent (s : string) : lstrip (lstrip s) = lstrip s.
Proof.
  induction s as [|c s IH]; [reflexivity|]. cbn [lstrip].
  destruct (isspace c) eqn:E; [exact IH|]. cbn [lstrip]. now rewrite E.
Qed.

Lemma lstrip_rstrip (t : string) : lstrip t = t -> lstrip (rstrip t) = rstrip t.
Proof.
  destruct t as [|c t]; [reflexivity|]. cbn [lstrip].
  destruct (isspace c) eqn:E.
  - intros H. pose proof (length_lstrip t) as Hl. rewrite H in Hl.
    simpl in Hl. lia.
  - intros _. rewrite rstrip_head by assumption. now apply lstrip_head.
Qed.

Lemma strip_idempotent (s : string) : strip (strip s) = strip s.
Proof.
  unfold strip. rewrite lstrip_rstrip by apply lstrip_idempotent.
  apply rstrip_idempotent.
Qed.

Lemma has_char_lstrip (c : ascii) (s : string) :
  has_char c s = false -> has_char c (lstrip s) = false.
Proof.
  induction s as [|d s IH]; [reflexivity|]. cbn [lstrip has_char].
  intros H. apply orb_false_iff in H as [Hd Hs].
  destruct (isspace d); [now apply IH|]. cbn [has_char]. now rewrite Hd, Hs.
Qed.

Lemma has_char_rstrip (c : ascii) (s : string) :
  has_char c s = false -> has_char c (rstrip s) = false.
Proof.
  induction s as [|d s IH]; [reflexivity|]. cbn [rstrip has_char].
  intros H. apply orb_false_iff in H as [Hd Hs].
  destruct (isspace d && is_empty (rstrip s)); [reflexivity|].
  cbn [has_char]. now rewrite Hd, IH.
Qed.

Lemma has_char_strip (c : ascii) (s : string) :
  has_char c s = false -> has_char c (strip s) = false.
Proof. intros H. unfold strip. now apply has_char_rstrip, has_char_lstrip. Qed.

Lemma split_lines_no_lf (s : string) :
  Forall (fun l => has_char LF l = false) (split_lines s).
Proof.
  induction s as [|c s IH]; cbn [split_lines]; [repeat constructor|].
  destruct (Ascii.eqb c LF) eqn:E; [constructor; [reflexivity|exact IH]|].
  destruct (split_lines s) as [|l ls]; [repeat constructor|].
  - cbn [has_char]. now rewrite Ascii.eqb_sym, E.
  - inversion IH as [|? ? Hl Hls]; subst. constructor; [|exact Hls].
    cbn [has_char]. now rewrite Ascii.eqb_sym, E, Hl.
Qed.

Lemma split_lines_single (l : string) :
  has_char LF l = false -> split_lines l = [l].
Proof.
  induction l as [|c l IH]; [reflexivity|]. cbn [has_char split_lines].
  intros H. apply orb_false_iff in H as [Hc Hl]. rewrite Ascii.eqb_sym in Hc.
  now rewrite Hc, (IH Hl).
Qed.

Lemma split_join_lines (ls : list string) :
  ls <> [] -> Forall (fun l => has_char LF l = false) ls ->
  split_lines (join_lines ls) = ls.
Proof.
  intros Hne H. induction H as [|l ls Hl Hls IH]; [now elim Hne|].
  destruct ls as [|l' ls'].
  - cbn [join_lines]. now apply split_lines_single.
  - cbn [join_lines]. rewrite split_lines_line by assumption.
    f_equal. apply IH. discriminate.
Qed.

(** What [stripped_lines] returns: stripped, non-empty lines without line
    feed. *)
Lemma stripped_lines_facts (content : string) :
  Forall (fun l => strip l = l /\ is_empty l = false /\ has_char LF l = false)
         (stripped_lines content).
Proof.
  unfold stripped_lines. apply Forall_forall. intros l Hin.
  apply filter_In in Hin as [Hin Hne]. apply in_map_iff in Hin as [l0 [<- Hin]].
  split; [apply strip_idempotent|]. split; [now apply negb_true_iff|].
  apply has_char_strip.
  exact (proj1 (Forall_forall _ _) (split_lines_no_lf content) l0 Hin).
Qed.

(* ================================================================== *)
(** * More on [clean_html_content]                                     *)
(* ================================================================== *)

Lemma startswith_append_r (p a b : string) :
  startswith p a = true -> startswith p (a +++ b) = true.
Proof.
  revert a. induction p as [|x p IH]; intros a; [reflexivity|].
  destruct a as [|y a]; cbn [startswith String.append]; [discriminate|].
  intros H. apply andb_true_iff in H as [Hxy Hp]. now rewrite Hxy, IH.
Qed.

Lemma section_line_join (h : string) (t : list string) :
  section_line h = true -> section_line (join_lines (h :: t)) = true.
Proof.
  unfold section_line. intros H. destruct t as [|l t]; [exact H|].
  cbn [join_lines]. apply orb_true_iff in H as [H|H];
    rewrite (startswith_append_r _ _ _ H); [reflexivity|apply orb_true_r].
Qed.

Lemma section_line_strip (s : string) :
  section_line s = true -> section_line (strip s) = true.
Proof.
  destruct s as [|c s]; [discriminate|]. unfold section_line. intros H.
  assert (Hc : c = "#"%char).
  { apply orb_true_iff in H as [H|H]; cbn [startswith] in H;
      apply andb_true_iff in H as [H _]; apply Ascii.eqb_eq in H; now subst. }
  subst c. rewrite strip_head by reflexivity.
  rewrite <- rstrip_head by reflexivity.
  rewrite !startswith_rstrip; [exact H|apply extinf_marker_no_space|].
  cbn [has_char]. intros c. rewrite !orb_true_iff, !Ascii.eqb_eq.
  intros Hc; repeat destruct Hc as [Hc|Hc]; subst; try reflexivity; discriminate.
Qed.

Lemma clean_html_content_unfold (content : string) :
  clean_html_content content
  = if section_line (strip content) then content
    else
      match snd (fold_left clean_step
                   (split_lines (join_lines (stripped_lines
                      (re_sub_empty tag_pattern
                         (re_sub_empty (block_pattern "style")
                            (re_sub_empty (block_pattern "script") content))))))
                   (false, [])) with
      | [] => EmptyString
      | m3u_lines => join_lines m3u_lines
      end.
Proof.
  unfold clean_html_content, section_line.
  destruct (startswith "#EXTM3U" (strip content)
            || startswith "#EXTINF:" (strip content)); [reflexivity|].
  now destruct (fold_left clean_step _ _) as [b [|l ls]].
Qed.

(** What the loop of [clean_html_content] keeps, when it runs over
    stripped, non-empty lines: list lines of the input, the first of which
    opens a section. *)
Lemma clean_loop_keeps_list_lines (lines : list string)
    (st : bool * list string) :
  Forall (fun l => strip l = l /\ is_empty l = false /\ has_char LF l = false)
         lines ->
  Forall (fun l => list_line l = true /\ strip l = l
                   /\ has_char LF l = false) (snd st) ->
  (fst st = true -> snd st <> []) ->
  (forall h t, snd st = h :: t -> section_line h = true) ->
  let st' := fold_left clean_step lines st in
  Forall (fun l => list_line l = true /\ strip l = l
                   /\ has_char LF l = false) (snd st')
  /\ (forall h t, snd st' = h :: t -> section_line h = true).
Proof.
  intros Hlines. revert st.
  induction Hlines as [|line lines (Hs & Hne & Hlf) _ IH];
    intros [inside acc] Hacc Hin Hhead; [now split|].
  cbn [fold_left]. apply IH; clear IH.
  - unfold clean_step. cbn [snd] in *.
    assert (Hadd : list_line line = true ->
              Forall (fun l => list_line l = true /\ strip l = l
                               /\ has_char LF l = false) (acc ++ [line])).
    { intros Hl. apply Forall_app. split; [assumption|]. now repeat constructor. }
    unfold list_line in Hadd.
    destruct (startswith "#EXTM3U" line) eqn:E1; [now apply Hadd|].
    destruct (startswith "#EXTINF:" line) eqn:E2; [now apply Hadd|].
    destruct (inside && startswith "http" line) eqn:E3.
    { apply andb_true_iff in E3 as [_ E3]. apply Hadd. now rewrite E3. }
    rewrite Hs, Hne, andb_false_r.
    destruct (inside && negb (startswith "#" line)); [|assumption].
    now destruct (negb (startswith "http" line)).
  - unfold clean_step. cbn [fst snd] in *.
    destruct (startswith "#EXTM3U" line); [intros _; now destruct acc|].
    destruct (startswith "#EXTINF:" line); [intros _; now destruct acc|].
    destruct (inside && startswith "http" line) eqn:E3.
    { apply andb_true_iff in E3 as [-> _]. intros _.
      specialize (Hin eq_refl). now destruct acc. }
    rewrite Hs, Hne, andb_false_r.
    destruct (inside && negb (startswith "#" line)) eqn:E5; [|assumption].
    now destruct (negb (startswith "http" line)).
  - unfold clean_step. cbn [fst snd] in *.
    assert (Happ : section_line line = true ->
              forall h t, acc ++ [line] = h :: t -> section_line h = true).
    { intros Hl h t. destruct acc as [|a acc']; cbn [app].
      - now intros [= <- _].
      - intros [= <- _]. now apply (Hhead a acc'). }
    assert (Happ' : inside = true ->
              forall h t, acc ++ [line] = h :: t -> section_line h = true).
    { intros Hi h t. specialize (Hin Hi). destruct acc as [|a acc'];
        [now elim Hin|]. cbn [app]. intros [= <- _]. now apply (Hhead a acc'). }
    unfold section_line in Happ.
    destruct (startswith "#EXTM3U" line) eqn:E1; [now apply Happ|].
    destruct (startswith "#EXTINF:" line) eqn:E2; [now apply Happ|].
    destruct (inside && startswith "http" line) eqn:E3.
    { apply andb_true_iff in E3 as [E3 _]. now apply Happ'. }
    rewrite Hs, Hne, andb_false_r.
    destruct (inside && negb (startswith "#" line)); [|assumption].
    now destruct (negb (startswith "http" line)).
Qed.

Lemma clean_html_content_markup (content : string) :
  is_markup content = true ->
  clean_html_content content = EmptyString
  \/ exists h t,
       clean_html_content content = join_lines (h :: t)
       /\ section_line h = true
       /\ Forall (fun l => list_line l = true /\ strip l = l
                           /\ has_char LF l = false) (h :: t).
Proof.
  unfold is_markup. intros Hm. apply negb_true_iff in Hm.
  rewrite clean_html_content_unfold, Hm.
  set (text := re_sub_empty tag_pattern _).
  pose proof (stripped_lines_facts text) as Hfacts.
  destruct (stripped_lines text) as [|l0 ls0] eqn:Hls.
  - left. reflexivity.
  - rewrite split_join_lines;
      [ | discriminate
        | eapply Forall_impl; [|exact Hfacts]; now intros a (_ & _ & H) ].
    destruct (clean_loop_keeps_list_lines (l0 :: ls0) (false, []) Hfacts)
      as [Hall Hhead]; [constructor|discriminate|discriminate|].
    destruct (snd (fold_left clean_step (l0 :: ls0) (false, [])))
      as [|h t]; [now left|].
    right. exists h, t. split; [reflexivity|]. split; [|exact Hall].
    now apply (Hhead h t).
Qed.

(** X6. [clean_html_content] is idempotent: what it returns is returned
    unchanged when it is cleaned again. *)
Theorem clean_html_content_idempotent (content : string) :
  clean_html_content (clean_html_content content) = clean_html_content content.
Proof.
  destruct (is_markup content) eqn:Hm.
  - destruct (clean_html_content_markup content Hm) as [->|(h & t & -> & Hh & _)];
      [reflexivity|].
    rewrite clean_html_content_unfold.
    now rewrite section_line_strip by now apply section_line_join.
  - unfold is_markup in Hm. apply negb_false_iff in Hm.
    rewrite (clean_html_content_unfold content), Hm.
    now rewrite clean_html_content_unfold, Hm.
Qed.

(** X7. When [clean_html_content] takes a text for markup and extracts
    anything, the result starts with [#EXTM3U] or [#EXTINF:], and each of
    its lines is stripped and starts with [#EXTM3U], [#EXTINF:] or [http]:
    no blank line and no other text is ever kept. *)
Theorem clean_html_content_keeps_list_lines (content : string) :
  is_markup content = true ->
  clean_html_content content <> EmptyString ->
  section_line (clean_html_content content) = true
  /\ Forall (fun l => list_line l = true /\ strip l = l /\ is_empty l = false)
            (split_lines (clean_html_content content)).
Proof.
  intros Hm Hne.
  destruct (clean_html_content_markup content Hm)
    as [H|(h & t & -> & Hh & Hall)]; [contradiction|].
  split; [now apply section_line_join|].
  rewrite split_join_lines;
    [ | discriminate
      | eapply Forall_impl; [|exact Hall]; now intros a (_ & _ & H) ].
  eapply Forall_impl; [|exact Hall].
  intros a (Hl & Hs & _). repeat split; try assumption.
  destruct a; [discriminate Hl|reflexivity].
Qed.

Lemma clean_html_content_keeps_list_lines_witness :
  section_line (clean_html_content (wrapped_document "var live = true;")) = true
  /\ Forall (fun l => list_line l = true /\ strip l = l /\ is_empty l = false)
            (split_lines
               (clean_html_content (wrapped_document "var live = true;"))).
Proof.
  apply (clean_html_content_keeps_list_lines
           (wrapped_document "var live = true;")).
  - reflexivity.
  - vm_compute. discriminate.
Defined.

(* ================================================================== *)
(** * More on [download_playlist]                                      *)
(* ================================================================== *)

Lemma download_attempt_some (cfg : config) (r : get_result) (content : string) :
  download_attempt cfg r = Some content ->
  contains "#EXTINF:" content = true
  /\ exists text, r = GetResponse 200 text
                  /\ (content = text \/ content = clean_html_content text).
Proof.
  unfold download_attempt. destruct r as [status text|]; [|discriminate].
  destruct (Z.eqb_spec status 200) as [->|_]; [|discriminate].
  destruct (clean_html_files cfg
            && (contains "<!DOCTYPE html>" text || contains "<html" text)).
  - destruct (negb (is_empty (clean_html_content text))
              && contains "#EXTINF:" (clean_html_content text));
      [|discriminate].
    destruct (contains "#EXTINF:" (clean_html_content text)) eqn:E;
      [|discriminate].
    intros [= <-]. split; [exact E|]. exists text. split; [reflexivity|now right].
  - destruct (contains "#EXTINF:" text) eqn:E; [|discriminate].
    intros [= <-]. split; [exact E|]. exists text. split; [reflexivity|now left].
Qed.

Lemma download_loop_some (cfg : config) (get : nat -> get_result)
    (remaining attempt : nat) (content : string) :
  download_loop cfg get attempt remaining = Some content ->
  exists i, attempt <= i < attempt + remaining
            /\ download_attempt cfg (get i) = Some content.
Proof.
  revert attempt. induction remaining as [|k IH]; intros a; [discriminate|].
  cbn [download_loop].
  destruct (download_attempt cfg (get a)) as [c0|] eqn:E.
  - intros [= <-]. exists a. split; [lia|exact E].
  - intros H. destruct (IH _ H) as (i & Hi & Hd). exists i. split; [lia|exact Hd].
Qed.

Lemma download_loop_ext (cfg : config) (get get' : nat -> get_result)
    (remaining attempt : nat) :
  (forall i, attempt <= i < attempt + remaining -> get i = get' i) ->
  download_loop cfg get attempt remaining
  = download_loop cfg get' attempt remaining.
Proof.
  revert attempt. induction remaining as [|k IH]; intros a H; [reflexivity|].
  cbn [download_loop]. rewrite <- (H a) by lia.
  destruct (download_attempt cfg (get a)); [reflexivity|].
  apply IH. intros i Hi. apply H. lia.
Qed.

(** X8. Whatever [download_playlist] writes to the cache came from a
    response with status 200 at one of the first [max_retries] attempts, is
    the text of that response or what [clean_html_content] made of it, and
    holds the marker [#EXTINF:]; the cache file is named by the MD5 of the
    URL. *)
Theorem download_playlist_caches_list_content (cfg : config) (e : env)
    (n : nat) (url file content : string) :
  download_playlist cfg e n url = Some (file, content) ->
  file = md5_hexdigest e url +++ ".m3u"
  /\ contains "#EXTINF:" content = true
  /\ exists attempt text,
       attempt < max_retries cfg
       /\ http_get e n attempt url = GetResponse 200 text
       /\ (content = text \/ content = clean_html_content text).
Proof.
  unfold download_playlist.
  destruct (download_loop cfg _ 0 _) as [c0|] eqn:E; [|discriminate].
  intros [= <- <-]. split; [reflexivity|].
  apply download_loop_some in E as (i & Hi & Hd).
  apply download_attempt_some in Hd as (Hc & text & Hr & Hor).
  split; [exact Hc|]. exists i, text. unfold max_retries.
  split; [simpl in Hi; lia|]. now split.
Qed.

Lemma download_playlist_caches_list_content_witness :
  "d41d.m3u" = md5_hexdigest serving_env "http://src/list.m3u" +++ ".m3u"
  /\ contains "#EXTINF:" three_groups_source = true
  /\ exists attempt text,
       attempt < max_retries default_config
       /\ http_get serving_env 0 attempt "http://src/list.m3u"
          = GetResponse 200 text
       /\ (three_groups_source = text
           \/ three_groups_source = clean_html_content text).
Proof.
  apply (download_playlist_caches_list_content default_config serving_env 0
           "http://src/list.m3u" "d41d.m3u" three_groups_source).
  vm_compute. reflexivity.
Defined.

(** X9. [download_playlist] looks at the first [max_retries] responses
    only, one in quiet mode and two otherwise: two networks that agree on
    these attempts give the same result, whatever a later attempt would
    return. *)
Theorem download_playlist_bounded_attempts (cfg : config) (e e' : env)
    (n : nat) (url : string) :
  (forall attempt, attempt < max_retries cfg ->
     http_get e n attempt url = http_get e' n attempt url) ->
  md5_hexdigest e url = md5_hexdigest e' url ->
  download_playlist cfg e n url = download_playlist cfg e' n url.
Proof.
  intros Hget Hmd5. unfold download_playlist, max_retries in *.
  rewrite (download_loop_ext cfg _ (fun attempt => http_get e' n attempt url)).
  - now rewrite Hmd5.
  - intros i Hi. apply Hget. simpl in Hi. lia.
Qed.

Lemma download_playlist_bounded_attempts_witness :
  download_playlist default_config offline_env 0 "http://src/list.m3u"
  = download_playlist default_config no_sources_env 0 "http://src/list.m3u".
Proof.
  apply (download_playlist_bounded_attempts default_config offline_env
           no_sources_env 0 "http://src/list.m3u"); [|reflexivity].
  intros attempt Hlt. unfold max_retries in Hlt. simpl in Hlt.
  destruct attempt as [|a]; [reflexivity|lia].
Defined.

Lemma download_all_nil (cfg : config) (e : env) (urls : list string) (n : nat) :
  (forall i attempt u, download_attempt cfg (http_get e i attempt u) = None) ->
  download_all cfg e n urls = [].
Proof.
  intros Hfail. revert n. induction urls as [|u urls IH]; intros n;
    [reflexivity|]. cbn [download_all]. unfold download_playlist.
  assert (Hloop : forall k a,
    download_loop cfg (fun attempt => http_get e n attempt u) a k = None).
  { induction k as [|k IHk]; intros a; [reflexivity|].
    cbn [download_loop]. now rewrite Hfail. }
  rewrite Hloop. apply IH.
Qed.

(** X10. A cycle in which every attempt on every source fails (transport
    error, status other than 200, or a text without list data) leaves the
    registry and the output file exactly as they were: fetch failures are
    absorbed, and the render step then works from the registry it
    finds. *)
Theorem process_playlists_without_sources (cfg : config) (e : env)
    (st : state) :
  (forall i attempt u, download_attempt cfg (http_get e i attempt u) = None) ->
  process_playlists cfg e st = st
  /\ channels_db (run_cycle cfg e st) = channels_db st.
Proof.
  intros Hfail.
  assert (H : process_playlists cfg e st = st).
  { unfold process_playlists. destruct (load_playlist_urls e); [reflexivity|].
    now rewrite download_all_nil. }
  split; [exact H|]. unfold run_cycle. now rewrite H, generate_playlist_db.
Qed.

Lemma process_playlists_without_sources_witness :
  process_playlists default_config offline_env (initial_state None)
  = initial_state None
  /\ channels_db (run_cycle default_config offline_env (initial_state None))
     = channels_db (initial_state None).
Proof.
  apply (process_playlists_without_sources default_config offline_env
           (initial_state None)).
  intros i attempt u. simpl. now destruct (attempt =? 0).
Defined.

(* ================================================================== *)
(** * More on the parser                                               *)
(* ================================================================== *)

Lemma no_space_strip (s : string) : no_space s = true -> strip s = s.
Proof.
  intros H. assert (Hr : rstrip s = s).
  { induction s as [|c s IH]; [reflexivity|]. cbn [no_space] in H.
    apply andb_true_iff in H as [Hc Hs]. apply negb_true_iff in Hc.
    now rewrite rstrip_head, IH. }
  unfold strip. destruct s as [|c s]; [reflexivity|].
  cbn [no_space] in H. apply andb_true_iff in H as [Hc _].
  apply negb_true_iff in Hc. now rewrite lstrip_head.
Qed.

Lemma no_space_append (a b : string) :
  no_space (a +++ b) = no_space a && no_space b.
Proof.
  induction a as [|c a IH]; [reflexivity|]. cbn [String.append no_space].
  now rewrite IH, andb_assoc.
Qed.

Lemma no_space_decimal (n : nat) : no_space (decimal n) = true.
Proof.
  unfold decimal. generalize (Nat.to_uint n). intros u.
  induction u; cbn [NilEmpty.string_of_uint no_space]; try rewrite IHu;
    reflexivity.
Qed.

Lemma placeholder_stripped (k : nat) :
  strip ("Channel_" +++ decimal k) = "Channel_" +++ decimal k.
Proof.
  apply no_space_strip. now rewrite no_space_append, no_space_decimal.
Qed.

Lemma decimal_inj (i j : nat) : decimal i = decimal j -> i = j.
Proof.
  unfold decimal. intros H. apply Unsigned.to_uint_inj.
  apply (f_equal NilEmpty.uint_of_string) in H.
  rewrite !NilEmpty.usu in H. now injection H.
Qed.

(** Every channel that the walk emits is [make_channel] of a pending
    [#EXTINF] line and a later line with a stream scheme, and the [i]-th
    one carries the counter [n + i]. *)
Lemma parse_lines_nth (cfg : config) (src : string) (lines : list string)
    (pending : option string) (n i : nat) (c : channel) :
  nth_error (parse_lines cfg src pending n lines) i = Some c ->
  exists extinf u,
    In u lines /\ has_stream_scheme u = true
    /\ c = make_channel cfg src (n + i) extinf u.
Proof.
  revert pending n i. induction lines as [|line rest IH]; intros pending n i.
  - destruct i; discriminate.
  - cbn [parse_lines].
    assert (Hrest : forall pending' n' i',
      n' + i' = n + i ->
      nth_error (parse_lines cfg src pending' n' rest) i' = Some c ->
      exists extinf u, In (A:=string) u (line :: rest)
                       /\ has_stream_scheme u = true
                       /\ c = make_channel cfg src (n + i) extinf u).
    { intros pending' n' i' Hni H. destruct (IH _ _ _ H) as (x & u & Hin & Hs & ->).
      exists x, u. rewrite Hni. split; [now right|now split]. }
    destruct pending as [extinf|].
    + destruct (is_empty line || startswith "#" line);
        [now apply Hrest|].
      destruct (has_stream_scheme line) eqn:Hs; [|now apply Hrest].
      destruct i as [|i].
      * intros [= <-]. exists extinf, line. rewrite Nat.add_0_r.
        split; [now left|now split].
      * cbn [nth_error]. apply Hrest. lia.
    + destruct (startswith "#EXTINF:" line); now apply Hrest.
Qed.

Lemma make_channel_fields (cfg : config) (src : string) (k : nat)
    (extinf u : string) :
  strip u = u -> has_stream_scheme u = true ->
  has_stream_scheme (ch_url (make_channel cfg src k extinf u)) = true
  /\ strip (ch_name (make_channel cfg src k extinf u))
     = ch_name (make_channel cfg src k extinf u)
  /\ strip (ch_group (make_channel cfg src k extinf u))
     = ch_group (make_channel cfg src k extinf u)
  /\ strip (ch_logo (make_channel cfg src k extinf u))
     = ch_logo (make_channel cfg src k extinf u)
  /\ ch_source_file (make_channel cfg src k extinf u) = Some src.
Proof.
  intros Hu Hs. unfold make_channel. cbn [ch_url ch_name ch_group ch_logo ch_source_file].
  rewrite Hu, !strip_idempotent. now repeat split.
Qed.

Lemma make_channel_name (cfg : config) (src : string) (k : nat)
    (extinf u : string) :
  (min_channel_name_length cfg
     <= Z.of_nat (String.length (ch_name (make_channel cfg src k extinf u)))
   /\ is_empty (str_or (extract_field extinf "tvg-name") (extract_name extinf))
      = false)%Z
  \/ ch_name (make_channel cfg src k extinf u) = "Channel_" +++ decimal k.
Proof.
  unfold make_channel. cbn [ch_name].
  set (name0 := str_or (extract_field extinf "tvg-name") (extract_name extinf)).
  destruct (is_empty name0) eqn:E; cbn [orb].
  - right. apply placeholder_stripped.
  - destruct (Z.ltb_spec (Z.of_nat (String.length (strip name0)))
                         (min_channel_name_length cfg)) as [Hlt|Hge].
    + right. apply placeholder_stripped.
    + left. now split.
Qed.

(** X11. Every channel that [parse_playlist] returns has a URL that starts
    with [http://], [https://], [rtmp://] or [rtsp://], has a stripped
    name, group and logo, and is tagged with the file it came from; a file
    that cannot be read gives no channel. *)
Theorem parse_playlist_channels_well_formed (cfg : config) (src : string)
    (file : option string) :
  Forall (fun c => has_stream_scheme (ch_url c) = true
                   /\ strip (ch_name c) = ch_name c
                   /\ strip (ch_group c) = ch_group c
                   /\ strip (ch_logo c) = ch_logo c
                   /\ ch_source_file c = Some src)
         (parse_playlist cfg src file)
  /\ parse_playlist cfg src None = [].
Proof.
  split; [|reflexivity]. destruct file as [written|]; [|constructor].
  unfold parse_playlist, parse_content. apply Forall_forall. intros c Hin.
  apply In_nth_error in Hin as [i Hi].
  apply parse_lines_nth in Hi as (extinf & u & Hu & Hs & ->).
  apply make_channel_fields; [|exact Hs].
  exact (proj1 (proj1 (Forall_forall _ _) (stripped_lines_facts _) u Hu)).
Qed.

(** X12. The [i]-th channel that [parse_playlist] returns has a name of at
    least [min_channel_name_length] characters, or it has the placeholder
    name [Channel_i]; so two placeholder names of one file are never
    equal. *)
Theorem parse_playlist_names (cfg : config) (src : string)
    (file : option string) (i : nat) (c : channel) :
  nth_error (parse_playlist cfg src file) i = Some c ->
  ((min_channel_name_length cfg <= Z.of_nat (String.length (ch_name c)))%Z
   \/ ch_name c = "Channel_" +++ decimal i)
  /\ forall j, "Channel_" +++ decimal i = "Channel_" +++ decimal j -> i = j.
Proof.
  intros Hi. split.
  - destruct file as [written|]; [|destruct i; discriminate].
    unfold parse_playlist, parse_content in Hi.
    apply parse_lines_nth in Hi as (extinf & u & _ & _ & ->). simpl.
    destruct (make_channel_name cfg src i extinf u) as [[H _]|H];
      [now left|now right].
  - intros j H. apply decimal_inj.
    apply (f_equal (drop 8)) in H. exact H.
Qed.

Lemma parse_playlist_names_witness :
  ((min_channel_name_length default_config
      <= Z.of_nat (String.length (ch_name (candidate "Two" "http://b/2"))))%Z
   \/ ch_name (candidate "Two" "http://b/2") = "Channel_" +++ decimal 1)
  /\ forall j, "Channel_" +++ decimal 1 = "Channel_" +++ decimal j -> 1 = j.
Proof.
  apply (parse_playlist_names default_config "a.m3u"
           (Some ("#EXTINF:-1,One" +++ nl +++ "http://a/1" +++ nl
                  +++ "#EXTINF:-1,Two" +++ nl +++ "http://b/2"))
           1 (candidate "Two" "http://b/2")).
  vm_compute. reflexivity.
Defined.

Lemma parse_lines_length (cfg : config) (src : string) (lines : list string)
    (pending : option string) (n : nat) :
  List.length (parse_lines cfg src pending n lines)
    <= (match pending with Some _ => 1 | None => 0 end)
       + List.length (filter (startswith "#EXTINF:") lines)
  /\ List.length (parse_lines cfg src pending n lines)
     <= List.length (filter has_stream_scheme lines).
Proof.
  revert pending n. induction lines as [|line rest IH]; intros pending n.
  - simpl. lia.
  - cbn [parse_lines filter]. destruct pending as [extinf|].
    + destruct (is_empty line || startswith "#" line).
      * destruct (IH (Some extinf) n) as [H1 H2].
        destruct (startswith "#EXTINF:" line), (has_stream_scheme line);
          cbn [List.length]; lia.
      * destruct (has_stream_scheme line).
        -- destruct (IH None (S n)) as [H1 H2].
           destruct (startswith "#EXTINF:" line); cbn [List.length]; lia.
        -- destruct (IH None n) as [H1 H2].
           destruct (startswith "#EXTINF:" line); cbn [List.length]; lia.
    + destruct (startswith "#EXTINF:" line).
      * destruct (IH (Some line) n) as [H1 H2].
        destruct (has_stream_scheme line); cbn [List.length]; lia.
      * destruct (IH None n) as [H1 H2].
        destruct (has_stream_scheme line); cbn [List.length]; lia.
Qed.

(** X13. [parse_playlist] returns at most one channel per [#EXTINF:] line
    and at most one per line with a stream scheme: an entry line without a
    URL after it is dropped, and no URL is used twice. A text without an
    [#EXTINF:] line gives no channel. *)
Theorem parse_content_count (cfg : config) (src content : string) :
  List.length (parse_content cfg src content)
    <= List.length (filter (startswith "#EXTINF:") (stripped_lines content))
  /\ List.length (parse_content cfg src content)
     <= List.length (filter has_stream_scheme (stripped_lines content))
  /\ (filter (startswith "#EXTINF:") (stripped_lines content) = [] ->
      parse_content cfg src content = []).
Proof.
  unfold parse_content.
  destruct (parse_lines_length cfg src (stripped_lines content) None 0)
    as [H1 H2].
  split; [exact H1|]. split; [exact H2|].
  intros Hnone. rewrite Hnone in H1.
  destruct (parse_lines cfg src None 0 (stripped_lines content));
    [reflexivity|simpl in H1; lia].
Qed.

Lemma parse_content_count_witness :
  parse_content default_config "a.m3u" ("#EXTM3U" +++ nl +++ "http://a/1") = [].
Proof.
  apply (proj2 (proj2 (parse_content_count default_config "a.m3u"
                         ("#EXTM3U" +++ nl +++ "http://a/1")))).
  reflexivity.
Defined.

(* ================================================================== *)
(** * More on [extract_field] and [extract_name]                       *)
(* ================================================================== *)

(** What the greedy star over characters other than the double quote can
    have consumed when the whole match succeeds. *)
Lemma star_value_no_dquote {R : Type} (s : string) (i : nat)
    (cap : option string) (k : nat -> string -> option string -> option R)
    (x : R) :
  rmatch (Star not_dquote) i s cap k = Some x ->
  exists n, has_char dquote (take n s) = false
            /\ k (i + n) (drop n s) cap = Some x.
Proof.
  revert i. induction s as [|c s IH]; intros i.
  - cbn [rmatch]. intros H. exists 0. rewrite Nat.add_0_r. now split.
  - cbn [rmatch]. intros H.
    assert (Hzero : k i (String c s) cap = Some x ->
              exists n, has_char dquote (take n (String c s)) = false
                        /\ k (i + n) (drop n (String c s)) cap = Some x).
    { intros Hk. exists 0. rewrite Nat.add_0_r. now split. }
    destruct (not_dquote c) eqn:Hc; [|now apply Hzero].
    match type of H with
    | match ?loop with _ => _ end = _ => destruct loop as [y|] eqn:Hloop
    end; [|now apply Hzero].
    injection H as ->.
    destruct (IH (S i) Hloop) as (n & Hn & Hk). exists (S n).
    cbn [take drop has_char]. unfold not_dquote in Hc.
    apply negb_true_iff in Hc. rewrite Ascii.eqb_sym in Hc. rewrite Hc, Hn.
    split; [reflexivity|]. now replace (i + S n) with (S i + n) by lia.
Qed.

Lemma match_at_field_capture (lit : string) (i : nat) (s : string)
    (m : nat * option string) :
  match_at (Cat (Lit lit)
                (Cat (Group (Star not_dquote)) (Lit (String dquote EmptyString))))
           i s = Some m ->
  has_char dquote (capture_of (Some m)) = false.
Proof.
  unfold match_at. rewrite rmatch_cat, rmatch_lit.
  destruct (startswith lit s); [|discriminate].
  rewrite rmatch_cat, rmatch_group. intros H.
  apply star_value_no_dquote in H as (n & Hn & H).
  rewrite rmatch_lit in H.
  destruct (startswith _ _); [|discriminate]. injection H as <-.
  cbn [capture_of].
  now replace (i + String.length lit + n - (i + String.length lit)) with n by lia.
Qed.

(** The search with a literal field name captures no double quote. *)
Lemma field_capture_no_dquote (extinf field : string) :
  has_char dquote (capture_of (re_search (field_pattern field) extinf)) = false.
Proof.
  unfold re_search, field_pattern.
  generalize 0. induction extinf as [|c s IH]; intros i; cbn [search_from].
  - destruct (match_at _ i EmptyString) as [m|] eqn:E; [|reflexivity].
    now apply match_at_field_capture in E.
  - destruct (match_at _ i (String c s)) as [m|] eqn:E; [|apply IH].
    now apply match_at_field_capture in E.
Qed.

(** X14. For the three field names that [parse_playlist] asks for,
    [tvg-name], [group-title] and [tvg-logo], [extract_field] never
    returns a text with a double quote in it, whatever the line; so the
    group and the logo of every channel that [parse_playlist] returns hold
    no double quote. *)
Theorem extract_field_has_no_double_quote (extinf : string) (cfg : config)
    (src : string) (file : option string) :
  has_char dquote (extract_field extinf "tvg-name") = false
  /\ has_char dquote (extract_field extinf "group-title") = false
  /\ has_char dquote (extract_field extinf "tvg-logo") = false
  /\ Forall (fun c => has_char dquote (ch_group c) = false
                       /\ has_char dquote (ch_logo c) = false)
            (parse_playlist cfg src file).
Proof.
  rewrite !extract_field_capture.
  split; [apply field_capture_no_dquote|].
  split; [apply field_capture_no_dquote|].
  split; [apply field_capture_no_dquote|].
  destruct file as [written|]; [|constructor].
  unfold parse_playlist, parse_content. apply Forall_forall. intros c Hin.
  apply In_nth_error in Hin as [i Hi].
  apply parse_lines_nth in Hi as (line & u & _ & _ & ->).
  unfold make_channel. cbn [ch_group ch_logo].
  rewrite !extract_field_capture. split; apply has_char_strip.
  - unfold str_or.
    destruct (is_empty (capture_of (re_search (field_pattern "group-title") line)));
      [reflexivity|apply field_capture_no_dquote].
  - apply field_capture_no_dquote.
Qed.

Lemma after_last_comma_no_comma (s t : string) :
  after_last_comma s = Some t -> has_char ","%char t = false.
Proof.
  revert t. induction s as [|c s IH]; intros t; [discriminate|].
  cbn [after_last_comma].
  destruct (after_last_comma s) as [r|] eqn:E.
  - intros [= <-]. now apply IH.
  - destruct (Ascii.eqb c ","%char); [|discriminate]. intros [= <-].
    clear IH. induction s as [|d s IHs]; [reflexivity|].
    cbn [after_last_comma] in E.
    destruct (after_last_comma s); [discriminate|].
    destruct (Ascii.eqb d ","%char) eqn:Hd; [discriminate|].
    cbn [has_char]. rewrite Ascii.eqb_sym, Hd. now apply IHs.
Qed.

Lemma after_last_comma_none (s : string) :
  has_char ","%char s = false -> after_last_comma s = None.
Proof.
  induction s as [|c s IH]; [reflexivity|]. cbn [has_char after_last_comma].
  intros H. apply orb_false_iff in H as [Hc Hs].
  rewrite (IH Hs), Ascii.eqb_sym, Hc. reflexivity.
Qed.

Lemma has_char_sub_from (c : ascii) (r : regex) (s : string) (skip i : nat) :
  has_char c s = false -> has_char c (sub_from r skip i s) = false.
Proof.
  revert skip i. induction s as [|d s IH]; intros skip i; [reflexivity|].
  cbn [has_char sub_from]. intros H. apply orb_false_iff in H as [Hd Hs].
  destruct skip as [|k]; [|now apply IH].
  destruct (match_at r i (String d s)) as [[j cap]|].
  - destruct (i <? j); [now apply IH|].
    cbn [has_char]. now rewrite Hd, IH.
  - cbn [has_char]. now rewrite Hd, IH.
Qed.

(** X15. The name that [extract_name] takes from an [#EXTINF] line holds
    no comma, and it is empty when the line has no comma at all. *)
Theorem extract_name_has_no_comma (extinf : string) :
  has_char ","%char (extract_name extinf) = false
  /\ (has_char ","%char extinf = false -> extract_name extinf = EmptyString).
Proof.
  unfold extract_name. split.
  - destruct (after_last_comma extinf) as [t|] eqn:E; [|reflexivity].
    apply has_char_sub_from, has_char_strip.
    now apply (after_last_comma_no_comma extinf).
  - intros H. now rewrite after_last_comma_none.
Qed.

Lemma extract_name_has_no_comma_witness :
  extract_name "#EXTINF:-1" = EmptyString.
Proof.
  apply (proj2 (extract_name_has_no_comma "#EXTINF:-1")). reflexivity.
Defined.

(* ================================================================== *)
(** * More on [load_playlist_urls]                                     *)
(* ================================================================== *)

Lemma universal_newlines_no_cr (s : string) :
  has_char CR (universal_newlines s) = false.
Proof.
  assert (H : forall n s, String.length s < n ->
                has_char CR (universal_newlines s) = false).
  { induction n as [|n IH]; intros t Hlen; [lia|].
    destruct t as [|c t]; [reflexivity|]. cbn [universal_newlines].
    simpl in Hlen.
    destruct (Ascii.eqb c CR) eqn:Hc.
    - destruct t as [|d t]; [reflexivity|]. simpl in Hlen.
      destruct (Ascii.eqb d LF); cbn [has_char];
        rewrite IH by (simpl; lia); reflexivity.
    - cbn [has_char]. rewrite Ascii.eqb_sym, Hc. apply IH. lia. }
  apply (H (S (String.length s))). lia.
Qed.

Lemma split_lines_has_char (c : ascii) (s : string) :
  has_char c s = false ->
  Forall (fun l => has_char c l = false) (split_lines s).
Proof.
  induction s as [|d s IH]; cbn [split_lines has_char];
    [repeat constructor|].
  intros H. apply orb_false_iff in H as [Hd Hs]. specialize (IH Hs).
  destruct (Ascii.eqb d LF); [constructor; [reflexivity|exact IH]|].
  destruct (split_lines s) as [|l ls].
  - repeat constructor. cbn [has_char]. now rewrite Hd.
  - inversion IH as [|? ? Hl Hls]; subst. constructor; [|exact Hls].
    cbn [has_char]. now rewrite Hd, Hl.
Qed.

(** X16. Every URL that [load_playlist_urls] returns is a stripped,
    non-empty line without line break that does not start with a hash
    sign; a missing [playlists.txt] gives the empty list. *)
Theorem load_playlist_urls_are_clean (e : env) :
  Forall (fun u => strip u = u /\ is_empty u = false
                   /\ startswith "#" u = false
                   /\ has_char LF u = false /\ has_char CR u = false)
         (load_playlist_urls e)
  /\ (playlists_txt e = None -> load_playlist_urls e = []).
Proof.
  unfold load_playlist_urls. split.
  - destruct (playlists_txt e) as [text|]; [|constructor].
    apply Forall_forall. intros u Hin.
    apply filter_In in Hin as [Hin Hf].
    apply andb_true_iff in Hf as [Hne Hhash].
    apply negb_true_iff in Hne, Hhash.
    apply in_map_iff in Hin as [l [<- Hin]].
    split; [apply strip_idempotent|]. split; [exact Hne|].
    split; [exact Hhash|]. split.
    + apply has_char_strip.
      exact (proj1 (Forall_forall _ _) (split_lines_no_lf _) l Hin).
    + apply has_char_strip.
      exact (proj1 (Forall_forall _ _)
               (split_lines_has_char CR _ (universal_newlines_no_cr text))
               l Hin).
  - now intros ->.
Qed.

Lemma load_playlist_urls_are_clean_witness :
  load_playlist_urls
    {| playlists_txt := None;
       http_get := fun _ _ _ => GetError;
       http_head := fun _ _ => HeadError;
       completion := fun n => seq 0 n;
       md5_hexdigest := fun _ => "d41d";
       generated := "2024-01-01 00:00:00";
       average_text := fun _ => "0.00" |} = [].
Proof.
  refine (proj2 (load_playlist_urls_are_clean _) _). reflexivity.
Defined.

(* ================================================================== *)
(** * More on sorting                                                  *)
(* ================================================================== *)

Lemma ascii_compare_lt_trans (a b c : ascii) :
  Ascii.compare a b = Lt -> Ascii.compare b c = Lt -> Ascii.compare a c = Lt.
Proof.
  unfold Ascii.compare. rewrite !N.compare_lt_iff. apply N.lt_trans.
Qed.

Lemma string_compare_lt_trans (a b c : string) :
  String.compare a b = Lt -> String.compare b c = Lt -> String.compare a c = Lt.
Proof.
  revert b c. induction a as [|x a IH]; intros [|y b] [|z c]; simpl;
    try discriminate; try reflexivity.
  destruct (Ascii.compare x y) eqn:Exy; try discriminate;
    destruct (Ascii.compare y z) eqn:Eyz; try discriminate; intros H1 H2.
  - apply Ascii.compare_eq_iff in Exy, Eyz. subst.
    assert (Hzz : Ascii.compare z z = Eq) by apply N.compare_refl.
    rewrite Hzz. now apply (IH b c).
  - apply Ascii.compare_eq_iff in Exy. subst. now rewrite Eyz.
  - apply Ascii.compare_eq_iff in Eyz. subst. now rewrite Exy.
  - now rewrite (ascii_compare_lt_trans x y z).
Qed.

Lemma string_ltb_asym (a b : string) :
  String.ltb a b = true -> String.ltb b a = false.
Proof.
  unfold String.ltb. rewrite (String.compare_antisym b a).
  now destruct (String.compare a b).
Qed.

Lemma string_ltb_false (a b : string) :
  String.ltb a b = false <-> a = b \/ String.ltb b a = true.
Proof.
  unfold String.ltb. rewrite (String.compare_antisym b a).
  destruct (String.compare a b) eqn:E; simpl; split; try tauto;
    try discriminate.
  - intros _. left. now apply String.compare_eq_iff.
  - intros [->|H]; [|discriminate].
    assert (Hbb : String.compare b b = Eq).
    { clear E. induction b as [|x b IHb]; [reflexivity|]. simpl.
      assert (Hxx : Ascii.compare x x = Eq) by apply N.compare_refl.
      now rewrite Hxx. }
    congruence.
Qed.

Lemma string_ltb_trans (a b c : string) :
  String.ltb a b = true -> String.ltb b c = true -> String.ltb a c = true.
Proof.
  unfold String.ltb.
  destruct (String.compare a b) eqn:E1; try discriminate.
  destruct (String.compare b c) eqn:E2; try discriminate.
  now rewrite (string_compare_lt_trans a b c).
Qed.

Lemma string_ltb_ntrans (a b c : string) :
  String.ltb a b = false -> String.ltb b c = false -> String.ltb a c = false.
Proof.
  rewrite !string_ltb_false. intros [->|H1] [->|H2]; auto.
  right. now apply (string_ltb_trans c b a).
Qed.

Lemma pair_ltb_asym (a b : string * string) :
  pair_ltb a b = true -> pair_ltb b a = false.
Proof.
  unfold pair_ltb. destruct a as [g1 n1], b as [g2 n2]. simpl.
  intros H. apply orb_true_iff in H as [H|H].
  - rewrite (string_ltb_asym _ _ H). simpl.
    destruct (String.eqb_spec g2 g1) as [->|_]; [|reflexivity].
    pose proof (string_ltb_asym _ _ H). congruence.
  - apply andb_true_iff in H as [Hg Hn]. apply String.eqb_eq in Hg. subst.
    rewrite String.eqb_refl, (string_ltb_asym _ _ Hn), andb_false_r, orb_false_r.
    destruct (String.ltb g2 g2) eqn:E; [|reflexivity].
    pose proof (string_ltb_asym _ _ E). congruence.
Qed.

Lemma pair_ltb_ntrans (a b c : string * string) :
  pair_ltb a b = false -> pair_ltb b c = false -> pair_ltb a c = false.
Proof.
  unfold pair_ltb. destruct a as [g1 n1], b as [g2 n2], c as [g3 n3]. simpl.
  intros H1 H2.
  apply orb_false_iff in H1 as [H1 H1'], H2 as [H2 H2'].
  apply orb_false_iff. split; [now apply (string_ltb_ntrans g1 g2 g3)|].
  destruct (String.eqb_spec g1 g3) as [->|_]; [|reflexivity]. simpl.
  apply string_ltb_false in H1 as [->|H1].
  - rewrite String.eqb_refl in H1', H2'. simpl in *.
    now apply (string_ltb_ntrans n1 n2 n3).
  - apply string_ltb_false in H2 as [->|H2].
    + pose proof (string_ltb_asym _ _ H1) as Hc. congruence.
    + pose proof (string_ltb_asym _ _ H1) as Hc. congruence.
Qed.

Lemma lat_ltb_asym (a b : latency) : lat_ltb a b = true -> lat_ltb b a = false.
Proof.
  intros H. destruct (lat_ltb b a) eqn:E; [|reflexivity].
  now elim (lat_lt_asym a b H).
Qed.

Lemma lat_ltb_ntrans (a b c : latency) :
  lat_ltb a b = false -> lat_ltb b c = false -> lat_ltb a c = false.
Proof.
  destruct a as [x|], b as [y|], c as [z|]; simpl; try discriminate;
    try reflexivity.
  rewrite !Z.ltb_ge. lia.
Qed.

Section Ascending.

Context {K : Type} (ltb : K -> K -> bool) (key : entry -> K).

Hypothesis ltb_asym : forall a b, ltb a b = true -> ltb b a = false.
Hypothesis ltb_ntrans :
  forall a b c, ltb a b = false -> ltb b c = false -> ltb a c = false.

Lemma ascending_insert (x : entry) (l : list entry) :
  ascending_by ltb key l -> ascending_by ltb key (insert_by ltb key x l).
Proof.
  induction l as [|y l IH]; simpl.
  - intros _. split; [intros d []|exact I].
  - intros [Hy Hl]. destruct (ltb (key y) (key x)) eqn:E; simpl.
    + split; [|now apply IH]. intros d Hd.
      apply (Permutation_in _ (insert_by_perm ltb key x l)) in Hd.
      destruct Hd as [<-|Hd]; [now apply ltb_asym|now apply Hy].
    + split; [|split; assumption].
      intros d [<-|Hd]; [assumption|].
      apply (ltb_ntrans _ (key y)); [now apply Hy|assumption].
Qed.

Lemma sorted_by_ascending (l : list entry) :
  ascending_by ltb key (sorted_by ltb key l).
Proof.
  unfold sorted_by. induction l as [|x l IH]; simpl; [exact I|].
  now apply ascending_insert.
Qed.

End Ascending.

(** The stable sort leaves a list alone that is in order already. *)
Lemma sorted_by_fixed {K : Type} (ltb : K -> K -> bool) (key : entry -> K)
    (l : list entry) :
  ascending_by ltb key l -> sorted_by ltb key l = l.
Proof.
  unfold sorted_by. induction l as [|x l IH]; [reflexivity|].
  intros [Hx Hl]. cbn [fold_right]. rewrite (IH Hl).
  destruct l as [|y l]; [reflexivity|]. cbn [insert_by].
  now rewrite (Hx y (or_introl eq_refl)).
Qed.

Lemma sort_channels_ascending (cfg : config) (cs : list entry) :
  method_ascending (sorting cfg) (sort_channels cfg cs).
Proof.
  unfold method_ascending, sort_channels, sort_by_method.
  destruct (String.eqb_spec (sorting cfg) "ping") as [->|_].
  - simpl. apply sorted_by_ascending; [apply lat_ltb_asym|apply lat_ltb_ntrans].
  - destruct (String.eqb (sorting cfg) "name").
    + apply sorted_by_ascending; [apply string_ltb_asym|apply string_ltb_ntrans].
    + destruct (String.eqb (sorting cfg) "group").
      * apply sorted_by_ascending; [apply pair_ltb_asym|apply pair_ltb_ntrans].
      * apply sorted_by_ascending; [apply lat_ltb_asym|apply lat_ltb_ntrans].
Qed.

Lemma sort_channels_fixed (cfg : config) (cs : list entry) :
  method_ascending (sorting cfg) cs -> sort_channels cfg cs = cs.
Proof.
  unfold method_ascending, sort_channels, sort_by_method.
  destruct (String.eqb_spec (sorting cfg) "ping") as [->|_].
  - simpl. apply sorted_by_fixed.
  - destruct (String.eqb (sorting cfg) "name"); [apply sorted_by_fixed|].
    destruct (String.eqb (sorting cfg) "group"); apply sorted_by_fixed.
Qed.

(** X17. Whatever the configured method, [sort_channels] returns the same
    channels, each as often as before: nothing is lost or doubled on the
    way to the output file. *)
Theorem sort_channels_keeps_channels (cfg : config) (cs : list entry) :
  Permutation (sort_channels cfg cs) cs
  /\ List.length (sort_channels cfg cs) = List.length cs
  /\ forall c, In c (sort_channels cfg cs) <-> In c cs.
Proof.
  pose proof (sort_channels_perm cfg cs) as H. split; [exact H|]. split.
  - now apply Permutation_length.
  - intros c. split; apply Permutation_in; [exact H|now apply Permutation_sym].
Qed.

(** X18. [sort_channels] returns the channels in the order that the
    configured method asks for: by lower-cased name for [name], by group
    and then lower-cased name for [group], by ping otherwise; no channel
    stands after one with a strictly greater key. *)
Theorem sort_channels_in_order (cfg : config) (cs : list entry) :
  method_ascending (sorting cfg) (sort_channels cfg cs).
Proof. exact (sort_channels_ascending cfg cs). Qed.

Section StableFilter.

Context {K : Type} (ltb : K -> K -> bool) (key : entry -> K).

(** [P] picks channels of one rank: none of them has a strictly smaller
    key than another. *)
Variable P : entry -> bool.
Hypothesis P_one_rank :
  forall x y, P x = true -> P y = true -> ltb (key y) (key x) = false.

Lemma insert_by_filter (x : entry) (l : list entry) :
  filter P (insert_by ltb key x l) = filter P (x :: l).
Proof.
  induction l as [|y l IH]; [reflexivity|]. cbn [insert_by].
  destruct (ltb (key y) (key x)) eqn:E; [|reflexivity].
  cbn [filter] in IH |- *. rewrite IH.
  destruct (P x) eqn:Px; [|reflexivity].
  destruct (P y) eqn:Py; [|reflexivity].
  rewrite (P_one_rank x y Px Py) in E. discriminate.
Qed.

Lemma sorted_by_filter (l : list entry) :
  filter P (sorted_by ltb key l) = filter P l.
Proof.
  unfold sorted_by. induction l as [|x l IH]; [reflexivity|].
  cbn [fold_right]. rewrite insert_by_filter. cbn [filter]. now rewrite IH.
Qed.

End StableFilter.

Lemma string_ltb_irrefl (a : string) : String.ltb a a = false.
Proof.
  destruct (String.ltb a a) eqn:E; [|reflexivity].
  pose proof (string_ltb_asym _ _ E). congruence.
Qed.

Lemma pair_ltb_irrefl (a : string * string) : pair_ltb a a = false.
Proof.
  destruct (pair_ltb a a) eqn:E; [|reflexivity].
  pose proof (pair_ltb_asym _ _ E). congruence.
Qed.

Lemma lat_ltb_irrefl (a : latency) : lat_ltb a a = false.
Proof.
  destruct (lat_ltb a a) eqn:E; [now elim (lat_lt_irrefl a)|reflexivity].
Qed.

Lemma lat_eqb_eq (a b : latency) : lat_eqb a b = true -> a = b.
Proof.
  destruct a as [x|], b as [y|]; simpl; try discriminate; try reflexivity.
  intros H. apply Z.eqb_eq in H. now subst.
Qed.

Lemma sort_channels_filter_same_key (cfg : config) (cs : list entry)
    (c : entry) :
  filter (same_key (sorting cfg) c) (sort_channels cfg cs)
  = filter (same_key (sorting cfg) c) cs.
Proof.
  assert (Hping : forall x y,
            lat_eqb (ping x) (ping c) = true ->
            lat_eqb (ping y) (ping c) = true ->
            lat_ltb (ping y) (ping x) = false).
  { intros x y Hx Hy. apply lat_eqb_eq in Hx, Hy. rewrite Hx, Hy.
    apply lat_ltb_irrefl. }
  unfold same_key, sort_channels, sort_by_method.
  destruct (String.eqb_spec (sorting cfg) "ping") as [->|_].
  - simpl. now apply sorted_by_filter.
  - destruct (String.eqb (sorting cfg) "name").
    + apply sorted_by_filter. intros x y Hx Hy.
      apply String.eqb_eq in Hx, Hy. rewrite Hx, Hy. apply string_ltb_irrefl.
    + destruct (String.eqb (sorting cfg) "group").
      * apply sorted_by_filter. intros x y Hx Hy.
        apply andb_true_iff in Hx as [Hx1 Hx2], Hy as [Hy1 Hy2].
        apply String.eqb_eq in Hx1, Hx2, Hy1, Hy2.
        rewrite Hx1, Hx2, Hy1, Hy2. apply pair_ltb_irrefl.
      * now apply sorted_by_filter.
Qed.

(** X19. [sort_channels] is stable: for every input and every method, the
    channels that share a sort key come out in the order in which they
    went in. A list that is in the configured order already comes back
    unchanged, and sorting a sorted list changes nothing. *)
Theorem sort_channels_stable (cfg : config) (cs : list entry) :
  (forall c, filter (same_key (sorting cfg) c) (sort_channels cfg cs)
             = filter (same_key (sorting cfg) c) cs)
  /\ (method_ascending (sorting cfg) cs -> sort_channels cfg cs = cs)
  /\ sort_channels cfg (sort_channels cfg cs) = sort_channels cfg cs.
Proof.
  split; [apply sort_channels_filter_same_key|].
  split; [apply sort_channels_fixed|].
  apply sort_channels_fixed, sort_channels_ascending.
Qed.

(** Sorted by name, [beta] moves behind the two channels whose names
    differ in case only, and these two keep their order; the list that is
    in order comes back as it is. *)
Lemma sort_channels_stable_witness :
  filter (same_key "name" (channel_in "ALPHA" "http://a/0" "News" 0))
         (sort_channels by_name_config
            [channel_in "beta" "http://b/1" "News" 20;
             channel_in "alpha" "http://a/1" "News" 30;
             channel_in "Alpha" "http://a/2" "News" 10])
  = [channel_in "alpha" "http://a/1" "News" 30;
     channel_in "Alpha" "http://a/2" "News" 10]
  /\ sort_channels by_name_config
       [channel_in "alpha" "http://a/1" "News" 30;
        channel_in "Alpha" "http://a/2" "News" 10;
        channel_in "beta" "http://b/1" "News" 20]
     = [channel_in "alpha" "http://a/1" "News" 30;
        channel_in "Alpha" "http://a/2" "News" 10;
        channel_in "beta" "http://b/1" "News" 20].
Proof.
  split.
  - exact (proj1 (sort_channels_stable by_name_config
             [channel_in "beta" "http://b/1" "News" 20;
              channel_in "alpha" "http://a/1" "News" 30;
              channel_in "Alpha" "http://a/2" "News" 10])
             (channel_in "ALPHA" "http://a/0" "News" 0)).
  - apply (proj1 (proj2 (sort_channels_stable by_name_config _))).
    unfold method_ascending. simpl.
    repeat split; intros d Hd; repeat destruct Hd as [<-|Hd];
      try reflexivity; destruct Hd.
Defined.

(* ================================================================== *)
(** * More on [generate_playlist]                                      *)
(* ================================================================== *)

Lemma split_lines_nl (a b : string) :
  has_char LF a = false -> split_lines (a +++ nl +++ b) = a :: split_lines b.
Proof. intros H. unfold nl. now apply split_lines_line. Qed.

(** X20. When the registry holds a channel, [generate_playlist] leaves the
    registry as it is and writes the output file once; the file starts
    with [#EXTM3U], the timestamp line and a [# Total channels:] line that
    gives the number of registry entries. *)
Theorem generate_playlist_header (cfg : config) (e : env) (st : state) :
  channels_db st <> [] ->
  has_char LF (generated e) = false ->
  channels_db (generate_playlist cfg e st) = channels_db st
  /\ output_writes (generate_playlist cfg e st) = S (output_writes st)
  /\ exists text,
       output_file (generate_playlist cfg e st) = Some text
       /\ firstn 3 (split_lines text)
          = ["#EXTM3U";
             "# Generated: " +++ generated e;
             "# Total channels: "
               +++ decimal (List.length (channels_db st))].
Proof.
  intros Hne Hg. split; [apply generate_playlist_db|].
  unfold generate_playlist. destruct (channels_db st) as [|ke db] eqn:E;
    [now elim Hne|]. cbn [output_writes output_file]. split; [reflexivity|].
  eexists. split; [reflexivity|].
  rewrite playlist_text_unlines. unfold header_lines. cbn [app unlines].
  rewrite split_lines_nl by reflexivity.
  rewrite split_lines_nl
    by (rewrite has_char_append; now rewrite Hg).
  rewrite split_lines_nl
    by (rewrite has_char_append, has_char_decimal by (now left); reflexivity).
  cbn [firstn]. f_equal. f_equal. f_equal. f_equal. f_equal.
  rewrite (Permutation_length (sort_channels_perm cfg _)).
  unfold db_values. now rewrite length_map.
Qed.

Lemma generate_playlist_header_witness :
  channels_db (generate_playlist default_config serving_env
                 {| channels_db := [("one", channel_in "One" "http://a/1" "News" 10)];
                    output_file := None; output_writes := 0 |})
  = [("one", channel_in "One" "http://a/1" "News" 10)]
  /\ output_writes (generate_playlist default_config serving_env
                 {| channels_db := [("one", channel_in "One" "http://a/1" "News" 10)];
                    output_file := None; output_writes := 0 |}) = 1
  /\ exists text,
       output_file (generate_playlist default_config serving_env
                 {| channels_db := [("one", channel_in "One" "http://a/1" "News" 10)];
                    output_file := None; output_writes := 0 |}) = Some text
       /\ firstn 3 (split_lines text)
          = ["#EXTM3U";
             "# Generated: " +++ generated serving_env;
             "# Total channels: " +++ decimal 1].
Proof.
  apply (generate_playlist_header default_config serving_env
           {| channels_db := [("one", channel_in "One" "http://a/1" "News" 10)];
              output_file := None; output_writes := 0 |});
    [discriminate|reflexivity].
Defined.

(* ================================================================== *)
(** * [get_request_timeout]                                            *)
(* ================================================================== *)

Lemma timeout_for_existsb (o : timeout_options) (domains : list string)
    (url : string) :
  timeout_for o domains url
  = if existsb (fun d => contains d url) domains
    then (problematic_domains_timeout o, problematic_domains_timeout o)
    else (connection_timeout o, read_timeout o).
Proof.
  induction domains as [|d ds IH]; [reflexivity|]. cbn [timeout_for existsb].
  destruct (contains d url); [reflexivity|exact IH].
Qed.

(** X21. [get_request_timeout] gives the problematic timeout for both legs
    exactly when some configured domain occurs in the URL, and the pair of
    connection and read timeout otherwise; the order of the configured
    domains does not matter, and an empty string among them makes every
    URL problematic. *)
Theorem get_request_timeout_tiers (o : timeout_options) (url : string) :
  ((exists d, In d (problematic_domains o) /\ contains d url = true) ->
     get_request_timeout o url
     = (problematic_domains_timeout o, problematic_domains_timeout o))
  /\ ((forall d, In d (problematic_domains o) -> contains d url = false) ->
      get_request_timeout o url = (connection_timeout o, read_timeout o))
  /\ (forall domains, Permutation (problematic_domains o) domains ->
      timeout_for o domains url = get_request_timeout o url)
  /\ (In EmptyString (problematic_domains o) ->
      get_request_timeout o url
      = (problematic_domains_timeout o, problematic_domains_timeout o)).
Proof.
  unfold get_request_timeout.
  assert (Hyes : (exists d, In d (problematic_domains o)
                            /\ contains d url = true) ->
                 timeout_for o (problematic_domains o) url
                 = (problematic_domains_timeout o, problematic_domains_timeout o)).
  { intros H. rewrite timeout_for_existsb.
    now rewrite (proj2 (existsb_exists _ _) H). }
  split; [exact Hyes|]. split; [|split].
  - intros H. rewrite timeout_for_existsb.
    destruct (existsb _ _) eqn:E; [|reflexivity].
    apply existsb_exists in E as (d & Hin & Hd). rewrite (H d Hin) in Hd.
    discriminate.
  - intros domains Hperm. rewrite !timeout_for_existsb.
    destruct (existsb (fun d => contains d url) (problematic_domains o)) eqn:E.
    + apply existsb_exists in E as (d & Hin & Hd).
      apply (Permutation_in _ Hperm) in Hin.
      now rewrite (proj2 (existsb_exists _ _) (ex_intro _ d (conj Hin Hd))).
    + destruct (existsb (fun d => contains d url) domains) eqn:E';
        [|reflexivity].
      apply existsb_exists in E' as (d & Hin & Hd).
      apply (Permutation_in _ (Permutation_sym Hperm)) in Hin.
      rewrite (proj2 (existsb_exists _ _) (ex_intro _ d (conj Hin Hd))) in E.
      discriminate.
  - intros Hin. apply Hyes. exists EmptyString. split; [exact Hin|].
    now destruct url.
Qed.

Lemma get_request_timeout_tiers_witness :
  get_request_timeout default_timeouts "https://vk.com/video/1" = (8, 8)%Z.
Proof.
  apply (proj1 (get_request_timeout_tiers default_timeouts
                  "https://vk.com/video/1")).
  exists "vk.com". split; [simpl; tauto|reflexivity].
Defined.

(* ================================================================== *)
(** * [cleanup_old_backups]                                            *)
(* ================================================================== *)

Lemma insert_on_perm {A K : Type} (ltb : K -> K -> bool) (key : A -> K)
    (x : A) (l : list A) :
  Permutation (insert_on ltb key x l) (x :: l).
Proof.
  induction l as [|y l IH]; simpl; [reflexivity|].
  destruct (ltb (key y) (key x)); [|reflexivity].
  rewrite IH. apply perm_swap.
Qed.

Lemma sorted_on_perm {A K : Type} (ltb : K -> K -> bool) (key : A -> K)
    (l : list A) :
  Permutation (sorted_on ltb key l) l.
Proof.
  unfold sorted_on. induction l as [|x l IH]; simpl; [reflexivity|].
  rewrite insert_on_perm. now constructor.
Qed.

(** Oldest first: every file is no newer than the files after it. *)
Lemma sorted_on_mtime (l : list dir_entry) :
  forall a b rest front,
    sorted_on Z.ltb snd l = front ++ a :: rest -> In b rest ->
    (snd a <= snd b)%Z.
Proof.
  assert (Hsorted : forall l : list dir_entry,
            ForallOrdPairs (fun a b => (snd a <= snd b)%Z)
                           (sorted_on Z.ltb snd l)).
  { clear l. intros l. unfold sorted_on.
    induction l as [|x l IH]; simpl; [constructor|].
    revert IH. generalize (fold_right (insert_on Z.ltb snd) [] l).
    intros s Hs. induction Hs as [|y s Hy Hs IH]; simpl.
    - constructor; [constructor|constructor].
    - destruct (Z.ltb_spec (snd y) (snd x)) as [Hlt|Hge].
      + constructor; [|exact IH].
        apply Forall_forall. intros d Hd.
        apply (Permutation_in _ (insert_on_perm Z.ltb snd x s)) in Hd.
        destruct Hd as [<-|Hd]; [lia|].
        exact (proj1 (Forall_forall _ _) Hy d Hd).
      + constructor; [|now constructor].
        constructor; [exact Hge|].
        apply Forall_forall. intros d Hd.
        pose proof (proj1 (Forall_forall _ _) Hy d Hd) as Hyd.
        simpl in Hyd. lia. }
  intros a b rest front Heq Hb. specialize (Hsorted l). rewrite Heq in Hsorted.
  clear Heq. induction front as [|f front IH]; simpl in Hsorted.
  - inversion Hsorted as [|? ? Ha _]; subst.
    exact (proj1 (Forall_forall _ _) Ha b Hb).
  - inversion Hsorted; subst. now apply IH.
Qed.

Lemma cleanup_loop_split (max_backups : Z) (files : list dir_entry) :
  fst (cleanup_loop max_backups files) ++ snd (cleanup_loop max_backups files)
  = files.
Proof.
  induction files as [|f files IH]; [reflexivity|]. cbn [cleanup_loop].
  destruct (Z.of_nat (List.length (f :: files)) >? max_backups)%Z;
    [|reflexivity].
  destruct (cleanup_loop max_backups files) as [removed kept]. simpl in *.
  now rewrite IH.
Qed.

Lemma cleanup_loop_kept (max_backups : Z) (files : list dir_entry) :
  List.length (snd (cleanup_loop max_backups files))
  = Nat.min (List.length files) (Z.to_nat max_backups).
Proof.
  induction files as [|f files IH]; [reflexivity|]. cbn [cleanup_loop].
  destruct (Z.gtb_spec (Z.of_nat (List.length (f :: files))) max_backups)
    as [Hgt|Hle].
  - destruct (cleanup_loop max_backups files) as [removed kept].
    cbn [snd List.length] in *. rewrite IH. lia.
  - cbn [snd List.length] in *. lia.
Qed.

(** X22. [cleanup_old_backups] removes backups oldest first until at most
    [max_backup_files] are left: what it removes and what it keeps are
    together the backups of the directory, it keeps the smaller of their
    number and the maximum (none for a maximum below one), every file it
    removes is no newer than every file it keeps, and a file that does not
    have the name of a backup is never removed. *)
Theorem cleanup_old_backups_keeps_newest (max_backup_files : Z)
    (listing : list dir_entry) :
  Permutation (fst (cleanup_old_backups max_backup_files listing)
               ++ snd (cleanup_old_backups max_backup_files listing))
              (filter (fun f => is_backup_name (fst f)) listing)
  /\ List.length (snd (cleanup_old_backups max_backup_files listing))
     = Nat.min (List.length (filter (fun f => is_backup_name (fst f)) listing))
               (Z.to_nat max_backup_files)
  /\ (forall a b,
        In a (fst (cleanup_old_backups max_backup_files listing)) ->
        In b (snd (cleanup_old_backups max_backup_files listing)) ->
        (snd a <= snd b)%Z)
  /\ Forall (fun f => is_backup_name (fst f) = true /\ In f listing)
            (fst (cleanup_old_backups max_backup_files listing)).
Proof.
  unfold cleanup_old_backups.
  set (files := filter (fun f => is_backup_name (fst f)) listing).
  pose proof (cleanup_loop_split max_backup_files (sorted_on Z.ltb snd files))
    as Hsplit.
  pose proof (sorted_on_perm Z.ltb snd files) as Hperm.
  split; [now rewrite Hsplit|]. split; [|split].
  - rewrite cleanup_loop_kept. f_equal. exact (Permutation_length Hperm).
  - intros a b Ha Hb. apply in_split in Ha as (front & rest & Ha).
    rewrite Ha, <- app_assoc in Hsplit. cbn [app] in Hsplit.
    apply (sorted_on_mtime files a b _ front (eq_sym Hsplit)).
    apply in_or_app. now right.
  - apply Forall_forall. intros f Hf.
    assert (Hin : In f files).
    { apply (Permutation_in _ Hperm). rewrite <- Hsplit.
      apply in_or_app. now left. }
    unfold files in Hin. apply filter_In in Hin as [Hin Hname]. now split.
Qed.

(* ================================================================== *)
(** * [generate_stats]                                                 *)
(* ================================================================== *)

Lemma count_get_up (k k' : string) (d : list (string * nat)) :
  count_get k (count_up k' d)
  = if String.eqb k k' then S (count_get k d) else count_get k d.
Proof.
  induction d as [|[k0 n] d IH]; simpl.
  - now destruct (String.eqb k k').
  - destruct (String.eqb_spec k' k0) as [->|Hne]; simpl.
    + now destruct (String.eqb k k0).
    + rewrite IH. destruct (String.eqb_spec k k0) as [->|_]; [|reflexivity].
      destruct (String.eqb_spec k0 k'); [congruence|reflexivity].
Qed.

Lemma count_total_up (k : string) (d : list (string * nat)) :
  count_total (count_up k d) = S (count_total d).
Proof.
  induction d as [|[k0 n] d IH]; simpl; [reflexivity|].
  destruct (String.eqb k k0); simpl; [reflexivity|]. rewrite IH. lia.
Qed.

Lemma count_fold (f : entry -> string) (cs : list entry)
    (d : list (string * nat)) (k : string) :
  count_get k (fold_left (fun d c => count_up (f c) d) cs d)
  = count_get k d + count_channels (fun c => String.eqb k (f c)) cs
  /\ count_total (fold_left (fun d c => count_up (f c) d) cs d)
     = count_total d + List.length cs.
Proof.
  unfold count_channels. revert d.
  induction cs as [|c cs IH]; intros d; simpl; [split; lia|].
  destruct (IH (count_up (f c) d)) as [H1 H2].
  rewrite H1, H2, count_get_up, count_total_up.
  destruct (String.eqb k (f c)); simpl; split; lia.
Qed.

(** X23. The counters of [generate_stats] add up: the count stored for a
    group (or a source) is the number of channels of that group (or
    source), zero standing for a key that is absent, and the counts of all
    groups, like those of all sources, sum to [total_channels]. *)
Theorem generate_stats_counts (channels : list entry) (k : string) :
  count_get k (groups (generate_stats channels))
    = count_channels (fun c => String.eqb k (group c)) channels
  /\ count_get k (sources (generate_stats channels))
     = count_channels (fun c => String.eqb k (source c)) channels
  /\ count_total (groups (generate_stats channels))
     = total_channels (generate_stats channels)
  /\ count_total (sources (generate_stats channels))
     = total_channels (generate_stats channels)
  /\ total_channels (generate_stats channels) = List.length channels.
Proof.
  unfold generate_stats. cbn [groups sources total_channels].
  destruct (count_fold group channels [] k) as [H1 H2].
  destruct (count_fold source channels [] k) as [H3 H4].
  rewrite H1, H2, H3, H4. simpl. repeat split; reflexivity.
Qed.

Lemma min_fold_bound (cs : list entry) (m : latency) :
  let r := fold_left (fun m x => if lat_ltb (ping x) m then ping x else m) cs m in
  lat_ltb m r = false
  /\ Forall (fun c => lat_ltb (ping c) r = false) cs
  /\ (r = m \/ exists c, In c cs /\ ping c = r).
Proof.
  revert m. induction cs as [|c cs IH]; intros m; simpl.
  - split; [|split; [constructor|now left]].
    destruct (lat_ltb m m) eqn:E; [now elim (lat_lt_irrefl m)|reflexivity].
  - destruct (lat_ltb (ping c) m) eqn:E.
    + destruct (IH (ping c)) as (H1 & H2 & H3). split; [|split].
      * destruct (lat_ltb m _) eqn:E'; [|reflexivity].
        pose proof (lat_lt_trans _ _ _ E E') as Hc.
        unfold lat_lt in Hc. congruence.
      * constructor; assumption.
      * right. destruct H3 as [->|(d & Hd & <-)];
          [exists c; split; [now left|reflexivity]
          |exists d; split; [now right|reflexivity]].
    + destruct (IH m) as (H1 & H2 & H3). split; [exact H1|]. split.
      * constructor; [|exact H2].
        apply (lat_ltb_ntrans _ m); assumption.
      * destruct H3 as [->|(d & Hd & <-)]; [now left|].
        right. exists d. split; [now right|reflexivity].
Qed.

Lemma max_fold_bound (cs : list entry) (m : latency) :
  let r := fold_left (fun m x => if lat_ltb m (ping x) then ping x else m) cs m in
  lat_ltb r m = false
  /\ Forall (fun c => lat_ltb r (ping c) = false) cs
  /\ (r = m \/ exists c, In c cs /\ ping c = r).
Proof.
  revert m. induction cs as [|c cs IH]; intros m; simpl.
  - split; [|split; [constructor|now left]].
    destruct (lat_ltb m m) eqn:E; [now elim (lat_lt_irrefl m)|reflexivity].
  - destruct (lat_ltb m (ping c)) eqn:E.
    + destruct (IH (ping c)) as (H1 & H2 & H3). split; [|split].
      * destruct (lat_ltb _ m) eqn:E'; [|reflexivity].
        pose proof (lat_lt_trans _ _ _ E' E) as Hc.
        unfold lat_lt in Hc. congruence.
      * constructor; assumption.
      * right. destruct H3 as [->|(d & Hd & <-)];
          [exists c; split; [now left|reflexivity]
          |exists d; split; [now right|reflexivity]].
    + destruct (IH m) as (H1 & H2 & H3). split; [exact H1|]. split.
      * constructor; [|exact H2].
        apply (lat_ltb_ntrans _ m); assumption.
      * destruct H3 as [->|(d & Hd & <-)]; [now left|].
        right. exists d. split; [now right|reflexivity].
Qed.

(** X24. For a list with at least one channel, [min_ping] and [max_ping]
    of [generate_stats] are pings of channels of the list, no channel is
    faster than [min_ping] and none is slower than [max_ping]; for the
    empty list both are 0. *)
Theorem generate_stats_ping_range (channels : list entry) :
  (channels <> [] ->
     (exists c, In c channels /\ ping c = min_ping (generate_stats channels))
     /\ (exists c, In c channels /\ ping c = max_ping (generate_stats channels))
     /\ Forall (fun c =>
          lat_ltb (ping c) (min_ping (generate_stats channels)) = false
          /\ lat_ltb (max_ping (generate_stats channels)) (ping c) = false)
        channels)
  /\ (channels = [] ->
      min_ping (generate_stats channels) = Finite 0
      /\ max_ping (generate_stats channels) = Finite 0).
Proof.
  split; [|now intros ->].
  destruct channels as [|c cs]; [now intros H; elim H|]. intros _.
  unfold generate_stats. cbn [min_ping max_ping min_ping_of max_ping_of].
  destruct (min_fold_bound cs (ping c)) as (A1 & A2 & A3).
  destruct (max_fold_bound cs (ping c)) as (B1 & B2 & B3).
  split; [|split].
  - destruct A3 as [A3|(d & Hd & A3)];
      [exists c; split; [now left|now rewrite A3]
      |exists d; split; [now right|exact A3]].
  - destruct B3 as [B3|(d & Hd & B3)];
      [exists c; split; [now left|now rewrite B3]
      |exists d; split; [now right|exact B3]].
  - constructor; [now split|].
    apply Forall_forall. intros d Hd. split.
    + exact (proj1 (Forall_forall _ _) A2 d Hd).
    + exact (proj1 (Forall_forall _ _) B2 d Hd).
Qed.

Lemma generate_stats_ping_range_witness :
  (exists c, In c three_groups /\ ping c = min_ping (generate_stats three_groups))
  /\ (exists c, In c three_groups /\ ping c = max_ping (generate_stats three_groups))
  /\ Forall (fun c =>
       lat_ltb (ping c) (min_ping (generate_stats three_groups)) = false
       /\ lat_ltb (max_ping (generate_stats three_groups)) (ping c) = false)
     three_groups.
Proof.
  apply (proj1 (generate_stats_ping_range three_groups)). discriminate.
Defined.

Lemma cleanup_old_backups_keeps_newest_witness :
  List.length (snd (cleanup_old_backups 5 seven_backups)) = 5
  /\ map fst (fst (cleanup_old_backups 5 seven_backups))
     = ["playlist_backup_20240101_000000.m3u";
        "playlist_backup_20240102_000000.m3u"].
Proof.
  split; [|reflexivity].
  exact (proj1 (proj2 (cleanup_old_backups_keeps_newest 5 seven_backups))).
Defined.

(* ================================================================== *)
(** * More on the cycle and on the key                                 *)
(* ================================================================== *)

(** X25. A cycle opens the output file for writing at most once, and
    exactly when the registry holds a channel after the processing step;
    what it then writes is the rendering of the sorted registry, and an
    empty registry leaves the file as it was. *)
Theorem run_cycle_writes_once (cfg : config) (e : env) (st : state) :
  (channels_db (run_cycle cfg e st) = [] ->
     output_writes (run_cycle cfg e st) = output_writes st
     /\ output_file (run_cycle cfg e st) = output_file st)
  /\ (channels_db (run_cycle cfg e st) <> [] ->
      output_writes (run_cycle cfg e st) = S (output_writes st)
      /\ output_file (run_cycle cfg e st)
         = Some (playlist_text (generated e)
                   (average_text e
                      (sort_channels cfg (db_values (channels_db (run_cycle cfg e st)))))
                   (sort_channels cfg (db_values (channels_db (run_cycle cfg e st)))))).
Proof.
  unfold run_cycle. rewrite generate_playlist_db.
  destruct (process_playlists_output cfg e st) as [Hf Hw].
  unfold generate_playlist.
  destruct (channels_db (process_playlists cfg e st)) as [|ke db] eqn:E.
  - split; [intros _; now split|]. intros H. now elim H.
  - split; [discriminate|]. intros _. cbn [output_writes output_file].
    now rewrite Hw.
Qed.

Lemma run_cycle_writes_once_witness :
  output_writes (run_cycle default_config offline_env (initial_state None)) = 0
  /\ output_file (run_cycle default_config offline_env (initial_state None))
     = None.
Proof.
  apply (proj1 (run_cycle_writes_once default_config offline_env
                  (initial_state None))).
  reflexivity.
Defined.

(** X26. Merging the same result a second time changes nothing: a ping is
    not strictly lower than itself, so a repeated observation never
    replaces the stored entry. *)
Theorem merge_twice_is_merge_once (cfg : config) (db : registry)
    (r : probe_result) :
  merge cfg (merge cfg db r) r = merge cfg db r.
Proof.
  destruct r as [[c p] [|]]; [|reflexivity]. unfold merge, update_channel_db.
  destruct (remove_duplicates cfg); [|reflexivity].
  assert (Hirr : lat_ltb p p = false).
  { destruct (lat_ltb p p) eqn:E; [now elim (lat_lt_irrefl p)|reflexivity]. }
  destruct (db_get (normalize (ch_name c)) db) as [old|] eqn:Hold.
  - destruct (lat_ltb p (ping old)) eqn:Hlt.
    + rewrite db_get_set_same. cbn [ping registry_entry]. now rewrite Hirr.
    + now rewrite Hold, Hlt.
  - rewrite db_get_set_same. cbn [ping registry_entry]. now rewrite Hirr.
Qed.

Lemma isspace_lower_char (c : ascii) : isspace (lower_char c) = isspace c.
Proof. destruct c as [[] [] [] [] [] [] [] []]; reflexivity. Qed.

Lemma lower_char_idempotent (c : ascii) :
  lower_char (lower_char c) = lower_char c.
Proof. destruct c as [[] [] [] [] [] [] [] []]; reflexivity. Qed.

Lemma lower_idempotent (s : string) : lower (lower s) = lower s.
Proof.
  induction s as [|c s IH]; [reflexivity|]. cbn [lower].
  now rewrite lower_char_idempotent, IH.
Qed.

Lemma lower_lstrip (s : string) : lower (lstrip s) = lstrip (lower s).
Proof.
  induction s as [|c s IH]; [reflexivity|]. cbn [lower lstrip].
  rewrite isspace_lower_char. now destruct (isspace c).
Qed.

Lemma lower_rstrip (s : string) : lower (rstrip s) = rstrip (lower s).
Proof.
  induction s as [|c s IH]; [reflexivity|]. cbn [lower rstrip].
  rewrite isspace_lower_char, <- IH.
  assert (He : is_empty (lower (rstrip s)) = is_empty (rstrip s))
    by now destruct (rstrip s).
  rewrite He. now destruct (isspace c && is_empty (rstrip s)).
Qed.

Lemma lower_strip (s : string) : lower (strip s) = strip (lower s).
Proof. unfold strip. now rewrite lower_rstrip, lower_lstrip. Qed.

(** X27. The registry key ignores case and surrounding white space, and a
    key is its own key: [normalize] gives the same key for a name, for its
    lower-cased form and for its stripped form, and it is idempotent. So
    two names that differ only in these respects compete for one registry
    entry. *)
Theorem normalize_insensitive (n : string) :
  normalize (lower n) = normalize n
  /\ normalize (strip n) = normalize n
  /\ normalize (normalize n) = normalize n.
Proof.
  unfold normalize. split; [|split].
  - now rewrite lower_idempotent.
  - now rewrite lower_strip, strip_idempotent.
  - now rewrite lower_strip, lower_idempotent, strip_idempotent.
Qed.

(* ================================================================== *)
(** * C1: what one merge does                                          *)
(* ================================================================== *)

Lemma registry_entry_built_from (c : channel) (p : latency) :
  built_from (registry_entry c p) c p.
Proof. unfold built_from, registry_entry. simpl. now repeat split. Qed.

Lemma is_capital_lower_char (c : ascii) : is_capital (lower_char c) = false.
Proof. destruct c as [[] [] [] [] [] [] [] []]; reflexivity. Qed.

Lemma lower_has_no_capital (ch : ascii) (s : string) :
  has_char ch (lower s) = true -> is_capital ch = false.
Proof.
  induction s as [|c s IH]; cbn [lower has_char]; [discriminate|].
  intros H. apply orb_true_iff in H as [H|H]; [|now apply IH].
  apply Ascii.eqb_eq in H. subst ch. apply is_capital_lower_char.
Qed.

Lemma rstrip_last (a : string) (ch : ascii) :
  rstrip (a +++ String ch EmptyString) = a +++ String ch EmptyString ->
  isspace ch = false.
Proof.
  induction a as [|x a IH]; cbn [String.append rstrip is_empty].
  - destruct (isspace ch); [discriminate|reflexivity].
  - destruct (isspace x && is_empty (rstrip (a +++ String ch EmptyString)));
      [discriminate|]. intros [= H]. now apply IH.
Qed.

(** The key has no capital letter and no white space at either end. *)
Lemma normalize_shape (n : string) :
  (forall ch, has_char ch (strip (lower n)) = true -> is_capital ch = false)
  /\ (forall ch rest, strip (lower n) = String ch rest -> isspace ch = false)
  /\ (forall ch front, strip (lower n) = front +++ String ch EmptyString ->
        isspace ch = false).
Proof.
  destruct (strip_fixed _ (strip_idempotent (lower n))) as [Hl Hr].
  split; [|split].
  - intros ch H. apply (lower_has_no_capital ch n).
    destruct (has_char ch (lower n)) eqn:E; [reflexivity|].
    rewrite (has_char_strip ch _ E) in H. discriminate.
  - intros ch rest Heq. rewrite Heq in Hl. cbn [lstrip] in Hl.
    destruct (isspace ch); [|reflexivity].
    pose proof (length_lstrip rest) as Hlen. rewrite Hl in Hlen.
    simpl in Hlen. lia.
  - intros ch front Heq. rewrite Heq in Hr. now apply (rstrip_last front).
Qed.

(** C1. With duplicate removal enabled, [merge] on [(candidate, latency,
    alive)] leaves the registry as it is when [alive] is false. When
    [alive] is true and the key [strip (lower name)] is absent, an entry is
    added under that key, after the others, that has the name, url, group
    and logo of the candidate, the latency as its ping and the source file
    of the candidate as its source. When the key is present, the stored
    entry is replaced by such an entry if the latency is strictly lower
    than the stored ping (the keys and the entries of all other keys stay
    as they are), and the registry is left as it is otherwise. The key
    holds no capital letter and neither starts nor ends with white
    space. *)
Theorem merge_postcondition (cfg : config) (db : registry) (c : channel)
    (p : latency) (alive : bool) :
  remove_duplicates cfg = true ->
  (alive = false -> merge cfg db (c, p, alive) = db) /\
  (alive = true -> db_get (strip (lower (ch_name c))) db = None ->
     exists e,
       built_from e c p
       /\ merge cfg db (c, p, alive) = db ++ [(strip (lower (ch_name c)), e)]
       /\ db_get (strip (lower (ch_name c))) (merge cfg db (c, p, alive))
          = Some e) /\
  (alive = true -> forall old : entry,
     db_get (strip (lower (ch_name c))) db = Some old ->
     (lat_lt p (ping old) ->
        exists e,
          built_from e c p
          /\ db_get (strip (lower (ch_name c))) (merge cfg db (c, p, alive))
             = Some e
          /\ db_keys (merge cfg db (c, p, alive)) = db_keys db
          /\ forall k, k <> strip (lower (ch_name c)) ->
               db_get k (merge cfg db (c, p, alive)) = db_get k db) /\
     (~ lat_lt p (ping old) -> merge cfg db (c, p, alive) = db)) /\
  ((forall ch, has_char ch (strip (lower (ch_name c))) = true ->
      is_capital ch = false)
   /\ (forall ch rest, strip (lower (ch_name c)) = String ch rest ->
         isspace ch = false)
   /\ (forall ch front,
         strip (lower (ch_name c)) = front +++ String ch EmptyString ->
         isspace ch = false)).
Proof.
  intros Hdedup. unfold merge, update_channel_db, normalize. rewrite Hdedup.
  split; [|split; [|split]].
  - intros ->. reflexivity.
  - intros -> Habsent. rewrite Habsent. exists (registry_entry c p).
    split; [apply registry_entry_built_from|]. split.
    + now apply db_set_absent.
    + apply db_get_set_same.
  - intros -> old Hold. rewrite Hold. unfold lat_lt. split.
    + intros Hlt. rewrite Hlt. exists (registry_entry c p).
      split; [apply registry_entry_built_from|].
      split; [apply db_get_set_same|]. split.
      * rewrite db_keys_set. unfold db_mem. now rewrite Hold.
      * intros k Hk. now apply db_get_set_other.
    + intros Hnlt. destruct (lat_ltb p (ping old)); [now elim Hnlt|reflexivity].
  - apply normalize_shape.
Qed.

(** The dedup rejection of the specification, with the second name in
    another case and with a trailing space: ("Alpha", url1, 30) and then
    ("alpha ", url2, 50) keeps url1 and 30. Before that, the first merge
    adds the entry of ("Alpha", url1, 30) under the key [alpha]. *)
Lemma merge_postcondition_witness :
  merge default_config
        (merge default_config [] (alpha1, Finite 30, true))
        (alpha2, Finite 50, true)
  = merge default_config [] (alpha1, Finite 30, true)
  /\ exists e,
       built_from e alpha1 (Finite 30)
       /\ merge default_config [] (alpha1, Finite 30, true)
          = [] ++ [("alpha", e)]
       /\ db_get "alpha" (merge default_config [] (alpha1, Finite 30, true))
          = Some e.
Proof.
  split.
  - refine (proj2 (proj1 (proj2 (proj2
      (merge_postcondition default_config
         (merge default_config [] (alpha1, Finite 30, true))
         alpha2 (Finite 50) true eq_refl)))
         eq_refl
         (registry_entry alpha1 (Finite 30))
         eq_refl) _).
    unfold lat_lt. simpl. discriminate.
  - exact (proj1 (proj2
      (merge_postcondition default_config [] alpha1 (Finite 30) true eq_refl))
      eq_refl eq_refl).
Defined.
